(** * VkHashDAG: hash-consed sparse voxel octree, editors and paged pools

    A shallow embedding of the editing core of VkHashDAG:
    - the editors of [src/main.cpp] ([AABBEditor], [SphereEditor],
      [VoxImporter] with its VOX file loader);
    - the paged node store, [find_node]/[upsert_node] and the recursive
      edit of the HashDAG implementation notes;
    - the colour pool's [SafePagedVector::Append] and [SetLeaf], and
      [PagedVector::ForeachPage].

    Machine words are [Z] with the wrap-around written out; arrays are
    lists; the pool is threaded explicitly through a small state-and-error
    monad. *)

From Stdlib Require Import ZArith Lia.
From stdpp Require Import base numbers list.

Local Open Scope Z_scope.

(* ===================================================================== *)
(** * Part I: the model *)
(* ===================================================================== *)

(** ** Machine words *)

Definition wrap32 (x : Z) : Z := x mod 2 ^ 32.
Definition wrap64 (x : Z) : Z := x mod 2 ^ 64.

(** [popcount n m]: number of set bits among the [n] low bits of [m]. *)
Fixpoint popcount (n : nat) (m : Z) : nat :=
  match n with
  | O => O
  | S k => ((if Z.odd m then 1 else 0) + popcount k (m / 2))%nat
  end.

(** ** Core types of the hashdag library *)

Inductive EditType : Type := kNotAffected | kClear | kFill | kProceed.

Inductive EditMode : Type := mFill | mDig | mPaint.

(** [glm::u32vec3] *)
Record u32vec3 : Type := mk_vec3 { vx : Z; vy : Z; vz : Z }.

Definition vec_all (f : Z → Z → bool) (a b : u32vec3) : bool :=
  f (vx a) (vx b) && f (vy a) (vy b) && f (vz a) (vz b).
Definition vec_any (f : Z → Z → bool) (a b : u32vec3) : bool :=
  f (vx a) (vx b) || f (vy a) (vy b) || f (vz a) (vz b).

Definition lessThan (a b : u32vec3) : bool := vec_all Z.ltb a b.
Definition all_lessThanEqual (a b : u32vec3) : bool := vec_all Z.leb a b.
Definition all_greaterThanEqual (a b : u32vec3) : bool := vec_all Z.geb a b.
Definition any_lessThanEqual (a b : u32vec3) : bool := vec_any Z.leb a b.
Definition any_greaterThanEqual (a b : u32vec3) : bool := vec_any Z.geb a b.

Record NodeCoord : Type := mk_coord { level : nat; pos : u32vec3 }.

(** A node pointer is one 32-bit word.

    Modelled from the spec: the values of the two sentinels (the
    definition of [NodePointer] is not among the sources; the
    sentinels are "reserved high-bit patterns"). *)
Abbreviation NodePointer := Z (only parsing).
Definition Null : NodePointer := 0xFFFFFFFF.
Definition Filled : NodePointer := 0xFFFFFFFE.

(** [explicit operator bool]: a pointer is true unless it is Null. *)
Definition ptr_bool (p : NodePointer) : bool := negb (p =? Null).

(** [VBRColor]: one packed 32-bit word; [VBRColor{}] is the empty colour. *)
Abbreviation VBRColor := Z (only parsing).
Definition VBRColor_empty : VBRColor := 0.

(** ** Configuration *)

Record Config : Type := mk_config {
  word_bits_per_page : Z;
  page_bits_per_bucket : Z;
  bucket_bits_each_level : list Z
}.

(** Modelled from the spec: the bodies of the computed properties of
    [Config] (only their declarations are given).  Node levels are
    [0 .. GetLeafLevel]; a leaf is a 4x4x4 block, so the voxel level lies
    two levels below the leaf level. *)
Definition GetWordsPerPage (c : Config) : Z := 2 ^ word_bits_per_page c.
Definition GetPagesPerBucket (c : Config) : Z := 2 ^ page_bits_per_bucket c.
Definition GetWordsPerBucket (c : Config) : Z :=
  2 ^ (word_bits_per_page c + page_bits_per_bucket c).
Definition GetNodeLevels (c : Config) : nat := length (bucket_bits_each_level c).
Definition GetLeafLevel (c : Config) : nat := (GetNodeLevels c - 1)%nat.
Definition GetVoxelLevel (c : Config) : nat := (GetNodeLevels c + 1)%nat.
Definition GetBucketsAtLevel (c : Config) (lv : nat) : Z :=
  2 ^ (default 0 (bucket_bits_each_level c !! lv)).
Definition level_base (c : Config) (lv : nat) : Z :=
  foldr Z.add 0 (map (λ b, 2 ^ b) (take lv (bucket_bits_each_level c))).
Definition GetTotalBuckets (c : Config) : Z := level_base c (GetNodeLevels c).
Definition GetTotalPages (c : Config) : Z := GetTotalBuckets c * GetPagesPerBucket c.
Definition GetTotalWords (c : Config) : Z := GetTotalBuckets c * GetWordsPerBucket c.

Record DefaultConfig : Type := mk_default_config {
  level_count : nat;
  top_level_count : nat;
  dc_word_bits_per_page : Z;
  dc_page_bits_per_bucket : Z;
  bucket_bits_per_top_level : Z;
  bucket_bits_per_bottom_level : Z
}.

(** Modelled from the spec: [DefaultConfig::operator()].  [level_count]
    is the voxel level, so there are [level_count - 1] node levels, the
    first [top_level_count] of which get the top bucket count. *)
Definition DefaultConfig_call (d : DefaultConfig) : Config :=
  let n := (level_count d - 1)%nat in
  mk_config (dc_word_bits_per_page d) (dc_page_bits_per_bucket d)
    (replicate (min (top_level_count d) n) (bucket_bits_per_top_level d)
     ++ replicate (n - top_level_count d) (bucket_bits_per_bottom_level d)).

(** ** Node coordinates *)

(** Modelled from the spec: [NodeCoord::GetLowerBoundAtLevel] and
    [GetUpperBoundAtLevel] (declarations only): the cube of a node at
    level [level c], measured in cells of level [lv], is [[lb, ub)]. *)
Definition shl32 (x : Z) (k : nat) : Z := wrap32 (x * 2 ^ Z.of_nat k).

Definition GetLowerBoundAtLevel (c : NodeCoord) (lv : nat) : u32vec3 :=
  let k := (lv - level c)%nat in
  mk_vec3 (shl32 (vx (pos c)) k) (shl32 (vy (pos c)) k) (shl32 (vz (pos c)) k).

Definition GetUpperBoundAtLevel (c : NodeCoord) (lv : nat) : u32vec3 :=
  let k := (lv - level c)%nat in
  mk_vec3 (shl32 (vx (pos c) + 1) k) (shl32 (vy (pos c) + 1) k)
          (shl32 (vz (pos c) + 1) k).

(** Modelled from the spec: child ordering is z-y-x major, so octant [i]
    has x in bit 0, y in bit 1 and z in bit 2. *)
Definition get_child_coord (c : NodeCoord) (i : nat) : NodeCoord :=
  let i := Z.of_nat i in
  mk_coord (S (level c))
    (mk_vec3 (2 * vx (pos c) + i mod 2)
             (2 * vy (pos c) + (i / 2) mod 2)
             (2 * vz (pos c) + (i / 4) mod 2)).

(** Modelled from the spec: the 64 voxels of a 4x4x4 leaf, x fastest. *)
Definition get_voxel_coord (c : NodeCoord) (i : nat) : NodeCoord :=
  let i := Z.of_nat i in
  mk_coord (S (S (level c)))
    (mk_vec3 (4 * vx (pos c) + i mod 4)
             (4 * vy (pos c) + (i / 4) mod 4)
             (4 * vz (pos c) + (i / 16) mod 4)).

(** ** Editors of [src/main.cpp] *)

(** The capability set of an editor ([Editor] concept), with the
    configuration already applied. *)
Record Editor : Type := mk_editor {
  EditNode : NodeCoord → NodePointer → EditType;
  EditVoxel : NodeCoord → bool → bool
}.

(** The colour-threading capability set ([VBREditor] concept): the
    colour is passed by reference, so both methods also return it. *)
Record VBREditor : Type := mk_vbr_editor {
  VBREditNode : NodeCoord → NodePointer → VBRColor → EditType * VBRColor;
  VBREditVoxel : NodeCoord → bool → VBRColor → bool * VBRColor
}.

(** *** AABBEditor *)

Record AABBEditor : Type := mk_aabb {
  aabb_min : u32vec3;
  aabb_max : u32vec3;
  aabb_color : VBRColor
}.

Definition AABBEditor_EditNode (cfg : Config) (e : AABBEditor)
    (coord : NodeCoord) (_ : NodePointer) : EditType :=
  let lb := GetLowerBoundAtLevel coord (GetVoxelLevel cfg) in
  let ub := GetUpperBoundAtLevel coord (GetVoxelLevel cfg) in
  if any_lessThanEqual ub (aabb_min e) || any_greaterThanEqual lb (aabb_max e)
  then kNotAffected
  else if all_greaterThanEqual lb (aabb_min e) && all_lessThanEqual ub (aabb_max e)
  then kFill
  else kProceed.


Definition AABBEditor_VoxelInRange (e : AABBEditor) (coord : NodeCoord) : bool :=
  all_greaterThanEqual (pos coord) (aabb_min e) && lessThan (pos coord) (aabb_max e).

Definition AABBEditor_EditVoxel (e : AABBEditor) (coord : NodeCoord)
    (voxel : bool) : bool :=
  voxel || AABBEditor_VoxelInRange e coord.


(** *** SphereEditor<Mode> *)

Record SphereEditor : Type := mk_sphere {
  center : u32vec3;
  r2 : Z;
  sphere_color : VBRColor
}.

(** Squared distance per axis: the [i64] difference is squared and
    stored into a [u64]. *)
Definition dist_2 (d : Z) : Z := wrap64 (d * d).

Definition SphereEditor_EditNode (mode : EditMode) (cfg : Config)
    (e : SphereEditor) (coord : NodeCoord) (_ : NodePointer) : EditType :=
  let lb := GetLowerBoundAtLevel coord (GetVoxelLevel cfg) in
  let ub := GetUpperBoundAtLevel coord (GetVoxelLevel cfg) in
  let lbx := vx lb - vx (center e) in
  let lby := vy lb - vy (center e) in
  let lbz := vz lb - vz (center e) in
  let ubx := vx ub - vx (center e) in
  let uby := vy ub - vy (center e) in
  let ubz := vz ub - vz (center e) in
  let max_n2 :=
    wrap64 (Z.max (dist_2 lbx) (dist_2 ubx) + Z.max (dist_2 lby) (dist_2 uby)
            + Z.max (dist_2 lbz) (dist_2 ubz)) in
  if max_n2 <=? r2 e then
    match mode with mDig => kClear | _ => kFill end
  else
    let min_n2 := 0 in
    let min_n2 := if lbx >? 0 then wrap64 (min_n2 + dist_2 lbx) else min_n2 in
    let min_n2 := if ubx <? 0 then wrap64 (min_n2 + dist_2 ubx) else min_n2 in
    let min_n2 := if lby >? 0 then wrap64 (min_n2 + dist_2 lby) else min_n2 in
    let min_n2 := if uby <? 0 then wrap64 (min_n2 + dist_2 uby) else min_n2 in
    let min_n2 := if lbz >? 0 then wrap64 (min_n2 + dist_2 lbz) else min_n2 in
    let min_n2 := if ubz <? 0 then wrap64 (min_n2 + dist_2 ubz) else min_n2 in
    if min_n2 >? r2 e then kNotAffected else kProceed.

(** The colour overload; it only exists for [Mode != kDig]
    ([static_assert]). *)
Definition SphereEditor_EditNode_color (mode : EditMode) (cfg : Config)
    (e : SphereEditor) (coord : NodeCoord) (ptr : NodePointer)
    (final_color : VBRColor) : EditType * VBRColor :=
  let edit_type := SphereEditor_EditNode mode cfg e coord Null in
  let '(edit_type, final_color) :=
    match edit_type with
    | kFill =>
        (match mode with mPaint => kNotAffected | _ => kFill end, sphere_color e)
    | _ =>
        if negb (ptr_bool ptr) || (final_color =? sphere_color e)
        then (edit_type, sphere_color e)
        else (edit_type, VBRColor_empty)
    end in
  let edit_type :=
    match mode with
    | mPaint => if negb (ptr_bool ptr) then kNotAffected else edit_type
    | _ => edit_type
    end in
  (edit_type, final_color).

Definition SphereEditor_VoxelInRange (e : SphereEditor) (coord : NodeCoord) : bool :=
  let px := vx (pos coord) - vx (center e) in
  let py := vy (pos coord) - vy (center e) in
  let pz := vz (pos coord) - vz (center e) in
  wrap64 (px * px + py * py + pz * pz) <=? r2 e.

Definition SphereEditor_EditVoxel (mode : EditMode) (e : SphereEditor)
    (coord : NodeCoord) (voxel : bool) : bool :=
  match mode with
  | mPaint => voxel
  | mFill => voxel || SphereEditor_VoxelInRange e coord
  | mDig => voxel && negb (SphereEditor_VoxelInRange e coord)
  end.

Definition SphereEditor_EditVoxel_color (mode : EditMode) (e : SphereEditor)
    (coord : NodeCoord) (voxel : bool) (color : VBRColor) : bool * VBRColor :=
  let in_range := SphereEditor_VoxelInRange e coord in
  (match mode with mFill => voxel || in_range | _ => voxel end,
   if in_range || negb voxel then sphere_color e else color).

(** The editors as capability sets. *)
Definition aabb_editor (cfg : Config) (e : AABBEditor) : Editor :=
  mk_editor (AABBEditor_EditNode cfg e) (AABBEditor_EditVoxel e).


Definition sphere_editor (mode : EditMode) (cfg : Config) (e : SphereEditor) : Editor :=
  mk_editor (SphereEditor_EditNode mode cfg e) (SphereEditor_EditVoxel mode e).

Definition sphere_vbr_editor (mode : EditMode) (cfg : Config) (e : SphereEditor)
    : VBREditor :=
  mk_vbr_editor (SphereEditor_EditNode_color mode cfg e)
                (SphereEditor_EditVoxel_color mode e).

(** ** The paged node store ([DAGNodePool]) *)

(** [m_pages]: one optional word buffer per page (a null [unique_ptr]
    until the first write); [m_bucket_words]: the used word count of
    each bucket. *)
Record NodePool : Type := mk_pool {
  m_pages : list (option (list Z));
  m_bucket_words : list Z
}.

(** A freshly constructed pool: no page resident, every bucket empty. *)
Definition empty_pool (cfg : Config) : NodePool :=
  mk_pool (replicate (Z.to_nat (GetTotalPages cfg)) None)
          (replicate (Z.to_nat (GetTotalBuckets cfg)) 0).

(** [ReadPage]: the raw buffer pointer of the page, which is null
    ([None]) for a page that has never been written.  (The prefetch of
    the next page has no functional effect.) *)
Definition ReadPage (s : NodePool) (page_id : Z) : option (list Z) :=
  match m_pages s !! Z.to_nat page_id with
  | Some (Some page) => Some page
  | _ => None
  end.

(** [WritePage]: allocate the page on first write
    ([make_unique_for_overwrite]; the unwritten words are indeterminate
    and read as 0 here), then copy the span at [offset]. *)
Definition WritePage (cfg : Config) (s : NodePool) (page_id offset : Z)
    (data : list Z) : NodePool :=
  let page :=
    match ReadPage s page_id with
    | Some page => page
    | None => replicate (Z.to_nat (GetWordsPerPage cfg)) 0
    end in
  mk_pool (<[Z.to_nat page_id := Some (list_inserts (Z.to_nat offset) data page)]>
             (m_pages s))
          (m_bucket_words s).

(** The word at a global word address, read through [ReadPage]. *)
Definition read_word (cfg : Config) (s : NodePool) (addr : Z) : Z :=
  match ReadPage s (addr / GetWordsPerPage cfg) with
  | Some page => default 0 (page !! Z.to_nat (addr mod GetWordsPerPage cfg))
  | None => 0
  end.

(** Writing a span at a global word address, one [WritePage] call per
    page touched (the span may cross a page boundary). *)
Fixpoint write_words (cfg : Config) (fuel : nat) (s : NodePool) (addr : Z)
    (ws : list Z) : NodePool :=
  match fuel with
  | O => s
  | S fuel' =>
      match ws with
      | [] => s
      | _ :: _ =>
          let W := GetWordsPerPage cfg in
          let off := addr mod W in
          let k := Z.to_nat (Z.min (W - off) (Z.of_nat (length ws))) in
          write_words cfg fuel'
            (WritePage cfg s (addr / W) off (take k ws))
            (addr + Z.of_nat k) (drop k ws)
      end
  end.

Definition GetBucketWords (s : NodePool) (bucket_id : Z) : Z :=
  default 0 (m_bucket_words s !! Z.to_nat bucket_id).

Definition SetBucketWords (s : NodePool) (bucket_id : Z) (n : Z) : NodePool :=
  mk_pool (m_pages s) (<[Z.to_nat bucket_id := n]> (m_bucket_words s)).

(** ** Results and the pool monad *)

Inductive Result (A : Type) : Type :=
  | Ok (a : A)
  | OutOfBuckets.
Arguments Ok {A} a.
Arguments OutOfBuckets {A}.

Definition M (A : Type) : Type := NodePool → Result (A * NodePool).

Definition ret {A : Type} (a : A) : M A := λ s, Ok (a, s).

Definition bindM {A B : Type} (m : M A) (k : A → M B) : M B :=
  λ s, match m s with
       | Ok (a, s') => k a s'
       | OutOfBuckets => OutOfBuckets
       end.

Notation "'do' x <- m ; k" := (bindM m (λ x, k))
  (at level 10, x name, m at level 100, k at level 200).

(** ** Hash-consed nodes ([NodePool]) *)

Section node_pool.
Variable cfg : Config.
(** The hash of a node's words ([MurmurHasher32]; the hash function
    itself is a parameter of the pool). *)
Variable hasher : list Z → Z.

(** Modelled from the spec: node size in words, derivable from the
    level and the child mask alone: a leaf is two words, an inner node
    its mask word followed by one pointer per set mask bit. *)
Definition node_size (lv : nat) (w : Z) : nat :=
  if decide (lv = GetLeafLevel cfg) then 2%nat
  else S (popcount 8 (Z.land w 0xFF)).

(** Modelled from the spec: [calculate_bucket], the bucket of a node is
    [level_base[l] + hash(words) mod buckets_at[l]]. *)
Definition calculate_bucket (lv : nat) (node : list Z) : Z :=
  level_base cfg lv + wrap32 (hasher node) mod GetBucketsAtLevel cfg lv.

(** The words of the used prefix of a bucket. *)
Definition bucket_span (s : NodePool) (bucket_index : Z) : list Z :=
  read_word cfg s
    <$> seqZ (bucket_index * GetWordsPerBucket cfg) (GetBucketWords s bucket_index).

(** Walking a word span node by node: each entry is the offset of a
    node and its words. *)
Fixpoint parse_nodes (lv : nat) (fuel : nat) (off : Z) (ws : list Z)
    : list (Z * list Z) :=
  match fuel with
  | O => []
  | S fuel' =>
      match ws with
      | [] => []
      | w :: _ =>
          let n := node_size lv w in
          (off, take n ws) :: parse_nodes lv fuel' (off + Z.of_nat n) (drop n ws)
      end
  end.

Definition bucket_nodes (s : NodePool) (lv : nat) (bucket_index : Z)
    : list (Z * list Z) :=
  let ws := bucket_span s bucket_index in
  parse_nodes lv (length ws) (bucket_index * GetWordsPerBucket cfg) ws.

Fixpoint find_words (node : list Z) (ns : list (Z * list Z)) : NodePointer :=
  match ns with
  | [] => Null
  | (a, ws) :: ns' => if decide (ws = node) then a else find_words node ns'
  end.

(** [find_node]: iterate every node within the bucket's used prefix,
    walking from page to page (every word is fetched with [ReadPage]),
    compare word for word, and return the address of the first match,
    or Null.  The per-page helper [find_node_in_page] is modelled from
    the spec. *)
Definition find_node (s : NodePool) (lv : nat) (bucket_index : Z)
    (node_span : list Z) : NodePointer :=
  find_words node_span (bucket_nodes s lv bucket_index).

(** Modelled from the spec: [append_node] checks the bucket capacity,
    writes the node's words at the tail with [WritePage], and publishes
    the new used count; on exhaustion it fails with [OutOfBuckets]. *)
Definition append_node (bucket_index : Z) (node_span : list Z) : M NodePointer :=
  λ s,
    let used := GetBucketWords s bucket_index in
    let n := Z.of_nat (length node_span) in
    if used + n >? GetWordsPerBucket cfg then OutOfBuckets
    else
      let addr := bucket_index * GetWordsPerBucket cfg + used in
      Ok (addr,
          SetBucketWords (write_words cfg (length node_span) s addr node_span)
                         bucket_index (used + n)).

(** [upsert_node]: find, re-find under the bucket lock, append. *)
Definition upsert_node (lv : nat) (node_span : list Z) : M NodePointer :=
  λ s,
    let bucket_index := calculate_bucket lv node_span in
    let existing := find_node s lv bucket_index node_span in
    if ptr_bool existing then Ok (existing, s)
    else
      (* std::lock_guard lock(bucket_mutex[bucket_index]) *)
      let existing := find_node s lv bucket_index node_span in
      if ptr_bool existing then Ok (existing, s)
      else append_node bucket_index node_span s.

(** *** Node arrays *)

(** Modelled from the spec: [get_filled_node_pointer] is the Filled
    sentinel at every level. *)
Definition get_filled_node_pointer (lv : nat) : NodePointer := Filled.

(** Modelled from the spec: the two words of a leaf (Filled: all ones,
    Null: all zeros, else the stored words). *)
Definition get_leaf_array (s : NodePool) (leaf : NodePointer) : list Z :=
  if leaf =? Null then [0; 0]
  else if leaf =? Filled then [0xFFFFFFFF; 0xFFFFFFFF]
  else [read_word cfg s leaf; read_word cfg s (leaf + 1)].

Definition get_voxel_bit (leaf_data : list Z) (i : nat) : bool :=
  Z.testbit (default 0 (leaf_data !! (i / 32)%nat)) (Z.of_nat (i mod 32)).

Definition set_voxel_bit (leaf_data : list Z) (i : nat) (b : bool) : list Z :=
  let w := default 0 (leaf_data !! (i / 32)%nat) in
  let k := Z.of_nat (i mod 32) in
  <[(i / 32)%nat := if b then Z.setbit w k else Z.clearbit w k]> leaf_data.

(** Modelled from the spec: the unpacked array of an inner node: slot
    0 is the child mask, slots 1..8 the eight child pointers (Null where
    the mask bit is clear).  Null unpacks to eight Null children, Filled
    to eight Filled children. *)
Definition get_unpacked_node_array (s : NodePool) (node : NodePointer) : list Z :=
  if node =? Null then 0 :: replicate 8 Null
  else if node =? Filled then 0xFF :: replicate 8 Filled
  else
    let mask := Z.land (read_word cfg s node) 0xFF in
    mask :: ((λ i : nat,
                if Z.testbit mask (Z.of_nat i)
                then read_word cfg s (node + 1 + Z.of_nat (popcount i mask))
                else Null)
             <$> seq 0 8).

Fixpoint child_mask (children : list NodePointer) : Z :=
  match children with
  | [] => 0
  | c :: cs => (if ptr_bool c then 1 else 0) + 2 * child_mask cs
  end.

(** Modelled from the spec: packing recomputes the mask (which marks
    the non-Null children) and keeps the non-Null pointers in octant
    order; a Filled child keeps its full pointer value. *)
Definition get_packed_node_inplace (children : list Z) : list Z :=
  let cs := drop 1 children in
  child_mask cs :: filter (λ c, ptr_bool c = true) cs.

(** Modelled from the spec: [upsert_leaf] normalizes an all-zero leaf to
    Null and an all-one leaf to Filled before the upsert. *)
Definition upsert_leaf (lv : nat) (leaf_data : list Z) : M NodePointer :=
  if decide (leaf_data = [0; 0]) then ret Null
  else if decide (leaf_data = [0xFFFFFFFF; 0xFFFFFFFF]) then ret Filled
  else upsert_node lv leaf_data.

(** Modelled from the spec: [upsert_inner_node] normalizes a node whose
    children are all Null to Null and one whose children are all Filled
    to Filled before the upsert. *)
Definition upsert_inner_node (lv : nat) (packed_node : list Z) : M NodePointer :=
  if decide (packed_node = [0]) then ret Null
  else if decide (packed_node = 0xFF :: replicate 8 Filled) then ret Filled
  else upsert_node lv packed_node.

(** *** The recursive edit *)

(** The loop of [edit_leaf] over the 64 voxels. *)
Definition edit_leaf_step (editor : Editor) (coord : NodeCoord)
    (st : list Z * bool) (i : nat) : list Z * bool :=
  let '(leaf_data, changed) := st in
  let voxel_coord := get_voxel_coord coord i in
  let old_voxel := get_voxel_bit leaf_data i in
  let new_voxel := EditVoxel editor voxel_coord old_voxel in
  if eqb old_voxel new_voxel then (leaf_data, changed)
  else (set_voxel_bit leaf_data i new_voxel, true).

Definition edit_leaf (editor : Editor) (leaf : NodePointer) (coord : NodeCoord)
    : M NodePointer :=
  λ s,
    let leaf_data := get_leaf_array s leaf in
    let '(leaf_data, changed) :=
      foldl (edit_leaf_step editor coord) (leaf_data, false) (seq 0 64) in
    if negb changed then Ok (leaf, s)
    else upsert_leaf (level coord) leaf_data s.

(** The body of the loop of [edit_inner_node]: the editor's decision
    for one child and the rewritten child. *)
Definition edit_child (rec : NodePointer → NodeCoord → M NodePointer)
    (editor : Editor) (child_coord : NodeCoord) (child : NodePointer)
    : M (NodePointer * bool) :=
  match EditNode editor child_coord child with
  | kNotAffected => ret (child, false)
  | kClear => ret (Null, true)
  | kFill => ret (get_filled_node_pointer (S (level child_coord)), true)
  | kProceed =>
      do new_child <- rec child child_coord;
      ret (new_child, negb (new_child =? child))
  end.

(** The loop itself, over the children from octant [i] on. *)
Fixpoint edit_children (rec : NodePointer → NodeCoord → M NodePointer)
    (editor : Editor) (coord : NodeCoord) (i : nat)
    (children : list NodePointer) : M (list NodePointer * bool) :=
  match children with
  | [] => ret ([], false)
  | child :: rest =>
      do r <- edit_child rec editor (get_child_coord coord i) child;
      do rs <- edit_children rec editor coord (S i) rest;
      ret (r.1 :: rs.1, r.2 || rs.2)
  end.

Definition edit_inner_node (rec : NodePointer → NodeCoord → M NodePointer)
    (editor : Editor) (node : NodePointer) (coord : NodeCoord) : M NodePointer :=
  λ s,
    let children := get_unpacked_node_array s node in
    (do r <- edit_children rec editor coord 0 (drop 1 children);
     if negb r.2 then ret node
     else
       let packed_node := get_packed_node_inplace (take 1 children ++ r.1) in
       upsert_inner_node (level coord) packed_node) s.

(** [edit_node] at distance [d] above the leaf level;
    [coord.is_leaf_level()] holds exactly when the distance is 0. *)
Fixpoint edit_node_at (d : nat) (editor : Editor) (node : NodePointer)
    (coord : NodeCoord) : M NodePointer :=
  match d with
  | O => edit_leaf editor node coord
  | S d' => edit_inner_node (edit_node_at d' editor) editor node coord
  end.

Definition edit_node (editor : Editor) (node : NodePointer) (coord : NodeCoord)
    : M NodePointer :=
  edit_node_at (GetLeafLevel cfg - level coord) editor node coord.

(** *** Reading a voxel back *)

Definition leaf_index (v : u32vec3) : nat :=
  Z.to_nat (vx v mod 4 + 4 * (vy v mod 4) + 16 * (vz v mod 4)).

(** The octant of voxel [v] inside a node whose children are [d]
    levels above the leaf level. *)
Definition child_index (d : nat) (v : u32vec3) : nat :=
  let k := 2 ^ Z.of_nat (d + 2) in
  Z.to_nat ((vx v / k) mod 2 + 2 * ((vy v / k) mod 2) + 4 * ((vz v / k) mod 2)).

(** Modelled from the spec: occupancy of voxel [v] under pointer [p],
    [d] levels above the leaf level (Null: empty, Filled: full). *)
Fixpoint voxel_at (d : nat) (s : NodePool) (p : NodePointer) (v : u32vec3) : bool :=
  if p =? Null then false
  else if p =? Filled then true
  else
    match d with
    | O => get_voxel_bit (get_leaf_array s p) (leaf_index v)
    | S d' =>
        voxel_at d' s
          (default Null (get_unpacked_node_array s p !! S (child_index d' v))) v
    end.

End node_pool.

(** ** The colour pool ([DAGColorPool]) *)

(** [SafePagedVector<uint32_t>]: page geometry, the number of pages
    handed out so far, and the words stored (indexed by word). *)
Record SafePagedVector : Type := mk_spv {
  m_page_size : Z;
  m_total_pages : Z;
  m_used_pages : Z;
  m_data : Z → Z
}.

(** [required_pages = (count + m_page_size - 1) / m_page_size] in
    [size_t] arithmetic. *)
Definition required_pages (v : SafePagedVector) (count : Z) : Z :=
  wrap64 (count + m_page_size v - 1) / m_page_size v.

(** Modelled from the spec: [allocate_pages] hands out the next
    [required] pages, runs the initializer on the store, and returns the
    index of the first word of the first new page. *)
Definition allocate_pages (v : SafePagedVector) (required : Z)
    (initializer : (Z → Z) → (Z → Z)) : option (Z * SafePagedVector) :=
  Some (m_used_pages v * m_page_size v,
        mk_spv (m_page_size v) (m_total_pages v) (m_used_pages v + required)
               (initializer (m_data v))).

(** [SafePagedVector::Append] *)
Definition Append (v : SafePagedVector) (count : Z)
    (initializer : (Z → Z) → (Z → Z)) : option (Z * SafePagedVector) :=
  if m_used_pages v >=? m_total_pages v then None
  else
    let required := required_pages v count in
    if m_used_pages v + required >? m_total_pages v then None
    else allocate_pages v required initializer.

(** [SafePagedVector::Read(idx, std::identity{})] *)
Definition Read (v : SafePagedVector) (idx : Z) : Z := m_data v idx.

Inductive Tag : Type := kNode | kColor | kLeaf | kNull.

(** [DAGColorPool::Pointer]: a tag and 30 bits of data. *)
Record Pointer : Type := mk_pointer { GetTag : Tag; GetData : Z }.

Record ColorConfig : Type := mk_color_config {
  leaf_level : nat;
  node_bits_per_node_page : Z;
  word_bits_per_leaf_page : Z;
  keep_history : bool
}.

(** [VBRChunk]: macro blocks, block headers and the packed weight bits,
    each as words. *)
Record VBRChunk : Type := mk_chunk {
  macro_blocks : list Z;
  block_headers : list Z;
  weight_bits : list Z
}.

(** Modelled from the spec: the serialized words of a chunk (the three
    counts, then the three arrays), which [write_leaf_chunk] stores and
    whose number [calculate_chunk_size] returns. *)
Definition chunk_words (c : VBRChunk) : list Z :=
  [Z.of_nat (length (macro_blocks c)); Z.of_nat (length (block_headers c));
   Z.of_nat (length (weight_bits c))]
  ++ macro_blocks c ++ block_headers c ++ weight_bits c.

Definition calculate_chunk_size (c : VBRChunk) : Z :=
  Z.of_nat (length (chunk_words c)).

Definition write_leaf_chunk (idx : Z) (c : VBRChunk) (v : SafePagedVector)
    : SafePagedVector :=
  mk_spv (m_page_size v) (m_total_pages v) (m_used_pages v)
    (λ a, if (idx <=? a) && (a <? idx + calculate_chunk_size c)
          then default 0 (chunk_words c !! Z.to_nat (a - idx))
          else m_data v a).

Record DAGColorPool : Type := mk_color_pool {
  m_config : ColorConfig;
  m_leaves : SafePagedVector
}.

Definition with_leaves (p : DAGColorPool) (v : SafePagedVector) : DAGColorPool :=
  mk_color_pool (m_config p) v.

(** [DAGColorPool::SetLeaf]: the returned pointer and the pool after. *)
Definition SetLeaf (p : DAGColorPool) (ptr : Pointer) (chunk : VBRChunk)
    : Pointer * DAGColorPool :=
  let data_size := calculate_chunk_size chunk in
  let append_size :=
    if Z.odd data_size then wrap64 (data_size + 1) else data_size in
  let reuse :=
    negb (keep_history (m_config p))
    && match GetTag ptr with kLeaf => true | _ => false end in
  let existing_size := Read (m_leaves p) (GetData ptr) in
  if reuse && (data_size <=? existing_size) then
    (* reuse the existing allocation *)
    (ptr, with_leaves p (write_leaf_chunk (GetData ptr + 1) chunk (m_leaves p)))
  else
    let append_size :=
      if reuse then Z.max (wrap64 (existing_size * 2)) append_size
      else append_size in
    match Append (m_leaves p) append_size (λ d, d) with
    | None => (ptr, p)   (* out of memory *)
    | Some (idx, leaves) =>
        (mk_pointer kLeaf (wrap32 idx),
         with_leaves p (write_leaf_chunk (idx + 1) chunk leaves))
    end.

(** *** Vocabulary for the statements about [SetLeaf] *)

(** The fast path is taken: no history is kept, the pointer is a leaf,
    and the chunk fits the capacity stored in the slot. *)
Definition reuses_slot (p : DAGColorPool) (ptr : Pointer) (chunk : VBRChunk) : bool :=
  negb (keep_history (m_config p))
  && match GetTag ptr with kLeaf => true | _ => false end
  && (calculate_chunk_size chunk <=? Read (m_leaves p) (GetData ptr)).

(** The number of words [SetLeaf] asks [Append] for on the slow path. *)
Definition SetLeaf_append_size (p : DAGColorPool) (ptr : Pointer)
    (chunk : VBRChunk) : Z :=
  let data_size := calculate_chunk_size chunk in
  let append_size := if Z.odd data_size then wrap64 (data_size + 1) else data_size in
  if negb (keep_history (m_config p))
     && match GetTag ptr with kLeaf => true | _ => false end
  then Z.max (wrap64 (Read (m_leaves p) (GetData ptr) * 2)) append_size
  else append_size.


(** The words handed out so far. *)
Definition used_words (v : SafePagedVector) : Z := m_used_pages v * m_page_size v.

(** ** Example instances *)

(** An 8x8x8 world: one inner level above one leaf level, one bucket of
    two 16-word pages per level. *)
Definition example_config : Config :=
  DefaultConfig_call (mk_default_config 3 1 4 1 0 0).

Definition example_hasher (ws : list Z) : Z := foldr Z.add 0 ws.

Definition example_root : NodeCoord := mk_coord 0 (mk_vec3 0 0 0).

Definition example_leaves : SafePagedVector := mk_spv 16 2 0 (λ _, 0).

Definition example_chunk : VBRChunk := mk_chunk [5] [6; 7] [].

(** ** Invariants *)

(** A valid configuration: non-negative bit counts, at least one node
    level, and every word address below the two sentinels. *)
Record cfg_ok (cfg : Config) : Prop := mk_cfg_ok {
  wbits_nonneg : 0 <= word_bits_per_page cfg;
  pbits_nonneg : 0 <= page_bits_per_bucket cfg;
  bbits_nonneg : Forall (λ b, 0 <= b) (bucket_bits_each_level cfg);
  words_fit : GetTotalWords cfg <= Filled
}.

(** The shape of the page table: one entry per page, every resident
    page of full size. *)
Record pages_ok (cfg : Config) (s : NodePool) : Prop := mk_pages_ok {
  pages_len : length (m_pages s) = Z.to_nat (GetTotalPages cfg);
  page_len : ∀ i pg, m_pages s !! i = Some (Some pg) →
                     length pg = Z.to_nat (GetWordsPerPage cfg)
}.

(** A well-formed node for level [lv]: its length is the node size its
    first word announces. *)
Definition wf_node (cfg : Config) (lv : nat) (ws : list Z) : Prop :=
  ∃ w rest, ws = w :: rest ∧ length ws = node_size cfg lv w.

(** The offsets at which consecutive nodes lie. *)
Fixpoint layout (off : Z) (ns : list (list Z)) : list (Z * list Z) :=
  match ns with
  | [] => []
  | n :: ns' => (off, n) :: layout (off + Z.of_nat (length n)) ns'
  end.

(** Bucket [b] belongs to level [lv]. *)
Definition bucket_level (cfg : Config) (b : Z) (lv : nat) : Prop :=
  (lv < GetNodeLevels cfg)%nat ∧ level_base cfg lv <= b < level_base cfg (S lv).

(** The pool invariant: the used prefix of every bucket is a sequence of
    well-formed nodes of the bucket's level, each in the bucket its hash
    selects, and no node occurs twice. *)
Record pool_ok (cfg : Config) (hasher : list Z → Z) (s : NodePool) : Prop :=
  mk_pool_ok {
  pool_pages : pages_ok cfg s;
  pool_buckets_len :
    length (m_bucket_words s) = Z.to_nat (GetTotalBuckets cfg);
  pool_bucket : ∀ lv b, bucket_level cfg b lv →
    ∃ ns, bucket_span cfg s b = concat ns
          ∧ Forall (wf_node cfg lv) ns
          ∧ NoDup ns
          ∧ Forall (λ n, calculate_bucket cfg hasher lv n = b) ns
          ∧ GetBucketWords s b = Z.of_nat (length (concat ns))
          ∧ GetBucketWords s b <= GetWordsPerBucket cfg
}.

(** Node words [ws] are stored at address [a] among the nodes of level
    [lv]. *)
Definition stored (cfg : Config) (hasher : list Z → Z) (s : NodePool)
    (lv : nat) (a : Z) (ws : list Z) : Prop :=
  (lv < GetNodeLevels cfg)%nat
  ∧ (a, ws) ∈ bucket_nodes cfg s lv (calculate_bucket cfg hasher lv ws).

(** The pool only grew: every stored node is still stored. *)
Definition pool_extends (cfg : Config) (hasher : list Z → Z) (s s' : NodePool) : Prop :=
  ∀ lv a ws, stored cfg hasher s lv a ws → stored cfg hasher s' lv a ws.

(** The state after appending [node] to bucket [b]. *)
Definition appended (cfg : Config) (s : NodePool) (b : Z) (node : list Z) : NodePool :=
  SetBucketWords
    (write_words cfg (length node) s
       (b * GetWordsPerBucket cfg + GetBucketWords s b) node)
    b (GetBucketWords s b + Z.of_nat (length node)).

(** Any sequence of upserts of well-formed nodes. *)
Inductive upsert_steps (cfg : Config) (hasher : list Z → Z)
    : NodePool → NodePool → Prop :=
  | upsert_steps_refl s : upsert_steps cfg hasher s s
  | upsert_steps_step s lv node p s' s'' :
      (lv < GetNodeLevels cfg)%nat →
      wf_node cfg lv node →
      upsert_node cfg hasher lv node s = Ok (p, s') →
      upsert_steps cfg hasher s' s'' →
      upsert_steps cfg hasher s s''.

(** A stored leaf: two 32-bit words, neither all zeros nor all ones. *)
Definition leaf_ok (ws : list Z) : Prop :=
  ∃ w0 w1, ws = [w0; w1] ∧ 0 <= w0 < 2 ^ 32 ∧ 0 <= w1 < 2 ^ 32
           ∧ ws ≠ [0; 0] ∧ ws ≠ [0xFFFFFFFF; 0xFFFFFFFF].

(** A pointer [p] at level [lv], [d] levels above the leaf level, is
    valid: it is a sentinel, or the address of a stored, normalized node
    whose children are valid in turn. *)
Fixpoint valid (cfg : Config) (hasher : list Z → Z) (d : nat) (s : NodePool)
    (lv : nat) (p : NodePointer) : Prop :=
  p = Null ∨ p = Filled
  ∨ ∃ ws, stored cfg hasher s lv p ws
          ∧ match d with
            | O => leaf_ok ws
            | S d' =>
                ∃ cs, length cs = 8%nat
                      ∧ ws = get_packed_node_inplace (0 :: cs)
                      ∧ ws ≠ [0]
                      ∧ ws ≠ 0xFF :: replicate 8 Filled
                      ∧ Forall (valid cfg hasher d' s (S lv)) cs
            end.

(** Voxel [v] lies in the cube of [coord], whose cells are [k] levels
    above the voxel level. *)
Definition in_cube (k : nat) (coord : NodeCoord) (v : u32vec3) : Prop :=
  vx v / 2 ^ Z.of_nat k = vx (pos coord)
  ∧ vy v / 2 ^ Z.of_nat k = vy (pos coord)
  ∧ vz v / 2 ^ Z.of_nat k = vz (pos coord).

(** An editor respects a relation [R v b b'] between the bit [b] of
    voxel [v] before the edit and its bit [b'] after it: every wholesale
    decision and every voxel edit stays within [R]. *)
Record editor_respects (cfg : Config) (editor : Editor)
    (R : u32vec3 → bool → bool → Prop) : Prop := mk_editor_respects {
  er_voxel : ∀ coord b,
    level coord = GetVoxelLevel cfg → R (pos coord) b (EditVoxel editor coord b);
  er_not_affected : ∀ coord p v b,
    EditNode editor coord p = kNotAffected →
    in_cube (GetVoxelLevel cfg - level coord) coord v → R v b b;
  er_clear : ∀ coord p v b,
    EditNode editor coord p = kClear →
    in_cube (GetVoxelLevel cfg - level coord) coord v → R v b false;
  er_fill : ∀ coord p v b,
    EditNode editor coord p = kFill →
    in_cube (GetVoxelLevel cfg - level coord) coord v → R v b true
}.

(** What the edit of one subtree guarantees: the pool invariant is
    kept, the pool only grew, the new pointer is valid, and every voxel
    of the subtree went from its old bit to its new bit within [R]. *)
Definition edit_post (cfg : Config) (hasher : list Z → Z)
    (R : u32vec3 → bool → bool → Prop) (d : nat) (coord : NodeCoord)
    (s : NodePool) (p : NodePointer) (s' : NodePool) (p' : NodePointer) : Prop :=
  pool_ok cfg hasher s'
  ∧ pool_extends cfg hasher s s'
  ∧ valid cfg hasher d s' (level coord) p'
  ∧ ∀ v, in_cube (d + 2) coord v →
         R v (voxel_at cfg d s p v) (voxel_at cfg d s' p' v).

(** The root of the world: level 0 at the origin. *)
Definition root_coord : NodeCoord := mk_coord 0 (mk_vec3 0 0 0).

(** Modelled from the spec: [VBREditorWrapper] presents a colour-threading
    editor to the geometry descent; [colors] is the colour it passes in at
    each node or voxel (the wrapper itself is not among the sources, so
    the colour is left arbitrary). *)
Definition vbr_as_editor (ve : VBREditor)
    (colors : NodeCoord → NodePointer → VBRColor)
    (voxel_colors : NodeCoord → VBRColor) : Editor :=
  mk_editor (λ coord ptr, (VBREditNode ve coord ptr (colors coord ptr)).1)
            (λ coord voxel, (VBREditVoxel ve coord voxel (voxel_colors coord)).1).

(** The worlds that edits can produce: the empty world, and any world
    obtained from one by a successful edit of the root with any editor. *)
Inductive edited_world (cfg : Config) (hasher : list Z → Z)
    : NodePool → NodePointer → Prop :=
  | edited_empty : edited_world cfg hasher (empty_pool cfg) Null
  | edited_step s root editor root' s' :
      edited_world cfg hasher s root →
      edit_node cfg hasher editor root root_coord s = Ok (root', s') →
      edited_world cfg hasher s' root'.

(** Pointer [q], [d'] levels above the leaf level, is reachable from
    pointer [p], [d] levels above the leaf level. *)
Inductive reachable (cfg : Config) (s : NodePool)
    : nat → NodePointer → nat → NodePointer → Prop :=
  | reachable_self d p : reachable cfg s d p d p
  | reachable_child d p (i : nat) c d' q :
      (i < 8)%nat →
      get_unpacked_node_array cfg s p !! S i = Some c →
      reachable cfg s d c d' q →
      reachable cfg s (S d) p d' q.

(** The node behind a real pointer has all children Null (resp. Filled);
    for a leaf: all 64 bits are 0 (resp. 1). *)
Definition all_children (cfg : Config) (s : NodePool) (d : nat)
    (q : NodePointer) (c : NodePointer) : Prop :=
  match d with
  | O => get_leaf_array cfg s q
         = if c =? Null then [0; 0] else [0xFFFFFFFF; 0xFFFFFFFF]
  | S _ => drop 1 (get_unpacked_node_array cfg s q) = replicate 8 c
  end.

(** The largest squared distance from the centre to a corner of the
    node's cube, as [SphereEditor::EditNode] computes it ([max_n2]); the
    subtree is fully covered when it is at most [r2]. *)
Definition SphereEditor_max_n2 (cfg : Config) (e : SphereEditor)
    (coord : NodeCoord) : Z :=
  let lb := GetLowerBoundAtLevel coord (GetVoxelLevel cfg) in
  let ub := GetUpperBoundAtLevel coord (GetVoxelLevel cfg) in
  wrap64 (Z.max (dist_2 (vx lb - vx (center e))) (dist_2 (vx ub - vx (center e)))
          + Z.max (dist_2 (vy lb - vy (center e))) (dist_2 (vy ub - vy (center e)))
          + Z.max (dist_2 (vz lb - vz (center e))) (dist_2 (vz ub - vz (center e)))).

(** The edit never sets a bit: a voxel occupied after it was occupied
    before it. *)
Definition only_clears (_ : u32vec3) (b b' : bool) : Prop := b' = true → b = true.

(** No constraint on the voxels. *)
Definition any_change (_ : u32vec3) (_ _ : bool) : Prop := True.

(** Example editors on the 8x8x8 world. *)
Definition example_aabb : AABBEditor :=
  mk_aabb (mk_vec3 3 0 0) (mk_vec3 5 1 1) 7.

Definition example_aabb2 : AABBEditor :=
  mk_aabb (mk_vec3 0 4 0) (mk_vec3 1 5 1) 7.

Definition example_sphere : SphereEditor :=
  mk_sphere (mk_vec3 3 0 0) 0 9.

(** Voxel [v] lies in the cube of side [2^(d+2)] at the origin (the
    cube of a node [d] levels above the leaf level, in its own
    coordinates). *)
Definition in_range (d : nat) (v : u32vec3) : Prop :=
  0 <= vx v < 2 ^ Z.of_nat (d + 2)
  ∧ 0 <= vy v < 2 ^ Z.of_nat (d + 2)
  ∧ 0 <= vz v < 2 ^ Z.of_nat (d + 2).

(** Two voxels agree on their [d + 2] low coordinate bits. *)
Definition same_low_bits (d : nat) (v v' : u32vec3) : Prop :=
  vx v mod 2 ^ Z.of_nat (d + 2) = vx v' mod 2 ^ Z.of_nat (d + 2)
  ∧ vy v mod 2 ^ Z.of_nat (d + 2) = vy v' mod 2 ^ Z.of_nat (d + 2)
  ∧ vz v mod 2 ^ Z.of_nat (d + 2) = vz v' mod 2 ^ Z.of_nat (d + 2).

(** The voxel of a leaf with index [i], and the voxel of octant [i]
    whose position inside the octant is [v]. *)
Definition leaf_voxel (i : nat) : u32vec3 :=
  let i := Z.of_nat i in
  mk_vec3 (i mod 4) ((i / 4) mod 4) ((i / 16) mod 4).

Definition octant_voxel (d : nat) (i : nat) (v : u32vec3) : u32vec3 :=
  let i := Z.of_nat i in
  let K := 2 ^ Z.of_nat (d + 2) in
  mk_vec3 (vx v + K * (i mod 2)) (vy v + K * ((i / 2) mod 2))
          (vz v + K * ((i / 4) mod 2)).

(** Voxel [v] lies in the world. *)
Definition in_world (cfg : Config) (v : u32vec3) : Prop :=
  in_range (GetLeafLevel cfg) v.

(** Voxel [v] lies in the box of the editor. *)
Definition in_box (cfg : Config) (e : AABBEditor) (v : u32vec3) : bool :=
  AABBEditor_VoxelInRange e (mk_coord (GetVoxelLevel cfg) v).

(** What an AABB fill does to the voxels of the world: it adds the box. *)
Definition aabb_fills (cfg : Config) (e : AABBEditor)
    (v : u32vec3) (b b' : bool) : Prop :=
  in_world cfg v → b' = b || in_box cfg e v.

(** Two boxes are disjoint: they are separated along some axis. *)
Definition aabb_disjoint (a b : AABBEditor) : bool :=
  any_lessThanEqual (aabb_max a) (aabb_min b)
  || any_lessThanEqual (aabb_max b) (aabb_min a).

(** Two edits of the root, one after the other. *)
Definition edit_twice (cfg : Config) (hasher : list Z → Z)
    (editor1 editor2 : Editor) (root : NodePointer) : M NodePointer :=
  do root1 <- edit_node cfg hasher editor1 root root_coord;
  edit_node cfg hasher editor2 root1 root_coord.

(** ** The colour octree and the fused colour edit *)













(** ** Vocabulary for the sphere edits *)

(** Voxel [v] lies in the sphere of the editor. *)
Definition in_sphere (cfg : Config) (e : SphereEditor) (v : u32vec3) : bool :=
  SphereEditor_VoxelInRange e (mk_coord (GetVoxelLevel cfg) v).

(** The centre lies within [2^31] along every axis, so that no squared
    distance to a corner of a cube of the world leaves 64 bits. *)
Definition center_fits (e : SphereEditor) : Prop :=
  0 <= vx (center e) <= 2 ^ 31
  ∧ 0 <= vy (center e) <= 2 ^ 31
  ∧ 0 <= vz (center e) <= 2 ^ 31.

(** What a sphere fill (resp. dig) does to the voxels of the world: it
    adds (resp. removes) the sphere. *)
Definition sphere_fills (cfg : Config) (e : SphereEditor)
    (v : u32vec3) (b b' : bool) : Prop :=
  in_world cfg v → b' = b || in_sphere cfg e v.

Definition sphere_digs (cfg : Config) (e : SphereEditor)
    (v : u32vec3) (b b' : bool) : Prop :=
  in_world cfg v → b' = b && negb (in_sphere cfg e v).

(** ** VoxImporter ([src/main.cpp]) *)

(** [VoxImporter::VoxelData]: four bytes. *)
Record VoxelData : Type := mk_voxel {
  vd_x : Z;
  vd_y : Z;
  vd_z : Z;
  color_index : Z
}.

Record VoxImporter : Type := mk_vox {
  vox_size : u32vec3;
  voxels : list VoxelData;
  palette : list Z;
  vox_offset : u32vec3
}.

(** [glm::u32vec3(voxel.x, voxel.y, voxel.z) + offset], in 32-bit
    arithmetic. *)
Definition vox_pos (imp : VoxImporter) (voxel : VoxelData) : u32vec3 :=
  mk_vec3 (wrap32 (vd_x voxel + vx (vox_offset imp)))
          (wrap32 (vd_y voxel + vy (vox_offset imp)))
          (wrap32 (vd_z voxel + vz (vox_offset imp))).

(** [operator==] on [glm::u32vec3]. *)
Definition vec_eqb (a b : u32vec3) : bool :=
  (vx a =? vx b) && (vy a =? vy b) && (vz a =? vz b).



Section vox_importer.
(** [VBRColor{RGB8Color{rgba}}]: the two constructors belong to the
    hashdag library, so the conversion is a parameter. *)
Variable VBRColor_of_rgba : Z → VBRColor.

(** The loop of [VoxImporter::EditVoxel].  [palette] has 256 entries
    and [color_index] is a byte, so the index is in range. *)
Fixpoint VoxImporter_EditVoxel_loop (imp : VoxImporter) (coord_pos : u32vec3)
    (voxel : bool) (color : VBRColor) (vs : list VoxelData) : bool * VBRColor :=
  match vs with
  | [] => (voxel, color)
  | v :: rest =>
      let vpos := vox_pos imp v in
      if vec_eqb coord_pos vpos then
        let rgba := default 0 (palette imp !! Z.to_nat (color_index v)) in
        (true, VBRColor_of_rgba rgba)
      else VoxImporter_EditVoxel_loop imp coord_pos voxel color rest
  end.

Definition VoxImporter_EditVoxel (imp : VoxImporter) (coord : NodeCoord)
    (voxel : bool) (color : VBRColor) : bool * VBRColor :=
  VoxImporter_EditVoxel_loop imp (pos coord) voxel color (voxels imp).


End vox_importer.

(** The model has a voxel at position [v]. *)
Definition vox_at (imp : VoxImporter) (v : u32vec3) : bool :=
  existsb (λ d, vec_eqb v (vox_pos imp d)) (voxels imp).


Definition example_vox : VoxImporter :=
  mk_vox (mk_vec3 2 2 2)
         [mk_voxel 0 0 0 1; mk_voxel 1 0 0 2; mk_voxel 0 0 0 3]
         (seqZ 100 256)
         (mk_vec3 4 4 4).

(** *** [VoxImporter::LoadFromFile] *)

(** A stream opened for reading: the bytes from the read position on,
    and the end-of-file indicator. *)
Record FileStream : Type := mk_file {
  f_rest : list Z;
  f_eof : bool
}.

(** [fread] asked for [n] bytes in all: it delivers the bytes that are
    left, at most [n], moves the position past them, and sets the
    end-of-file indicator when fewer than [n] were left. *)
Definition fread (n : nat) (f : FileStream) : list Z * FileStream :=
  (take n (f_rest f),
   mk_file (drop n (f_rest f)) (f_eof f || (length (f_rest f) <? n)%nat)).

(** [fseek(file, n, SEEK_CUR)]: the position moves [n] bytes on (it may
    pass the end) and the end-of-file indicator is cleared. *)
Definition fseek_cur (n : Z) (f : FileStream) : FileStream :=
  mk_file (drop (Z.to_nat n) (f_rest f)) false.

(** The bytes [fread] delivered land at the start of the buffer; the
    rest of the buffer keeps its bytes. *)
Definition overlay (bs buf : list Z) : list Z := bs ++ drop (length bs) buf.

(** A [uint32_t] in memory (little-endian). *)
Definition le32 (bs : list Z) : Z :=
  match bs with
  | [b0; b1; b2; b3] => b0 + 256 * b1 + 65536 * b2 + 16777216 * b3
  | _ => 0
  end.

Definition le32_bytes (x : Z) : list Z :=
  [x mod 256; (x / 256) mod 256; (x / 65536) mod 256; (x / 16777216) mod 256].

(** An array of [VoxelData] (four bytes each) and an array of
    [uint32_t] in memory. *)
Definition voxel_bytes (vs : list VoxelData) : list Z :=
  vs ≫= (λ d, [vd_x d; vd_y d; vd_z d; color_index d]).

Fixpoint voxels_of_bytes (bs : list Z) : list VoxelData :=
  match bs with
  | x :: y :: z :: c :: rest => mk_voxel x y z c :: voxels_of_bytes rest
  | _ => []
  end.

Definition words_bytes (ws : list Z) : list Z := ws ≫= le32_bytes.

Fixpoint words_of_bytes (bs : list Z) : list Z :=
  match bs with
  | b0 :: b1 :: b2 :: b3 :: rest => le32 [b0; b1; b2; b3] :: words_of_bytes rest
  | _ => []
  end.

(** [fread(&x, 4, 1, file)] into a [uint32_t] that holds [old]. *)
Definition fread_u32 (old : Z) (f : FileStream) : Z * FileStream :=
  let '(bs, f) := fread 4 f in (le32 (overlay bs (le32_bytes old)), f).

(** [voxels.resize(n)]: new elements are zero. *)
Definition resize_voxels (n : nat) (vs : list VoxelData) : list VoxelData :=
  take n vs ++ replicate (n - length vs) (mk_voxel 0 0 0 0).

Definition default_palette : list Z :=
  [0x00000000; 0xffffffff; 0xffccffff; 0xff99ffff; 0xff66ffff; 0xff33ffff;
   0xff00ffff; 0xffffccff; 0xffccccff; 0xff99ccff; 0xff66ccff; 0xff33ccff;
   0xff00ccff; 0xffff99ff; 0xffcc99ff; 0xff9999ff; 0xff6699ff; 0xff3399ff;
   0xff0099ff; 0xffff66ff; 0xffcc66ff; 0xff9966ff; 0xff6666ff; 0xff3366ff;
   0xff0066ff; 0xffff33ff; 0xffcc33ff; 0xff9933ff; 0xff6633ff; 0xff3333ff;
   0xff0033ff; 0xffff00ff; 0xffcc00ff; 0xff9900ff; 0xff6600ff; 0xff3300ff;
   0xff0000ff; 0xffffffcc; 0xffccffcc; 0xff99ffcc; 0xff66ffcc; 0xff33ffcc;
   0xff00ffcc; 0xffffcccc; 0xffcccccc; 0xff99cccc; 0xff66cccc; 0xff33cccc;
   0xff00cccc; 0xffff99cc; 0xffcc99cc; 0xff9999cc; 0xff6699cc; 0xff3399cc;
   0xff0099cc; 0xffff66cc; 0xffcc66cc; 0xff9966cc; 0xff6666cc; 0xff3366cc;
   0xff0066cc; 0xffff33cc; 0xffcc33cc; 0xff9933cc; 0xff6633cc; 0xff3333cc;
   0xff0033cc; 0xffff00cc; 0xffcc00cc; 0xff9900cc; 0xff6600cc; 0xff3300cc;
   0xff0000cc; 0xffffff99; 0xffccff99; 0xff99ff99; 0xff66ff99; 0xff33ff99;
   0xff00ff99; 0xffffcc99; 0xffcccc99; 0xff99cc99; 0xff66cc99; 0xff33cc99;
   0xff00cc99; 0xffff9999; 0xffcc9999; 0xff999999; 0xff669999; 0xff339999;
   0xff009999; 0xffff6699; 0xffcc6699; 0xff996699; 0xff666699; 0xff336699;
   0xff006699; 0xffff3399; 0xffcc3399; 0xff993399; 0xff663399; 0xff333399;
   0xff003399; 0xffff0099; 0xffcc0099; 0xff990099; 0xff660099; 0xff330099;
   0xff000099; 0xffffff66; 0xffccff66; 0xff99ff66; 0xff66ff66; 0xff33ff66;
   0xff00ff66; 0xffffcc66; 0xffcccc66; 0xff99cc66; 0xff66cc66; 0xff33cc66;
   0xff00cc66; 0xffff9966; 0xffcc9966; 0xff999966; 0xff669966; 0xff339966;
   0xff009966; 0xffff6666; 0xffcc6666; 0xff996666; 0xff666666; 0xff336666;
   0xff006666; 0xffff3366; 0xffcc3366; 0xff993366; 0xff663366; 0xff333366;
   0xff003366; 0xffff0066; 0xffcc0066; 0xff990066; 0xff660066; 0xff330066;
   0xff000066; 0xffffff33; 0xffccff33; 0xff99ff33; 0xff66ff33; 0xff33ff33;
   0xff00ff33; 0xffffcc33; 0xffcccc33; 0xff99cc33; 0xff66cc33; 0xff33cc33;
   0xff00cc33; 0xffff9933; 0xffcc9933; 0xff999933; 0xff669933; 0xff339933;
   0xff009933; 0xffff6633; 0xffcc6633; 0xff996633; 0xff666633; 0xff336633;
   0xff006633; 0xffff3333; 0xffcc3333; 0xff993333; 0xff663333; 0xff333333;
   0xff003333; 0xffff0033; 0xffcc0033; 0xff990033; 0xff660033; 0xff330033;
   0xff000033; 0xffffff00; 0xffccff00; 0xff99ff00; 0xff66ff00; 0xff33ff00;
   0xff00ff00; 0xffffcc00; 0xffcccc00; 0xff99cc00; 0xff66cc00; 0xff33cc00;
   0xff00cc00; 0xffff9900; 0xffcc9900; 0xff999900; 0xff669900; 0xff339900;
   0xff009900; 0xffff6600; 0xffcc6600; 0xff996600; 0xff666600; 0xff336600;
   0xff006600; 0xffff3300; 0xffcc3300; 0xff993300; 0xff663300; 0xff333300;
   0xff003300; 0xffff0000; 0xffcc0000; 0xff990000; 0xff660000; 0xff330000;
   0xff0000ee; 0xff0000dd; 0xff0000bb; 0xff0000aa; 0xff000088; 0xff000077;
   0xff000055; 0xff000044; 0xff000022; 0xff000011; 0xff00ee00; 0xff00dd00;
   0xff00bb00; 0xff00aa00; 0xff008800; 0xff007700; 0xff005500; 0xff004400;
   0xff002200; 0xff001100; 0xffee0000; 0xffdd0000; 0xffbb0000; 0xffaa0000;
   0xff880000; 0xff770000; 0xff550000; 0xff440000; 0xff220000; 0xff110000;
   0xffeeeeee; 0xffdddddd; 0xffbbbbbb; 0xffaaaaaa; 0xff888888; 0xff777777;
   0xff555555; 0xff444444; 0xff222222; 0xff111111].

Definition InitDefaultPalette (imp : VoxImporter) : VoxImporter :=
  mk_vox (vox_size imp) (voxels imp) default_palette (vox_offset imp).

(** The four-character tags, as bytes. *)
Definition tag_VOX : list Z := [86; 79; 88; 32].
Definition tag_SIZE : list Z := [83; 73; 90; 69].
Definition tag_XYZI : list Z := [88; 89; 90; 73].
Definition tag_RGBA : list Z := [82; 71; 66; 65].

(** What [LoadFromFile] leaves behind: its return value and the
    importer; or nothing determined, when the voxel count was used
    without having been read ([num_voxels] is an uninitialised local). *)
Inductive LoadResult : Type :=
  | Loaded (ok : bool) (imp : VoxImporter)
  | Indeterminate.

(** [fclose(file); return !voxels.empty();] *)
Definition LoadFromFile_end (imp : VoxImporter) : LoadResult :=
  Loaded (negb (bool_decide (voxels imp = []))) imp.

(** The chunk loop; [None] when [fuel] iterations did not reach its
    end. *)
Fixpoint LoadFromFile_loop (fuel : nat) (imp : VoxImporter) (f : FileStream)
    : option LoadResult :=
  if f_eof f then Some (LoadFromFile_end imp)
  else
    match fuel with
    | O => None
    | S fuel' =>
        let '(chunk_id, f) := fread 4 f in
        if negb (length chunk_id =? 4)%nat then Some (LoadFromFile_end imp)
        else
        let '(chunk_size, f) := fread 4 f in
        if negb (length chunk_size =? 4)%nat then Some (LoadFromFile_end imp)
        else
        let '(child_size, f) := fread 4 f in
        if negb (length child_size =? 4)%nat then Some (LoadFromFile_end imp)
        else if bool_decide (chunk_id = tag_SIZE) then
          let '(x, f) := fread_u32 (vx (vox_size imp)) f in
          let '(y, f) := fread_u32 (vy (vox_size imp)) f in
          let '(z, f) := fread_u32 (vz (vox_size imp)) f in
          LoadFromFile_loop fuel'
            (mk_vox (mk_vec3 x y z) (voxels imp) (palette imp) (vox_offset imp)) f
        else if bool_decide (chunk_id = tag_XYZI) then
          let '(count, f) := fread 4 f in
          if negb (length count =? 4)%nat then Some Indeterminate
          else
            let num_voxels := Z.to_nat (le32 count) in
            let resized := resize_voxels num_voxels (voxels imp) in
            let '(bs, f) := fread (4 * num_voxels) f in
            LoadFromFile_loop fuel'
              (mk_vox (vox_size imp)
                 (voxels_of_bytes (overlay bs (voxel_bytes resized)))
                 (palette imp) (vox_offset imp)) f
        else if bool_decide (chunk_id = tag_RGBA) then
          let '(bs, f) := fread (4 * 256) f in
          LoadFromFile_loop fuel'
            (mk_vox (vox_size imp) (voxels imp)
               (words_of_bytes (overlay bs (words_bytes (palette imp))))
               (vox_offset imp)) f
        else
          LoadFromFile_loop fuel' imp (fseek_cur (le32 chunk_size) f)
    end.

(** [LoadFromFile]; [file] is the content of the file, or [None] when
    it cannot be opened. *)
Definition LoadFromFile (file : option (list Z)) (imp : VoxImporter)
    : option LoadResult :=
  match file with
  | None => Some (Loaded false imp)
  | Some bytes =>
      let '(magic, f) := fread 4 (mk_file bytes false) in
      if negb (length magic =? 4)%nat || negb (bool_decide (magic = tag_VOX))
      then Some (Loaded false imp)
      else
        let '(version, f) := fread 4 f in
        if negb (length version =? 4)%nat then Some (Loaded false imp)
        else LoadFromFile_loop (S (length bytes)) (InitDefaultPalette imp) f
  end.

(** A chunk of a VOX file: the three kinds the importer reads, and any
    other chunk, which it skips by its content size. *)
Inductive VoxChunk : Type :=
  | ChSize (size : u32vec3)
  | ChXYZI (vs : list VoxelData)
  | ChRGBA (pal : list Z)
  | ChOther (id : list Z) (child_size : Z) (content : list Z).

(** The bytes of a chunk: tag, content size, children size, content. *)
Definition chunk_bytes (c : VoxChunk) : list Z :=
  match c with
  | ChSize size =>
      tag_SIZE ++ le32_bytes 12 ++ le32_bytes 0
      ++ le32_bytes (vx size) ++ le32_bytes (vy size) ++ le32_bytes (vz size)
  | ChXYZI vs =>
      tag_XYZI ++ le32_bytes (4 + 4 * Z.of_nat (length vs)) ++ le32_bytes 0
      ++ le32_bytes (Z.of_nat (length vs)) ++ voxel_bytes vs
  | ChRGBA pal =>
      tag_RGBA ++ le32_bytes 1024 ++ le32_bytes 0 ++ words_bytes pal
  | ChOther id child_size content =>
      id ++ le32_bytes (Z.of_nat (length content)) ++ le32_bytes child_size
      ++ content
  end.

Definition vox_file (version : Z) (chunks : list VoxChunk) : list Z :=
  tag_VOX ++ le32_bytes version ++ (chunks ≫= chunk_bytes).

(** The chunk can be written: its numbers fit 32 bits, a palette has
    256 entries, and the tag of a skipped chunk is none of the three. *)
Definition word_ok (x : Z) : Prop := 0 <= x < 2 ^ 32.

Definition chunk_ok (c : VoxChunk) : Prop :=
  match c with
  | ChSize size => word_ok (vx size) ∧ word_ok (vy size) ∧ word_ok (vz size)
  | ChXYZI vs => word_ok (Z.of_nat (length vs))
  | ChRGBA pal => length pal = 256%nat ∧ Forall word_ok pal
  | ChOther id child_size content =>
      length id = 4%nat ∧ id ≠ tag_SIZE ∧ id ≠ tag_XYZI ∧ id ≠ tag_RGBA
      ∧ word_ok (Z.of_nat (length content))
  end.

(** What reading the chunk does to the importer. *)
Definition apply_chunk (imp : VoxImporter) (c : VoxChunk) : VoxImporter :=
  match c with
  | ChSize size => mk_vox size (voxels imp) (palette imp) (vox_offset imp)
  | ChXYZI vs => mk_vox (vox_size imp) vs (palette imp) (vox_offset imp)
  | ChRGBA pal => mk_vox (vox_size imp) (voxels imp) pal (vox_offset imp)
  | ChOther _ _ _ => imp
  end.

(** ** [PagedVector::ForeachPage] *)

(** The page geometry of a [PagedVector]: [m_page_bits], [m_page_mask]
    and [m_page_size] (32-bit members). *)
Record PagedVector : Type := mk_paged_vector {
  pv_page_bits : Z;
  pv_page_mask : Z;
  pv_page_size : Z
}.

(** One call of the callback: [func(current_idx, page_id, page_offset,
    inpage_count)]. *)
Record PageCall : Type := mk_page_call {
  call_idx : Z;
  call_page_id : Z;
  call_page_offset : Z;
  call_inpage_count : Z
}.

(** The loop of [ForeachPage], as the list of the calls it makes, from
    [current_idx] on; [None] when [fuel] iterations did not reach the
    end.  Indices are [size_t] (64 bits), page id, offset and count are
    [uint32_t]. *)
Fixpoint ForeachPage_loop (fuel : nat) (pv : PagedVector)
    (start_idx count current_idx : Z) : option (list PageCall) :=
  if current_idx <? wrap64 (start_idx + count) then
    match fuel with
    | O => None
    | S fuel' =>
        let page_id := wrap32 (Z.shiftr current_idx (pv_page_bits pv)) in
        let page_offset := wrap32 (Z.land current_idx (pv_page_mask pv)) in
        let inpage_count :=
          Z.min (wrap32 (pv_page_size pv - page_offset))
                (wrap32 (wrap64 (start_idx + count - current_idx))) in
        match ForeachPage_loop fuel' pv start_idx count
                (wrap64 (current_idx + inpage_count)) with
        | Some calls =>
            Some (mk_page_call current_idx page_id page_offset inpage_count
                  :: calls)
        | None => None
        end
    end
  else Some [].

Definition ForeachPage (fuel : nat) (pv : PagedVector) (start_idx count : Z)
    : option (list PageCall) :=
  ForeachPage_loop fuel pv start_idx count start_idx.

(** A well-formed page geometry: the page size is a power of two that
    fits 32 bits, and the mask selects the offset in the page. *)
Definition page_geometry_ok (pv : PagedVector) : Prop :=
  0 <= pv_page_bits pv < 32
  ∧ pv_page_size pv = 2 ^ pv_page_bits pv
  ∧ pv_page_mask pv = pv_page_size pv - 1.

(** The calls cut the index range [[from, to)] into consecutive
    non-empty pieces. *)
Fixpoint calls_cover (calls : list PageCall) (from to : Z) : Prop :=
  match calls with
  | [] => from = to
  | c :: rest =>
      call_idx c = from ∧ 0 < call_inpage_count c
      ∧ calls_cover rest (from + call_inpage_count c) to
  end.

(** A call addresses one page: the offset is the index within the page,
    the piece ends within the page, and the page id is the index of the
    page. *)
Definition call_in_page (pv : PagedVector) (c : PageCall) : Prop :=
  call_page_offset c = call_idx c mod pv_page_size pv
  ∧ call_page_offset c + call_inpage_count c <= pv_page_size pv
  ∧ call_page_id c = wrap32 (call_idx c / pv_page_size pv).

(* ===================================================================== *)
(** * Part II: properties *)
(* ===================================================================== *)

(** ** The paged store: [ReadPage] *)

Lemma ReadPage_resident (s : NodePool) (page_id : Z) (ws : list Z) :
  m_pages s !! Z.to_nat page_id = Some (Some ws) → ReadPage s page_id = Some ws.
Proof. intros H. unfold ReadPage. by rewrite H. Qed.

Lemma ReadPage_absent (s : NodePool) (page_id : Z) :
  m_pages s !! Z.to_nat page_id = Some None → ReadPage s page_id = None.
Proof. intros H. unfold ReadPage. by rewrite H. Qed.

Lemma ReadPage_WritePage_same cfg (s : NodePool) (page_id offset : Z) (data : list Z) :
  (Z.to_nat page_id < length (m_pages s))%nat →
  ReadPage (WritePage cfg s page_id offset data) page_id
  = Some (list_inserts (Z.to_nat offset) data
            (default (replicate (Z.to_nat (GetWordsPerPage cfg)) 0) (ReadPage s page_id))).
Proof.
  intros Hlt. unfold WritePage, ReadPage at 1. simpl.
  rewrite list_lookup_insert_eq by done.
  by destruct (ReadPage s page_id).
Qed.

Lemma ReadPage_WritePage_other cfg (s : NodePool) (page_id page_id' offset : Z)
    (data : list Z) :
  Z.to_nat page_id ≠ Z.to_nat page_id' →
  ReadPage (WritePage cfg s page_id offset data) page_id' = ReadPage s page_id'.
Proof.
  intros Hne. unfold WritePage, ReadPage at 1. simpl.
  by rewrite list_lookup_insert_ne.
Qed.

(** C5, as stated, fails: on a page that has never been written
    [ReadPage] returns the null buffer, not a page of zeros. *)
Lemma C5_read_page_never_written_is_null :
  m_pages (empty_pool example_config) !! 0%nat = Some None
  ∧ ReadPage (empty_pool example_config) 0
    ≠ Some (replicate (Z.to_nat (GetWordsPerPage example_config)) 0).
Proof. split; [reflexivity | vm_compute; discriminate]. Qed.

(** C5 (amended): [ReadPage] returns the words of a resident page, and
    the null buffer (no words at all) for a page that has never been
    written; it never changes the store, and once a page has been written
    it is resident and reads back the written span. *)
Theorem C5_read_page (cfg : Config) (s : NodePool) (page_id : Z) :
  (∀ ws, m_pages s !! Z.to_nat page_id = Some (Some ws) →
         ReadPage s page_id = Some ws)
  ∧ (m_pages s !! Z.to_nat page_id = Some None → ReadPage s page_id = None)
  ∧ (∀ offset data,
       (Z.to_nat page_id < length (m_pages s))%nat →
       ∃ page,
         ReadPage (WritePage cfg s page_id offset data) page_id = Some page
         ∧ ∀ i w, data !! i = Some w →
                  (Z.to_nat offset + i < length page)%nat →
                  page !! (Z.to_nat offset + i)%nat = Some w).
Proof.
  split; [|split].
  - intros ws. apply ReadPage_resident.
  - apply ReadPage_absent.
  - intros offset data Hlt. eexists. split.
    + by apply ReadPage_WritePage_same.
    + intros i w Hi Hlen. rewrite length_inserts in Hlen.
      rewrite list_lookup_inserts.
      * by replace (Z.to_nat offset + i - Z.to_nat offset)%nat with i by lia.
      * apply lookup_lt_Some in Hi. lia.
      * done.
Qed.

Lemma C5_read_page_witness :
  ReadPage (empty_pool example_config) 0 = None
  ∧ ∃ page,
      ReadPage (WritePage example_config (empty_pool example_config) 0 2 [7; 8]) 0
      = Some page
      ∧ page !! 3%nat = Some 8.
Proof.
  destruct (C5_read_page example_config (empty_pool example_config) 0)
    as (_ & Habs & Hwr).
  split.
  - apply Habs. reflexivity.
  - destruct (Hwr 2 [7; 8]) as (page & Hpage & Hdata).
    + vm_compute. lia.
    + exists page. split; [exact Hpage|].
      apply (Hdata 1%nat 8); [reflexivity|].
      vm_compute in Hpage. injection Hpage as <-. vm_compute. lia.
Defined.

(** ** The colour pool: [Append] and [SetLeaf] *)


Lemma Append_Some (v : SafePagedVector) (count : Z) init idx v' :
  Append v count init = Some (idx, v') →
  idx = used_words v
  ∧ m_used_pages v' = m_used_pages v + required_pages v count
  ∧ m_used_pages v' <= m_total_pages v
  ∧ m_page_size v' = m_page_size v
  ∧ m_total_pages v' = m_total_pages v
  ∧ m_data v' = init (m_data v).
Proof.
  unfold Append, allocate_pages, used_words.
  destruct (Z.geb_spec (m_used_pages v) (m_total_pages v)); [done|].
  destruct (Z.gtb_spec (m_used_pages v + required_pages v count) (m_total_pages v));
    [done|].
  intros [= <- <-]. simpl. repeat split; lia.
Qed.

Lemma SetLeaf_reuse (p : DAGColorPool) (ptr : Pointer) (chunk : VBRChunk) :
  reuses_slot p ptr chunk = true →
  SetLeaf p ptr chunk
  = (ptr, with_leaves p (write_leaf_chunk (GetData ptr + 1) chunk (m_leaves p))).
Proof.
  unfold reuses_slot, SetLeaf. intros H. by rewrite H.
Qed.

Lemma SetLeaf_append (p : DAGColorPool) (ptr : Pointer) (chunk : VBRChunk) :
  reuses_slot p ptr chunk = false →
  SetLeaf p ptr chunk
  = match Append (m_leaves p) (SetLeaf_append_size p ptr chunk) (λ d, d) with
    | None => (ptr, p)
    | Some (idx, leaves) =>
        (mk_pointer kLeaf (wrap32 idx),
         with_leaves p (write_leaf_chunk (idx + 1) chunk leaves))
    end.
Proof.
  unfold reuses_slot, SetLeaf, SetLeaf_append_size. intros H. rewrite H.
  done.
Qed.

(** C6, as stated, fails: outside the fast path a fresh slot is not
    always allocated.  With every page handed out, [SetLeaf] allocates
    nothing and returns its input. *)
Lemma C6_no_fresh_slot_when_exhausted :
  let p := mk_color_pool (mk_color_config 0 4 4 true) (mk_spv 16 2 2 (λ _, 0)) in
  let ptr := mk_pointer kNull 0 in
  reuses_slot p ptr example_chunk = false
  ∧ (SetLeaf p ptr example_chunk).1 = ptr
  ∧ m_used_pages (m_leaves (SetLeaf p ptr example_chunk).2) = m_used_pages (m_leaves p).
Proof. repeat split. Qed.

(** C6 (amended): on the fast path ([keep_history] false, a Leaf pointer,
    the chunk fits the stored capacity) [SetLeaf] writes the chunk into the
    same slot and returns its input pointer.  In every other case no word
    handed out before is changed; when [Append] succeeds the chunk goes
    into a fresh slot that starts at the first word never handed out
    before, and when it fails the pool and the pointer stay as they
    were. *)
Theorem C6_set_leaf (p : DAGColorPool) (ptr : Pointer) (chunk : VBRChunk) :
  (keep_history (m_config p) = false →
   GetTag ptr = kLeaf →
   calculate_chunk_size chunk <= Read (m_leaves p) (GetData ptr) →
   SetLeaf p ptr chunk
   = (ptr, with_leaves p (write_leaf_chunk (GetData ptr + 1) chunk (m_leaves p))))
  ∧ (reuses_slot p ptr chunk = false →
     (∀ a, a <= used_words (m_leaves p) →
           m_data (m_leaves (SetLeaf p ptr chunk).2) a = m_data (m_leaves p) a)
     ∧ (∀ idx leaves,
          Append (m_leaves p) (SetLeaf_append_size p ptr chunk) (λ d, d)
          = Some (idx, leaves) →
          idx = used_words (m_leaves p)
          ∧ (SetLeaf p ptr chunk).1 = mk_pointer kLeaf (wrap32 idx)
          ∧ (SetLeaf p ptr chunk).2
            = with_leaves p (write_leaf_chunk (idx + 1) chunk leaves)
          ∧ m_used_pages (m_leaves (SetLeaf p ptr chunk).2)
            = m_used_pages (m_leaves p)
              + required_pages (m_leaves p) (SetLeaf_append_size p ptr chunk))
     ∧ (Append (m_leaves p) (SetLeaf_append_size p ptr chunk) (λ d, d) = None →
        SetLeaf p ptr chunk = (ptr, p))).
Proof.
  split.
  - intros Hk Ht Hfit. apply SetLeaf_reuse. unfold reuses_slot.
    rewrite Hk, Ht. simpl. by apply Z.leb_le.
  - intros Hno. rewrite (SetLeaf_append _ _ _ Hno).
    destruct (Append _ _ _) as [[idx leaves]|] eqn:Happ.
    + apply Append_Some in Happ as (Hidx & Hused & _ & _ & _ & Hdata).
      split; [|split].
      * intros a Ha. simpl.
        destruct (Z.leb_spec (idx + 1) a); [lia|]. simpl. by rewrite Hdata.
      * intros idx' leaves' [= <- <-]. simpl. done.
      * done.
    + split; [done|split; [done|done]].
Qed.

Lemma C6_set_leaf_witness :
  let p := mk_color_pool (mk_color_config 0 4 4 false)
             (mk_spv 16 2 1 (λ a, if a =? 0 then 8 else 0)) in
  SetLeaf p (mk_pointer kLeaf 0) example_chunk
  = (mk_pointer kLeaf 0,
     with_leaves p (write_leaf_chunk 1 example_chunk (m_leaves p))).
Proof.
  intros p.
  apply (proj1 (C6_set_leaf p (mk_pointer kLeaf 0) example_chunk));
    [reflexivity | reflexivity | vm_compute; discriminate].
Defined.


(** ** The memory layer: words read back what was written *)

Lemma GetWordsPerPage_pos cfg : cfg_ok cfg → 0 < GetWordsPerPage cfg.
Proof. intros []. unfold GetWordsPerPage. by apply Z.pow_pos_nonneg. Qed.

Lemma GetPagesPerBucket_pos cfg : cfg_ok cfg → 0 < GetPagesPerBucket cfg.
Proof. intros []. unfold GetPagesPerBucket. by apply Z.pow_pos_nonneg. Qed.

Lemma GetWordsPerBucket_eq cfg :
  cfg_ok cfg → GetWordsPerBucket cfg = GetPagesPerBucket cfg * GetWordsPerPage cfg.
Proof.
  intros []. unfold GetWordsPerBucket, GetPagesPerBucket, GetWordsPerPage.
  rewrite Z.pow_add_r by done. lia.
Qed.

Lemma GetWordsPerBucket_pos cfg : cfg_ok cfg → 0 < GetWordsPerBucket cfg.
Proof.
  intros H. rewrite GetWordsPerBucket_eq by done.
  pose proof (GetWordsPerPage_pos _ H). pose proof (GetPagesPerBucket_pos _ H). lia.
Qed.

Lemma GetTotalWords_eq cfg :
  cfg_ok cfg → GetTotalWords cfg = GetTotalPages cfg * GetWordsPerPage cfg.
Proof.
  intros H. unfold GetTotalWords, GetTotalPages.
  rewrite GetWordsPerBucket_eq by done. lia.
Qed.

Lemma pages_ok_WritePage cfg s page_id offset data :
  pages_ok cfg s → pages_ok cfg (WritePage cfg s page_id offset data).
Proof.
  intros [Hlen Hpg]. split; simpl.
  - by rewrite length_insert.
  - intros i pg Hi.
    destruct (decide (i = Z.to_nat page_id)) as [->|Hne].
    + apply lookup_lt_Some in Hi as Hlt. rewrite length_insert in Hlt.
      rewrite list_lookup_insert_eq in Hi by done.
      injection Hi as <-. rewrite length_inserts.
      unfold ReadPage. destruct (m_pages s !! Z.to_nat page_id) as [[pg|]|] eqn:E.
      * by eapply Hpg.
      * by rewrite length_replicate.
      * by rewrite length_replicate.
    + rewrite list_lookup_insert_ne in Hi by done. by eapply Hpg.
Qed.

Lemma read_word_WritePage cfg s page_id offset data a :
  cfg_ok cfg → pages_ok cfg s →
  0 <= page_id < GetTotalPages cfg →
  0 <= offset → offset + Z.of_nat (length data) <= GetWordsPerPage cfg →
  0 <= a →
  read_word cfg (WritePage cfg s page_id offset data) a
  = if decide (a / GetWordsPerPage cfg = page_id
               ∧ offset <= a mod GetWordsPerPage cfg < offset + Z.of_nat (length data))
    then default 0 (data !! Z.to_nat (a mod GetWordsPerPage cfg - offset))
    else read_word cfg s a.
Proof.
  intros Hcfg [Hlen Hpg] Hpid Hoff Hfit Ha.
  pose proof (GetWordsPerPage_pos _ Hcfg) as HW.
  pose proof (Z.mod_pos_bound a _ HW) as Hmod.
  assert (0 <= a / GetWordsPerPage cfg) as Hdiv by (apply Z.div_pos; lia).
  unfold read_word.
  destruct (decide (a / GetWordsPerPage cfg = page_id)) as [Heq|Hne].
  - rewrite Heq. rewrite ReadPage_WritePage_same by (rewrite Hlen; lia).
    assert (length (default (replicate (Z.to_nat (GetWordsPerPage cfg)) 0)
                            (ReadPage s page_id))
            = Z.to_nat (GetWordsPerPage cfg)) as Hplen.
    { unfold ReadPage. destruct (m_pages s !! Z.to_nat page_id) as [[pg|]|] eqn:E;
        simpl; [by eapply Hpg | by rewrite length_replicate..]. }
    case_decide as Hin.
    + destruct Hin as [_ Hin].
      rewrite list_lookup_inserts by lia.
      f_equal. f_equal. lia.
    + assert (a mod GetWordsPerPage cfg < offset
              ∨ offset + Z.of_nat (length data) <= a mod GetWordsPerPage cfg)
        as [Hlt|Hge] by lia.
      * rewrite list_lookup_inserts_lt by lia.
        unfold ReadPage. by destruct (m_pages s !! Z.to_nat page_id) as [[pg|]|] eqn:E;
          simpl; [| rewrite lookup_replicate_2 by lia..].
      * rewrite list_lookup_inserts_ge by lia.
        unfold ReadPage. by destruct (m_pages s !! Z.to_nat page_id) as [[pg|]|] eqn:E;
          simpl; [| rewrite lookup_replicate_2 by lia..].
  - rewrite ReadPage_WritePage_other by lia.
    case_decide as Hin; [by destruct Hin|done].
Qed.

Lemma write_words_bucket_words cfg fuel s addr ws :
  m_bucket_words (write_words cfg fuel s addr ws) = m_bucket_words s.
Proof.
  revert s addr ws. induction fuel as [|fuel IH]; intros s addr ws; [done|].
  destruct ws as [|w ws]; [done|]. cbn [write_words]. by rewrite IH.
Qed.

Lemma pages_ok_write_words cfg fuel s addr ws :
  pages_ok cfg s → pages_ok cfg (write_words cfg fuel s addr ws).
Proof.
  revert s addr ws. induction fuel as [|fuel IH]; intros s addr ws H; [done|].
  destruct ws as [|w ws]; [done|]. cbn [write_words].
  apply IH. by apply pages_ok_WritePage.
Qed.

Lemma read_word_write_words cfg fuel s addr ws a :
  cfg_ok cfg → pages_ok cfg s →
  0 <= addr → addr + Z.of_nat (length ws) <= GetTotalWords cfg →
  (length ws <= fuel)%nat → 0 <= a →
  read_word cfg (write_words cfg fuel s addr ws) a
  = if decide (addr <= a < addr + Z.of_nat (length ws))
    then default 0 (ws !! Z.to_nat (a - addr))
    else read_word cfg s a.
Proof.
  intros Hcfg. pose proof (GetWordsPerPage_pos _ Hcfg) as HW.
  rewrite GetTotalWords_eq by done.
  revert s addr ws. induction fuel as [|fuel IH]; intros s addr ws Hs Haddr Hend Hfuel Ha.
  { destruct ws; simpl in *; [|lia]. case_decide; [lia|done]. }
  destruct ws as [|w ws].
  { simpl. case_decide; [simpl in *; lia|done]. }
  cbn [write_words].
  set (W := GetWordsPerPage cfg) in *.
  set (l := w :: ws) in *.
  assert (1 <= Z.of_nat (length l)) as Hl1 by (subst l; simpl; lia).
  pose proof (Z.mod_pos_bound addr W HW) as Hmod.
  set (k := Z.to_nat (Z.min (W - addr mod W) (Z.of_nat (length l)))).
  assert (1 <= k <= length l)%nat as Hk by lia.
  assert (Z.of_nat k <= W - addr mod W) as HkW by lia.
  pose proof (Z.div_mod addr W ltac:(lia)) as Hdm.
  assert (0 <= addr / W) as Hdiv by (apply Z.div_pos; lia).
  assert (addr / W < GetTotalPages cfg) as Hpg.
  { apply Z.div_lt_upper_bound; [lia|]. lia. }
  rewrite IH.
  - rewrite length_drop.
    rewrite read_word_WritePage; try done; try lia.
    2:{ rewrite length_take. lia. }
    fold W. rewrite length_take.
    replace (k `min` length l)%nat with k by lia.
    destruct (decide (addr + Z.of_nat k <= a < addr + Z.of_nat k + Z.of_nat (length l - k)))
      as [Hin2|Hout2].
    + rewrite decide_True by lia.
      rewrite lookup_drop. f_equal. f_equal. lia.
    + case_decide as Hin1.
      * destruct Hin1 as [Hpage Hoff].
        rewrite decide_True.
        2:{ pose proof (Z.div_mod a W ltac:(lia)). lia. }
        rewrite lookup_take_lt.
        2:{ pose proof (Z.div_mod a W ltac:(lia)). lia. }
        f_equal. f_equal. pose proof (Z.div_mod a W ltac:(lia)). lia.
      * case_decide as Hin; [|done].
        exfalso. apply Hin1.
        assert (addr <= a < addr + Z.of_nat k) as Hr by lia.
        assert (a / W = addr / W) as Hq.
        { symmetry. apply (Z.div_unique a W (addr / W) (a - W * (addr / W))); lia. }
        split; [done|].
        pose proof (Z.div_mod a W ltac:(lia)). rewrite Hq in *. lia.
  - by apply pages_ok_WritePage.
  - lia.
  - rewrite length_drop. lia.
  - rewrite length_drop. lia.
  - done.
Qed.
(** ** Buckets and levels *)

Lemma level_base_S cfg lv :
  (lv < GetNodeLevels cfg)%nat →
  level_base cfg (S lv) = level_base cfg lv + GetBucketsAtLevel cfg lv.
Proof.
  unfold GetNodeLevels, level_base, GetBucketsAtLevel. intros Hlt.
  destruct (lookup_lt_is_Some_2 _ _ Hlt) as [b Hb].
  rewrite (take_S_r _ _ _ Hb), Hb. simpl.
  rewrite map_app, foldr_app. simpl.
  generalize (map (λ b0 : Z, 2 ^ b0) (take lv (bucket_bits_each_level cfg))).
  intros l. induction l as [|x l IH]; simpl; lia.
Qed.

Lemma GetBucketsAtLevel_pos cfg lv : cfg_ok cfg → 0 < GetBucketsAtLevel cfg lv.
Proof.
  intros []. unfold GetBucketsAtLevel. apply Z.pow_pos_nonneg; [lia|].
  destruct (bucket_bits_each_level cfg !! lv) as [b|] eqn:E; simpl; [|lia].
  eapply Forall_lookup_1 in E; [|done]. done.
Qed.

Lemma level_base_mono cfg lv lv' :
  cfg_ok cfg → (lv <= lv')%nat → (lv' <= GetNodeLevels cfg)%nat →
  level_base cfg lv <= level_base cfg lv'.
Proof.
  intros Hcfg Hle. induction Hle as [|lv' Hle IH]; [lia|]. intros Hlt.
  rewrite level_base_S by lia.
  pose proof (GetBucketsAtLevel_pos cfg lv' Hcfg). lia.
Qed.

Lemma level_base_0 cfg : level_base cfg 0 = 0.
Proof. done. Qed.

Lemma bucket_level_range cfg b lv :
  cfg_ok cfg → bucket_level cfg b lv → 0 <= b < GetTotalBuckets cfg.
Proof.
  intros Hcfg [Hlv Hb]. unfold GetTotalBuckets.
  pose proof (level_base_mono cfg 0 lv Hcfg ltac:(lia) ltac:(lia)).
  pose proof (level_base_mono cfg (S lv) (GetNodeLevels cfg) Hcfg ltac:(lia) ltac:(lia)).
  rewrite level_base_0 in *. lia.
Qed.

Lemma bucket_level_inj cfg b lv lv' :
  cfg_ok cfg → bucket_level cfg b lv → bucket_level cfg b lv' → lv = lv'.
Proof.
  intros Hcfg [Hlv Hb] [Hlv' Hb'].
  destruct (decide (lv < lv')%nat).
  { pose proof (level_base_mono cfg (S lv) lv' Hcfg ltac:(lia) ltac:(lia)). lia. }
  destruct (decide (lv' < lv)%nat).
  { pose proof (level_base_mono cfg (S lv') lv Hcfg ltac:(lia) ltac:(lia)). lia. }
  lia.
Qed.

Lemma calculate_bucket_level cfg hasher lv node :
  cfg_ok cfg → (lv < GetNodeLevels cfg)%nat →
  bucket_level cfg (calculate_bucket cfg hasher lv node) lv.
Proof.
  intros Hcfg Hlv. split; [done|]. rewrite level_base_S by done.
  unfold calculate_bucket.
  pose proof (GetBucketsAtLevel_pos cfg lv Hcfg).
  pose proof (Z.mod_pos_bound (wrap32 (hasher node)) (GetBucketsAtLevel cfg lv)). lia.
Qed.

(** ** Walking a bucket node by node *)

Lemma node_size_pos cfg lv w : (1 <= node_size cfg lv w)%nat.
Proof. unfold node_size. case_decide; lia. Qed.

Lemma wf_node_length cfg lv ws : wf_node cfg lv ws → (1 <= length ws)%nat.
Proof. intros (w & rest & -> & _). simpl. lia. Qed.

Lemma parse_nodes_concat cfg lv fuel off ns :
  Forall (wf_node cfg lv) ns → (length (concat ns) <= fuel)%nat →
  parse_nodes cfg lv fuel off (concat ns) = layout off ns.
Proof.
  intros Hwf. revert fuel off. induction Hwf as [|n ns Hn Hns IH]; intros fuel off Hfuel.
  { destruct fuel; done. }
  destruct Hn as (w & rest & -> & Hsz).
  simpl in Hfuel. destruct fuel as [|fuel]; [lia|].
  cbn [concat parse_nodes layout app].
  change (w :: rest ++ concat ns) with ((w :: rest) ++ concat ns).
  rewrite <- Hsz.
  rewrite take_app_length, drop_app_length. f_equal.
  apply IH. rewrite length_app in Hfuel. simpl in *. lia.
Qed.

Lemma layout_app off ns ms :
  layout off (ns ++ ms) = layout off ns ++ layout (off + Z.of_nat (length (concat ns))) ms.
Proof.
  revert off. induction ns as [|n ns IH]; intros off; simpl.
  { f_equal. lia. }
  f_equal. rewrite IH. f_equal. f_equal. rewrite length_app. lia.
Qed.

Lemma layout_elem off ns a ws :
  (a, ws) ∈ layout off ns →
  ws ∈ ns
  ∧ off <= a ∧ a + Z.of_nat (length ws) <= off + Z.of_nat (length (concat ns))
  ∧ ∀ i, (i < length ws)%nat → concat ns !! (Z.to_nat (a - off) + i)%nat = ws !! i.
Proof.
  revert off. induction ns as [|n ns IH]; intros off; simpl.
  { intros H. by apply elem_of_nil in H. }
  intros [[= -> ->]|H]%elem_of_cons.
  - split; [left|]. rewrite length_app. split; [lia|]. split; [lia|].
    intros i Hi. replace (Z.to_nat (off - off) + i)%nat with i by lia.
    by rewrite lookup_app_l.
  - apply IH in H as (Hin & Hlo & Hhi & Hrd).
    split; [by right|]. rewrite length_app. split; [lia|]. split; [lia|].
    intros i Hi. rewrite lookup_app_r by lia. rewrite <- Hrd by done.
    f_equal. lia.
Qed.

Lemma layout_elem_of off ns ws :
  ws ∈ ns → ∃ a, (a, ws) ∈ layout off ns.
Proof.
  revert off. induction ns as [|n ns IH]; intros off.
  { intros H. by apply elem_of_nil in H. }
  intros [->|H]%elem_of_cons; simpl.
  - eexists. left.
  - destruct (IH (off + Z.of_nat (length n)) H) as [a Ha]. exists a. by right.
Qed.

Lemma layout_unique off ns a a' ws :
  NoDup ns → (a, ws) ∈ layout off ns → (a', ws) ∈ layout off ns → a = a'.
Proof.
  intros Hnd. revert off. induction Hnd as [|n ns Hn Hnd IH]; intros off; simpl.
  { intros H. by apply elem_of_nil in H. }
  intros H H'. apply elem_of_cons in H as [H|H], H' as [H'|H'].
  - congruence.
  - injection H as -> ->. apply layout_elem in H' as [? _]. done.
  - injection H' as -> ->. apply layout_elem in H as [? _]. done.
  - by eapply IH.
Qed.

Lemma find_words_layout node off ns :
  (node ∈ ns → (find_words node (layout off ns), node) ∈ layout off ns)
  ∧ (node ∉ ns → find_words node (layout off ns) = Null).
Proof.
  revert off. induction ns as [|n ns IH]; intros off; simpl.
  { split; [intros H; by apply elem_of_nil in H|done]. }
  case_decide as Heq.
  - subst n. split; [intros _; left|]. intros H. exfalso. apply H. left.
  - destruct (IH (off + Z.of_nat (length n))) as [IH1 IH2]. split.
    + intros [->|H]%elem_of_cons; [done|]. right. by apply IH1.
    + intros H. apply IH2. intros ?. apply H. by right.
Qed.
(** ** Stored nodes *)

Section pool_facts.
Context (cfg : Config) (hasher : list Z → Z) (Hcfg : cfg_ok cfg).

Lemma length_bucket_span s b :
  length (bucket_span cfg s b) = Z.to_nat (GetBucketWords s b).
Proof. unfold bucket_span. by rewrite length_fmap, length_seqZ. Qed.

Lemma bucket_span_lookup s b (j : nat) :
  Z.of_nat j < GetBucketWords s b →
  bucket_span cfg s b !! j
  = Some (read_word cfg s (b * GetWordsPerBucket cfg + Z.of_nat j)).
Proof.
  intros Hj. unfold bucket_span.
  by rewrite list_lookup_fmap, lookup_seqZ_lt.
Qed.

Lemma bucket_nodes_layout s lv b :
  pool_ok cfg hasher s → bucket_level cfg b lv →
  ∃ ns, bucket_span cfg s b = concat ns
        ∧ Forall (wf_node cfg lv) ns
        ∧ NoDup ns
        ∧ Forall (λ n, calculate_bucket cfg hasher lv n = b) ns
        ∧ GetBucketWords s b = Z.of_nat (length (concat ns))
        ∧ GetBucketWords s b <= GetWordsPerBucket cfg
        ∧ bucket_nodes cfg s lv b = layout (b * GetWordsPerBucket cfg) ns.
Proof.
  intros Hs Hb. destruct (pool_bucket _ _ _ Hs lv b Hb)
    as (ns & Hspan & Hwf & Hnd & Hbk & Hused & Hcap).
  exists ns. repeat split; try done.
  unfold bucket_nodes. rewrite Hspan. by apply parse_nodes_concat.
Qed.

Lemma stored_level s lv a ws :
  stored cfg hasher s lv a ws → (lv < GetNodeLevels cfg)%nat.
Proof. by intros [? _]. Qed.

(** A stored node is well formed, lies below the sentinels, and its
    words can be read back at its address. *)
Lemma stored_read s lv a ws :
  pool_ok cfg hasher s → stored cfg hasher s lv a ws →
  wf_node cfg lv ws
  ∧ 0 <= a ∧ a + Z.of_nat (length ws) <= GetTotalWords cfg
  ∧ ∀ i : nat, (i < length ws)%nat →
               ws !! i = Some (read_word cfg s (a + Z.of_nat i)).
Proof.
  intros Hs [Hlv Hin].
  pose proof (calculate_bucket_level cfg hasher lv ws Hcfg Hlv) as Hb.
  destruct (bucket_nodes_layout s lv _ Hs Hb)
    as (ns & Hspan & Hwf & Hnd & Hbk & Hused & Hcap & Hlay).
  rewrite Hlay in Hin.
  set (b := calculate_bucket cfg hasher lv ws) in *.
  apply layout_elem in Hin as (Hmem & Hlo & Hhi & Hrd).
  pose proof (bucket_level_range cfg b lv Hcfg Hb) as Hbr.
  pose proof (GetWordsPerBucket_pos cfg Hcfg) as HW.
  split; [by eapply Forall_forall in Hwf|].
  split; [nia|]. split.
  { unfold GetTotalWords. nia. }
  intros i Hi. rewrite <- Hrd by done. rewrite <- Hspan.
  rewrite bucket_span_lookup by lia. f_equal. f_equal. lia.
Qed.

Lemma stored_not_sentinel s lv a ws :
  pool_ok cfg hasher s → stored cfg hasher s lv a ws →
  0 <= a ∧ a < Filled ∧ a ≠ Null ∧ a ≠ Filled ∧ ptr_bool a = true.
Proof.
  intros Hs Hst. destruct (stored_read s lv a ws Hs Hst) as (Hwf & Ha & Hend & _).
  apply wf_node_length in Hwf. pose proof (words_fit _ Hcfg).
  assert (a < Filled) by lia.
  unfold ptr_bool. unfold Filled, Null in *.
  repeat split; lia.
Qed.

(** Hash-consing uniqueness: one address per node content. *)
Lemma stored_unique s lv a a' ws :
  pool_ok cfg hasher s →
  stored cfg hasher s lv a ws → stored cfg hasher s lv a' ws → a = a'.
Proof.
  intros Hs [Hlv Hin] [_ Hin'].
  pose proof (calculate_bucket_level cfg hasher lv ws Hcfg Hlv) as Hb.
  destruct (bucket_nodes_layout s lv _ Hs Hb)
    as (ns & Hspan & Hwf & Hnd & Hbk & Hused & Hcap & Hlay).
  rewrite Hlay in Hin, Hin'. by eapply layout_unique.
Qed.

(** One content per address. *)
Lemma stored_functional s lv a ws ws' :
  pool_ok cfg hasher s →
  stored cfg hasher s lv a ws → stored cfg hasher s lv a ws' → ws = ws'.
Proof.
  intros Hs H H'.
  destruct (stored_read s lv a ws Hs H) as ((w & r & -> & Hsz) & _ & _ & Hrd).
  destruct (stored_read s lv a ws' Hs H') as ((w' & r' & -> & Hsz') & _ & _ & Hrd').
  assert (w = w') as <-.
  { specialize (Hrd 0%nat ltac:(simpl; lia)).
    specialize (Hrd' 0%nat ltac:(simpl; lia)). simpl in *. congruence. }
  apply list_eq. intros i.
  destruct (decide (i < length (w :: r))%nat) as [Hi|Hi].
  - rewrite Hrd by done. rewrite Hrd' by lia. done.
  - rewrite !lookup_ge_None_2 by lia. done.
Qed.

(** [find_node] returns the address of the node when it is stored and
    Null otherwise. *)
Lemma find_node_stored s lv a node :
  pool_ok cfg hasher s → stored cfg hasher s lv a node →
  find_node cfg s lv (calculate_bucket cfg hasher lv node) node = a.
Proof.
  intros Hs Hst. pose proof Hst as [Hlv Hin].
  pose proof (calculate_bucket_level cfg hasher lv node Hcfg Hlv) as Hb.
  destruct (bucket_nodes_layout s lv _ Hs Hb)
    as (ns & Hspan & Hwf & Hnd & Hbk & Hused & Hcap & Hlay).
  unfold find_node. rewrite Hlay in *.
  pose proof Hin as Hin2. apply layout_elem in Hin2 as [Hmem _].
  eapply layout_unique; [done| |done].
  by apply find_words_layout.
Qed.

Lemma find_node_found s lv node :
  pool_ok cfg hasher s → (lv < GetNodeLevels cfg)%nat →
  ptr_bool (find_node cfg s lv (calculate_bucket cfg hasher lv node) node) = true →
  stored cfg hasher s lv
    (find_node cfg s lv (calculate_bucket cfg hasher lv node) node) node.
Proof.
  intros Hs Hlv Hfound.
  pose proof (calculate_bucket_level cfg hasher lv node Hcfg Hlv) as Hb.
  destruct (bucket_nodes_layout s lv _ Hs Hb)
    as (ns & Hspan & Hwf & Hnd & Hbk & Hused & Hcap & Hlay).
  split; [done|]. unfold find_node in *. rewrite Hlay in *.
  destruct (decide (node ∈ ns)) as [Hin|Hnin].
  - by apply find_words_layout.
  - apply (find_words_layout node (calculate_bucket cfg hasher lv node
                                   * GetWordsPerBucket cfg)) in Hnin.
    rewrite Hnin in Hfound. done.
Qed.

Lemma find_node_missing s lv node :
  pool_ok cfg hasher s → (lv < GetNodeLevels cfg)%nat →
  ptr_bool (find_node cfg s lv (calculate_bucket cfg hasher lv node) node) = false →
  ∀ a, ¬ stored cfg hasher s lv a node.
Proof.
  intros Hs Hlv Hnf a Hst.
  rewrite (find_node_stored s lv a node Hs Hst) in Hnf.
  destruct (stored_not_sentinel s lv a node Hs Hst) as (_ & _ & _ & _ & Hb).
  congruence.
Qed.

End pool_facts.
(** ** Appending a node *)

Section append_facts.
Context (cfg : Config) (hasher : list Z → Z) (Hcfg : cfg_ok cfg).

Lemma GetBucketWords_SetBucketWords s b n b' :
  0 <= b → 0 <= b' → (Z.to_nat b < length (m_bucket_words s))%nat →
  GetBucketWords (SetBucketWords s b n) b'
  = if decide (b = b') then n else GetBucketWords s b'.
Proof.
  intros Hb Hb' Hlen. unfold GetBucketWords, SetBucketWords. simpl.
  case_decide as Heq.
  - subst b'. by rewrite list_lookup_insert_eq.
  - rewrite list_lookup_insert_ne by lia. done.
Qed.

Lemma read_word_SetBucketWords s b n a :
  read_word cfg (SetBucketWords s b n) a = read_word cfg s a.
Proof. done. Qed.

Lemma read_word_appended s b lv node a :
  pool_ok cfg hasher s → bucket_level cfg b lv →
  GetBucketWords s b + Z.of_nat (length node) <= GetWordsPerBucket cfg →
  0 <= a →
  read_word cfg (appended cfg s b node) a
  = if decide (b * GetWordsPerBucket cfg + GetBucketWords s b <= a
               < b * GetWordsPerBucket cfg + GetBucketWords s b
                 + Z.of_nat (length node))
    then default 0 (node !! Z.to_nat (a - (b * GetWordsPerBucket cfg
                                           + GetBucketWords s b)))
    else read_word cfg s a.
Proof.
  intros Hs Hb Hcap Ha. unfold appended. rewrite read_word_SetBucketWords.
  pose proof (bucket_level_range cfg b lv Hcfg Hb) as Hbr.
  pose proof (GetWordsPerBucket_pos cfg Hcfg) as HW.
  destruct (pool_bucket _ _ _ Hs lv b Hb) as (ns & _ & _ & _ & _ & Hused & _).
  apply read_word_write_words; try done.
  - apply Hs.
  - nia.
  - unfold GetTotalWords. nia.
Qed.

Lemma bucket_span_appended_same s b lv node :
  pool_ok cfg hasher s → bucket_level cfg b lv →
  GetBucketWords s b + Z.of_nat (length node) <= GetWordsPerBucket cfg →
  bucket_span cfg (appended cfg s b node) b = bucket_span cfg s b ++ node.
Proof.
  intros Hs Hb Hcap.
  pose proof (bucket_level_range cfg b lv Hcfg Hb) as Hbr.
  pose proof (GetWordsPerBucket_pos cfg Hcfg) as HW.
  destruct (pool_bucket _ _ _ Hs lv b Hb) as (ns & _ & _ & _ & _ & Hused & _).
  unfold bucket_span at 1.
  assert (GetBucketWords (appended cfg s b node) b
          = GetBucketWords s b + Z.of_nat (length node)) as ->.
  { unfold appended. rewrite GetBucketWords_SetBucketWords; [|lia|lia|].
    - by rewrite decide_True.
    - rewrite write_words_bucket_words, (pool_buckets_len _ _ _ Hs). lia. }
  rewrite seqZ_app, fmap_app by lia. f_equal.
  - unfold bucket_span. apply Forall_fmap_ext, Forall_seqZ. intros a Ha.
    rewrite (read_word_appended s b lv) by (try done; nia).
    rewrite decide_False by lia. done.
  - apply list_eq. intros i. rewrite list_lookup_fmap.
    destruct (decide (i < length node)%nat) as [Hi|Hi].
    + rewrite lookup_seqZ_lt by lia. simpl.
      rewrite (read_word_appended s b lv) by (try done; nia).
      rewrite decide_True by lia.
      replace (Z.to_nat _) with i by lia.
      destruct (lookup_lt_is_Some_2 node i Hi) as [w Hw]. by rewrite Hw.
    + rewrite lookup_seqZ_ge by lia. simpl. by rewrite lookup_ge_None_2 by lia.
Qed.

Lemma bucket_span_appended_other s b lv node b' lv' :
  pool_ok cfg hasher s → bucket_level cfg b lv → bucket_level cfg b' lv' →
  GetBucketWords s b + Z.of_nat (length node) <= GetWordsPerBucket cfg →
  b ≠ b' →
  bucket_span cfg (appended cfg s b node) b' = bucket_span cfg s b'.
Proof.
  intros Hs Hb Hb' Hcap Hne.
  pose proof (bucket_level_range cfg b lv Hcfg Hb) as Hbr.
  pose proof (bucket_level_range cfg b' lv' Hcfg Hb') as Hbr'.
  pose proof (GetWordsPerBucket_pos cfg Hcfg) as HW.
  destruct (pool_bucket _ _ _ Hs lv b Hb) as (ns & _ & _ & _ & _ & Hused & _).
  destruct (pool_bucket _ _ _ Hs lv' b' Hb') as (ns' & _ & _ & _ & _ & Hused' & Hcap').
  unfold bucket_span.
  assert (GetBucketWords (appended cfg s b node) b' = GetBucketWords s b') as ->.
  { unfold appended. rewrite GetBucketWords_SetBucketWords; [|lia|lia|].
    - rewrite decide_False by done. unfold GetBucketWords.
      by rewrite write_words_bucket_words.
    - rewrite write_words_bucket_words, (pool_buckets_len _ _ _ Hs). lia. }
  apply Forall_fmap_ext, Forall_seqZ. intros a Ha.
  rewrite (read_word_appended s b lv) by (try done; nia).
  rewrite decide_False by nia. done.
Qed.

Lemma append_node_eq s b node :
  append_node cfg b node s
  = if GetBucketWords s b + Z.of_nat (length node) >? GetWordsPerBucket cfg
    then OutOfBuckets
    else Ok (b * GetWordsPerBucket cfg + GetBucketWords s b, appended cfg s b node).
Proof. done. Qed.

Lemma pool_ok_appended s lv node :
  pool_ok cfg hasher s → (lv < GetNodeLevels cfg)%nat → wf_node cfg lv node →
  (∀ a, ¬ stored cfg hasher s lv a node) →
  GetBucketWords s (calculate_bucket cfg hasher lv node) + Z.of_nat (length node)
    <= GetWordsPerBucket cfg →
  pool_ok cfg hasher (appended cfg s (calculate_bucket cfg hasher lv node) node).
Proof.
  intros Hs Hlv Hwf Hnew Hcap.
  set (b := calculate_bucket cfg hasher lv node) in *.
  pose proof (calculate_bucket_level cfg hasher lv node Hcfg Hlv) as Hb. fold b in Hb.
  split.
  - unfold appended. destruct Hs as [Hp _ _]. destruct Hp as [Hl Hpg].
    pose proof (pages_ok_write_words cfg (length node) s
                  (b * GetWordsPerBucket cfg + GetBucketWords s b) node
                  (mk_pages_ok _ _ Hl Hpg)) as [Hl' Hpg'].
    split; simpl; done.
  - unfold appended. simpl. rewrite length_insert, write_words_bucket_words.
    apply Hs.
  - intros lv' b' Hb'.
    destruct (decide (b = b')) as [<-|Hne].
    + assert (lv' = lv) as -> by (by eapply bucket_level_inj).
      destruct (bucket_nodes_layout cfg hasher s lv b Hs Hb)
        as (ns & Hspan & Hwfs & Hnd & Hbk & Hused & Hcap' & Hlay).
      exists (ns ++ [node]).
      rewrite (bucket_span_appended_same s b lv) by done.
      rewrite concat_app. simpl. rewrite app_nil_r.
      assert (GetBucketWords (appended cfg s b node) b
              = GetBucketWords s b + Z.of_nat (length node)) as Hnew_used.
      { pose proof (bucket_level_range cfg b lv Hcfg Hb).
        unfold appended. rewrite GetBucketWords_SetBucketWords; [|lia|lia|].
        - by rewrite decide_True.
        - rewrite write_words_bucket_words, (pool_buckets_len _ _ _ Hs). lia. }
      repeat split.
      * by rewrite Hspan.
      * apply Forall_app. split; [done|]. by apply Forall_singleton.
      * apply NoDup_app. split; [done|]. split; [|apply NoDup_singleton].
        intros x Hx ->%list_elem_of_singleton.
        destruct (layout_elem_of (b * GetWordsPerBucket cfg) ns node Hx) as [a Ha].
        apply (Hnew a). split; [done|]. fold b. by rewrite Hlay.
      * apply Forall_app. split; [done|]. by apply Forall_singleton.
      * rewrite Hnew_used, Hused, length_app. lia.
      * rewrite Hnew_used. done.
    + rewrite (bucket_span_appended_other s b lv node b' lv') by done.
      destruct (pool_bucket _ _ _ Hs lv' b' Hb')
        as (ns & Hspan & Hwfs & Hnd & Hbk & Hused & Hcap').
      exists ns.
      assert (GetBucketWords (appended cfg s b node) b' = GetBucketWords s b') as ->.
      { pose proof (bucket_level_range cfg b lv Hcfg Hb).
        pose proof (bucket_level_range cfg b' lv' Hcfg Hb').
        unfold appended. rewrite GetBucketWords_SetBucketWords; [|lia|lia|].
        - rewrite decide_False by done. unfold GetBucketWords.
      by rewrite write_words_bucket_words.
        - rewrite write_words_bucket_words, (pool_buckets_len _ _ _ Hs). lia. }
      done.
Qed.

Lemma bucket_nodes_appended_same s lv node :
  pool_ok cfg hasher s → (lv < GetNodeLevels cfg)%nat → wf_node cfg lv node →
  GetBucketWords s (calculate_bucket cfg hasher lv node) + Z.of_nat (length node)
    <= GetWordsPerBucket cfg →
  let b := calculate_bucket cfg hasher lv node in
  bucket_nodes cfg (appended cfg s b node) lv b
  = bucket_nodes cfg s lv b
    ++ [(b * GetWordsPerBucket cfg + GetBucketWords s b, node)].
Proof.
  intros Hs Hlv Hwf Hcap b.
  pose proof (calculate_bucket_level cfg hasher lv node Hcfg Hlv) as Hb. fold b in Hb.
  destruct (bucket_nodes_layout cfg hasher s lv b Hs Hb)
    as (ns & Hspan & Hwfs & Hnd & Hbk & Hused & Hcap' & Hlay).
  rewrite Hlay. unfold bucket_nodes.
  rewrite (bucket_span_appended_same s b lv) by done.
  rewrite Hspan.
  replace (concat ns ++ node) with (concat (ns ++ [node]))
    by (rewrite concat_app; simpl; by rewrite app_nil_r).
  rewrite parse_nodes_concat.
  - rewrite layout_app. simpl. rewrite Hused. done.
  - apply Forall_app. split; [done|]. by apply Forall_singleton.
  - done.
Qed.

Lemma bucket_nodes_appended_other s b lv node b' lv' :
  pool_ok cfg hasher s → bucket_level cfg b lv → bucket_level cfg b' lv' →
  GetBucketWords s b + Z.of_nat (length node) <= GetWordsPerBucket cfg →
  b ≠ b' →
  bucket_nodes cfg (appended cfg s b node) lv' b' = bucket_nodes cfg s lv' b'.
Proof.
  intros Hs Hb Hb' Hcap Hne. unfold bucket_nodes.
  by rewrite (bucket_span_appended_other s b lv node b' lv').
Qed.

(** What is stored after an append: what was stored before, and the
    new node at the old tail of its bucket. *)
Lemma stored_appended s lv node lv' a ws :
  pool_ok cfg hasher s → (lv < GetNodeLevels cfg)%nat → wf_node cfg lv node →
  GetBucketWords s (calculate_bucket cfg hasher lv node) + Z.of_nat (length node)
    <= GetWordsPerBucket cfg →
  let b := calculate_bucket cfg hasher lv node in
  stored cfg hasher (appended cfg s b node) lv' a ws
  ↔ stored cfg hasher s lv' a ws
    ∨ (lv' = lv ∧ a = b * GetWordsPerBucket cfg + GetBucketWords s b ∧ ws = node).
Proof.
  intros Hs Hlv Hwf Hcap b.
  pose proof (calculate_bucket_level cfg hasher lv node Hcfg Hlv) as Hb. fold b in Hb.
  unfold stored.
  destruct (decide (lv' < GetNodeLevels cfg)%nat) as [Hlv'|Hlv'].
  2:{ split; [intros [? _]; lia|]. intros [[? _]|[-> _]]; lia. }
  pose proof (calculate_bucket_level cfg hasher lv' ws Hcfg Hlv') as Hb'.
  destruct (decide (b = calculate_bucket cfg hasher lv' ws)) as [Heq|Hne].
  - assert (lv' = lv) as ->.
    { rewrite <- Heq in Hb'. by eapply bucket_level_inj. }
    rewrite <- Heq.
    pose proof (bucket_nodes_appended_same s lv node Hs Hlv Hwf Hcap) as Happ.
    cbv zeta in Happ. fold b in Happ. rewrite Happ.
    rewrite elem_of_app, list_elem_of_singleton.
    split.
    + intros [_ [H|[= -> ->]]]; [left; done|right; done].
    + intros [[_ H]|(_ & -> & ->)]; (split; [done|]); [by left|by right].
  - rewrite (bucket_nodes_appended_other s b lv node _ lv') by done.
    split.
    + intros H. by left.
    + intros [H|(-> & _ & ->)]; [done|]. done.
Qed.

End append_facts.
(** ** [upsert_node] *)

Section upsert_facts.
Context (cfg : Config) (hasher : list Z → Z) (Hcfg : cfg_ok cfg).

Lemma pool_ok_empty : pool_ok cfg hasher (empty_pool cfg).
Proof.
  assert (∀ b, GetBucketWords (empty_pool cfg) b = 0) as Hused.
  { intros b. unfold GetBucketWords, empty_pool. simpl.
    destruct (replicate _ _ !! _) as [x|] eqn:E; [|done].
    by apply lookup_replicate in E as [-> _]. }
  split.
  - split; simpl; [by rewrite length_replicate|].
    intros i pg [? _]%lookup_replicate. done.
  - simpl. by rewrite length_replicate.
  - intros lv b Hb. exists []. unfold bucket_span. rewrite Hused. simpl.
    pose proof (GetWordsPerBucket_pos cfg Hcfg).
    repeat split; try done; try constructor. lia.
Qed.

(** An upsert of a node that is already stored returns its address and
    leaves the pool alone. *)
Lemma upsert_node_existing s lv a node :
  pool_ok cfg hasher s → stored cfg hasher s lv a node →
  upsert_node cfg hasher lv node s = Ok (a, s).
Proof.
  intros Hs Hst. unfold upsert_node.
  rewrite (find_node_stored cfg hasher Hcfg s lv a node Hs Hst).
  destruct (stored_not_sentinel cfg hasher Hcfg s lv a node Hs Hst)
    as (_ & _ & _ & _ & ->). done.
Qed.

(** A successful upsert: the pool invariant is kept, the result is the
    address of the node, and nothing else changes. *)
Lemma upsert_node_spec s lv node p s' :
  pool_ok cfg hasher s → (lv < GetNodeLevels cfg)%nat → wf_node cfg lv node →
  upsert_node cfg hasher lv node s = Ok (p, s') →
  pool_ok cfg hasher s'
  ∧ stored cfg hasher s' lv p node
  ∧ ∀ lv' a ws, stored cfg hasher s' lv' a ws
                ↔ stored cfg hasher s lv' a ws ∨ (lv' = lv ∧ a = p ∧ ws = node).
Proof.
  intros Hs Hlv Hwf. unfold upsert_node.
  destruct (ptr_bool (find_node cfg s lv (calculate_bucket cfg hasher lv node) node))
    eqn:Hfind.
  - intros [= <- <-].
    pose proof (find_node_found cfg hasher Hcfg s lv node Hs Hlv Hfind) as Hst.
    split; [done|]. split; [done|].
    intros lv' a ws. split; [by left|]. intros [H|(-> & -> & ->)]; done.
  - pose proof (find_node_missing cfg hasher Hcfg s lv node Hs Hlv Hfind) as Hnew.
    rewrite append_node_eq.
    destruct (Z.gtb_spec
                (GetBucketWords s (calculate_bucket cfg hasher lv node)
                 + Z.of_nat (length node)) (GetWordsPerBucket cfg)) as [|Hcap];
      [done|].
    intros [= <- <-].
    pose proof (stored_appended cfg hasher Hcfg s lv node) as Hiff.
    split; [by apply pool_ok_appended|].
    split.
    + apply Hiff; try done. by right.
    + intros lv' a ws. by apply Hiff.
Qed.

Lemma upsert_node_extends s lv node p s' :
  pool_ok cfg hasher s → (lv < GetNodeLevels cfg)%nat → wf_node cfg lv node →
  upsert_node cfg hasher lv node s = Ok (p, s') →
  pool_extends cfg hasher s s'.
Proof.
  intros Hs Hlv Hwf Hup lv' a ws Hst.
  destruct (upsert_node_spec s lv node p s' Hs Hlv Hwf Hup) as (_ & _ & Hiff).
  apply Hiff. by left.
Qed.

Lemma upsert_steps_ok s s' :
  upsert_steps cfg hasher s s' → pool_ok cfg hasher s →
  pool_ok cfg hasher s' ∧ pool_extends cfg hasher s s'.
Proof.
  induction 1 as [s|s lv node p s' s'' Hlv Hwf Hup Hsteps IH]; intros Hs.
  - split; [done|]. by intros lv a ws.
  - destruct (upsert_node_spec s lv node p s' Hs Hlv Hwf Hup) as (Hs' & _ & Hiff).
    destruct (IH Hs') as [Hs'' Hext]. split; [done|].
    intros lv' a ws Hst. apply Hext, Hiff. by left.
Qed.

(** Within one bucket no two addresses hold the same node words. *)
Lemma bucket_nodes_unique s lv b a a' ws :
  pool_ok cfg hasher s → bucket_level cfg b lv →
  (a, ws) ∈ bucket_nodes cfg s lv b → (a', ws) ∈ bucket_nodes cfg s lv b →
  a = a'.
Proof.
  intros Hs Hb Hin Hin'.
  destruct (bucket_nodes_layout cfg hasher s lv b Hs Hb)
    as (ns & _ & _ & Hnd & _ & _ & _ & Hlay).
  rewrite Hlay in *. by eapply layout_unique.
Qed.

End upsert_facts.

Lemma example_config_ok : cfg_ok example_config.
Proof.
  split; try (vm_compute; discriminate).
  change (bucket_bits_each_level example_config) with [0; 0].
  repeat constructor; lia.
Qed.

Lemma example_leaf_wf : wf_node example_config 1 [1; 0].
Proof. by exists 1, [0]. Qed.

(** C1 (hash-consing uniqueness): after any sequence of upserts into an
    empty pool, (a) within every bucket no two distinct stored addresses
    hold identical node words, and (b) upserting structurally equal
    nodes [n1] and [n2] at the same level returns the same pointer, also
    when further upserts happen in between; the second upsert finds the
    node and leaves the pool unchanged. *)
Theorem C1_hash_consing_uniqueness (cfg : Config) (hasher : list Z → Z)
    (s : NodePool) :
  cfg_ok cfg →
  upsert_steps cfg hasher (empty_pool cfg) s →
  (∀ lv b a a' ws,
     bucket_level cfg b lv →
     (a, ws) ∈ bucket_nodes cfg s lv b → (a', ws) ∈ bucket_nodes cfg s lv b →
     a = a')
  ∧ (∀ lv n1 n2 p1 p2 s1 s2 s3,
       n1 = n2 →
       (lv < GetNodeLevels cfg)%nat → wf_node cfg lv n1 →
       upsert_node cfg hasher lv n1 s = Ok (p1, s1) →
       upsert_steps cfg hasher s1 s2 →
       upsert_node cfg hasher lv n2 s2 = Ok (p2, s3) →
       p1 = p2 ∧ s3 = s2).
Proof.
  intros Hcfg Hreach.
  destruct (upsert_steps_ok cfg hasher Hcfg _ _ Hreach (pool_ok_empty cfg hasher Hcfg))
    as [Hs _].
  split.
  - intros lv b a a' ws Hb. by eapply bucket_nodes_unique.
  - intros lv n1 n2 p1 p2 s1 s2 s3 <- Hlv Hwf Hup1 Hsteps Hup2.
    destruct (upsert_node_spec cfg hasher Hcfg s lv n1 p1 s1 Hs Hlv Hwf Hup1)
      as (Hs1 & Hst1 & _).
    destruct (upsert_steps_ok cfg hasher Hcfg _ _ Hsteps Hs1) as [Hs2 Hext].
    rewrite (upsert_node_existing cfg hasher Hcfg s2 lv p1 n1 Hs2 (Hext _ _ _ Hst1))
      in Hup2.
    by injection Hup2 as <- <-.
Qed.

Lemma C1_hash_consing_uniqueness_witness :
  ∃ p s1,
    upsert_node example_config example_hasher 1 [1; 0] (empty_pool example_config)
    = Ok (p, s1)
    ∧ upsert_node example_config example_hasher 1 [1; 0] s1 = Ok (p, s1).
Proof.
  destruct (upsert_node example_config example_hasher 1 [1; 0]
              (empty_pool example_config)) as [[p s1]|] eqn:Hup1;
    [|vm_compute in Hup1; discriminate].
  destruct (upsert_node example_config example_hasher 1 [1; 0] s1)
    as [[p2 s3]|] eqn:Hup2.
  - exists p, s1. split; [reflexivity|].
    destruct (C1_hash_consing_uniqueness example_config example_hasher
                (empty_pool example_config) example_config_ok
                (upsert_steps_refl _ _ _)) as [_ Hsame].
    destruct (Hsame 1%nat [1; 0] [1; 0] p p2 s1 s1 s3 eq_refl
                ltac:(vm_compute; lia) example_leaf_wf Hup1
                (upsert_steps_refl _ _ _) Hup2) as [-> ->].
    exact Hup2.
  - exfalso. vm_compute in Hup1. injection Hup1 as <- <-.
    vm_compute in Hup2. discriminate.
Defined.
(** ** Packing and unpacking inner nodes *)

Lemma ptr_bool_false p : ptr_bool p = false → p = Null.
Proof. unfold ptr_bool. intros H. apply negb_false_iff, Z.eqb_eq in H. done. Qed.

Lemma ptr_bool_true p : ptr_bool p = true ↔ p ≠ Null.
Proof. unfold ptr_bool. rewrite negb_true_iff, Z.eqb_neq. done. Qed.

Lemma child_mask_bound cs : 0 <= child_mask cs < 2 ^ Z.of_nat (length cs).
Proof.
  induction cs as [|c cs IH]; simpl length; [simpl; lia|].
  rewrite Nat2Z.inj_succ, Z.pow_succ_r by lia. simpl.
  destruct (ptr_bool c); lia.
Qed.

Lemma child_mask_odd c cs : Z.odd (child_mask (c :: cs)) = ptr_bool c.
Proof.
  simpl. rewrite Z.odd_add_mul_2. by destruct (ptr_bool c).
Qed.

Lemma child_mask_half c cs : child_mask (c :: cs) / 2 = child_mask cs.
Proof.
  simpl. destruct (ptr_bool c).
  - symmetry. apply (Z.div_unique _ 2 _ 1); lia.
  - symmetry. apply (Z.div_unique _ 2 _ 0); lia.
Qed.

Lemma child_mask_testbit cs (i : nat) :
  Z.testbit (child_mask cs) (Z.of_nat i)
  = match cs !! i with Some c => ptr_bool c | None => false end.
Proof.
  revert i. induction cs as [|c cs IH]; intros i.
  { simpl. by rewrite Z.testbit_0_l. }
  destruct i as [|i].
  - change (Z.of_nat 0) with 0. rewrite Z.bit0_odd. apply child_mask_odd.
  - rewrite Nat2Z.inj_succ.
    rewrite <- Z.div2_bits by lia. rewrite child_mask_half. apply IH.
Qed.

Lemma popcount_0 n : popcount n 0 = 0%nat.
Proof.
  induction n as [|n IH]; [done|]. cbn [popcount].
  change (0 / 2) with 0. by rewrite IH.
Qed.

Lemma popcount_child_mask (i : nat) cs :
  popcount i (child_mask cs)
  = length (filter (λ c, ptr_bool c = true) (take i cs)).
Proof.
  revert cs. induction i as [|i IH]; intros cs; [by rewrite take_0|].
  destruct cs as [|c cs].
  { simpl. by rewrite popcount_0. }
  cbn [popcount take]. rewrite child_mask_odd, child_mask_half, IH.
  rewrite filter_cons. destruct (ptr_bool c) eqn:E.
  - rewrite decide_True by done. done.
  - rewrite decide_False by congruence. done.
Qed.

Lemma filter_lookup_take {A} (P : A → Prop) `{∀ x, Decision (P x)} (l : list A) i x :
  l !! i = Some x → P x →
  filter P l !! length (filter P (take i l)) = Some x.
Proof.
  revert i. induction l as [|y l IH]; intros i Hi HP; [done|].
  destruct i as [|i].
  - simpl in Hi. injection Hi as ->. rewrite take_0. simpl.
    rewrite filter_cons, decide_True by done. done.
  - simpl in Hi. cbn [take]. rewrite !filter_cons. case_decide.
    + simpl. by apply IH.
    + by apply IH.
Qed.

Lemma get_packed_node_inplace_cons m cs :
  get_packed_node_inplace (m :: cs)
  = child_mask cs :: filter (λ c, ptr_bool c = true) cs.
Proof. done. Qed.

Lemma child_mask_zero cs : child_mask cs = 0 → Forall (λ c, c = Null) cs.
Proof.
  induction cs as [|c cs IH]; [constructor|]. intros H.
  pose proof (child_mask_bound cs). simpl in H.
  destruct (ptr_bool c) eqn:E; [lia|].
  constructor; [by apply ptr_bool_false|]. apply IH. lia.
Qed.

Lemma child_mask_all_null cs : Forall (λ c, c = Null) cs → child_mask cs = 0.
Proof. induction 1 as [|c cs -> _ IH]; [done|]. simpl. rewrite IH. done. Qed.

Lemma filter_all_null cs :
  Forall (λ c, c = Null) cs → filter (λ c, ptr_bool c = true) cs = [].
Proof.
  induction 1 as [|c cs -> _ IH]; [done|]. rewrite filter_cons, decide_False; done.
Qed.

(** Packing is injective on arrays of the same length. *)
Lemma get_packed_node_inplace_inj cs cs' :
  length cs = length cs' →
  get_packed_node_inplace (0 :: cs) = get_packed_node_inplace (0 :: cs') →
  cs = cs'.
Proof.
  rewrite !get_packed_node_inplace_cons.
  revert cs'. induction cs as [|c cs IH]; intros [|c' cs'] Hlen; try done.
  simpl in Hlen. intros [= Hm' Hf].
  assert (child_mask (c :: cs) = child_mask (c' :: cs')) as Hm by exact Hm'.
  clear Hm'.
  assert (ptr_bool c = ptr_bool c') as Hb.
  { rewrite <- (child_mask_odd c cs), <- (child_mask_odd c' cs').
    by rewrite Hm. }
  assert (child_mask cs = child_mask cs') as Hm'.
  { rewrite <- (child_mask_half c cs), <- (child_mask_half c' cs'). by rewrite Hm. }
  rewrite !filter_cons in Hf. destruct (ptr_bool c) eqn:E.
  - rewrite decide_True in Hf by done.
    rewrite decide_True in Hf by congruence. injection Hf as -> Hf.
    f_equal. apply IH; [lia|]. by rewrite Hm', Hf.
  - rewrite decide_False in Hf by congruence.
    rewrite decide_False in Hf by congruence.
    apply ptr_bool_false in E. symmetry in Hb. apply ptr_bool_false in Hb.
    subst. f_equal. apply IH; [lia|]. by rewrite Hm', Hf.
Qed.

Lemma get_packed_node_inplace_wf cfg lv m cs :
  length cs = 8%nat → lv ≠ GetLeafLevel cfg →
  wf_node cfg lv (get_packed_node_inplace (m :: cs)).
Proof.
  intros Hlen Hlv. rewrite get_packed_node_inplace_cons.
  eexists _, _. split; [done|]. unfold node_size. rewrite decide_False by done.
  cbn [length]. f_equal.
  pose proof (child_mask_bound cs) as Hb. rewrite Hlen in Hb.
  replace (Z.land (child_mask cs) 255) with (child_mask cs).
  2:{ change 255 with (Z.ones 8). rewrite Z.land_ones by lia.
      rewrite Z.mod_small; [done|]. change (2 ^ Z.of_nat 8) with 256 in Hb.
      change (2 ^ 8) with 256. lia. }
  rewrite popcount_child_mask. by rewrite take_ge by lia.
Qed.

Section node_arrays.
Context (cfg : Config) (hasher : list Z → Z) (Hcfg : cfg_ok cfg).

(** Unpacking a stored inner node gives back the children it was
    packed from. *)
Lemma get_unpacked_node_array_stored s lv p cs :
  pool_ok cfg hasher s → length cs = 8%nat →
  stored cfg hasher s lv p (get_packed_node_inplace (0 :: cs)) →
  get_unpacked_node_array cfg s p = child_mask cs :: cs.
Proof.
  intros Hs Hlen Hst.
  destruct (stored_not_sentinel cfg hasher Hcfg s lv p _ Hs Hst)
    as (_ & _ & Hn & Hf & _).
  destruct (stored_read cfg hasher Hcfg s lv p _ Hs Hst) as (_ & _ & _ & Hrd).
  rewrite get_packed_node_inplace_cons in Hrd.
  unfold get_unpacked_node_array.
  rewrite (proj2 (Z.eqb_neq p Null)), (proj2 (Z.eqb_neq p Filled)) by done.
  pose proof (Hrd 0%nat ltac:(simpl; lia)) as H0. simpl in H0.
  injection H0 as H0. rewrite Z.add_0_r in H0. rewrite <- H0.
  pose proof (child_mask_bound cs) as Hb. rewrite Hlen in Hb.
  replace (Z.land (child_mask cs) 255) with (child_mask cs).
  2:{ change 255 with (Z.ones 8). rewrite Z.land_ones by lia.
      rewrite Z.mod_small; [done|]. change (2 ^ Z.of_nat 8) with 256 in Hb.
      change (2 ^ 8) with 256. lia. }
  f_equal. apply list_eq. intros i. rewrite list_lookup_fmap.
  destruct (decide (i < 8)%nat) as [Hi|Hi].
  2:{ rewrite lookup_seq_ge by lia. simpl. by rewrite lookup_ge_None_2 by lia. }
  rewrite lookup_seq_lt by lia. simpl.
  rewrite child_mask_testbit.
  destruct (lookup_lt_is_Some_2 cs i ltac:(lia)) as [c Hc]. rewrite Hc.
  destruct (ptr_bool c) eqn:E.
  - f_equal. rewrite popcount_child_mask.
    pose proof (filter_lookup_take (λ c, ptr_bool c = true) cs i c Hc E) as Hfl.
    apply lookup_lt_Some in Hfl as Hlt.
    specialize (Hrd (S (length (filter (λ c, ptr_bool c = true) (take i cs))))
                    ltac:(simpl; lia)).
    simpl in Hrd. rewrite Hfl in Hrd. injection Hrd as ->. f_equal. lia.
  - f_equal. symmetry. by apply ptr_bool_false.
Qed.

Lemma get_unpacked_node_array_Null s :
  get_unpacked_node_array cfg s Null = 0 :: replicate 8 Null.
Proof. done. Qed.

Lemma get_unpacked_node_array_Filled s :
  get_unpacked_node_array cfg s Filled = 0xFF :: replicate 8 Filled.
Proof. done. Qed.

(** Reading a stored leaf gives back its two words. *)
Lemma get_leaf_array_stored s lv p ws :
  pool_ok cfg hasher s → length ws = 2%nat →
  stored cfg hasher s lv p ws →
  get_leaf_array cfg s p = ws.
Proof.
  intros Hs Hlen Hst.
  destruct (stored_not_sentinel cfg hasher Hcfg s lv p _ Hs Hst)
    as (_ & _ & Hn & Hf & _).
  destruct (stored_read cfg hasher Hcfg s lv p _ Hs Hst) as (_ & _ & _ & Hrd).
  unfold get_leaf_array.
  rewrite (proj2 (Z.eqb_neq p Null)), (proj2 (Z.eqb_neq p Filled)) by done.
  destruct ws as [|w0 [|w1 [|]]]; try done.
  pose proof (Hrd 0%nat ltac:(simpl; lia)) as H0.
  pose proof (Hrd 1%nat ltac:(simpl; lia)) as H1.
  cbn [lookup list_lookup] in H0, H1.
  change (Z.of_nat 0) with 0 in H0. change (Z.of_nat 1) with 1 in H1.
  rewrite Z.add_0_r in H0. congruence.
Qed.

End node_arrays.
(** ** Valid pointers and the voxels under them *)

Lemma lookup_cons_S {A} (x : A) (l : list A) (i : nat) : (x :: l) !! S i = l !! i.
Proof. done. Qed.

Lemma child_index_lt d v : (child_index d v < 8)%nat.
Proof.
  unfold child_index.
  pose proof (Z.mod_pos_bound (vx v / 2 ^ Z.of_nat (d + 2)) 2 ltac:(lia)).
  pose proof (Z.mod_pos_bound (vy v / 2 ^ Z.of_nat (d + 2)) 2 ltac:(lia)).
  pose proof (Z.mod_pos_bound (vz v / 2 ^ Z.of_nat (d + 2)) 2 ltac:(lia)).
  lia.
Qed.

Lemma leaf_index_lt v : (leaf_index v < 64)%nat.
Proof.
  unfold leaf_index.
  pose proof (Z.mod_pos_bound (vx v) 4 ltac:(lia)).
  pose proof (Z.mod_pos_bound (vy v) 4 ltac:(lia)).
  pose proof (Z.mod_pos_bound (vz v) 4 ltac:(lia)).
  lia.
Qed.

Lemma get_voxel_bit_zeros i : get_voxel_bit [0; 0] i = false.
Proof.
  unfold get_voxel_bit.
  destruct ([0; 0] !! (i / 32)%nat) as [w|] eqn:E; simpl.
  - assert (w = 0) as ->.
    { destruct (i / 32)%nat as [|[|n]]; cbn in E; [congruence..|].
      by destruct n. }
    apply Z.testbit_0_l.
  - apply Z.testbit_0_l.
Qed.

Lemma get_voxel_bit_ones i :
  (i < 64)%nat → get_voxel_bit [0xFFFFFFFF; 0xFFFFFFFF] i = true.
Proof.
  intros Hi. unfold get_voxel_bit.
  assert (i / 32 < 2)%nat as Hq by (apply Nat.Div0.div_lt_upper_bound; lia).
  assert ([4294967295; 4294967295] !! (i / 32)%nat = Some (Z.ones 32)) as ->.
  { destruct (i / 32)%nat as [|[|]]; [done|done|lia]. }
  simpl default. apply Z.ones_spec_low.
  pose proof (Nat.mod_upper_bound i 32 ltac:(lia)). lia.
Qed.

Section voxels.
Context (cfg : Config) (hasher : list Z → Z) (Hcfg : cfg_ok cfg).

Lemma valid_Null d s lv : valid cfg hasher d s lv Null.
Proof. destruct d; by left. Qed.

Lemma valid_Filled d s lv : valid cfg hasher d s lv Filled.
Proof. destruct d; right; by left. Qed.

Lemma valid_mono d s s' lv p :
  pool_extends cfg hasher s s' →
  valid cfg hasher d s lv p → valid cfg hasher d s' lv p.
Proof.
  intros Hext. revert lv p. induction d as [|d IH]; intros lv p.
  - intros [->|[->|(ws & Hst & Hok)]]; [by left|right; by left|].
    right. right. exists ws. split; [by apply Hext|done].
  - intros [->|[->|(ws & Hst & cs & Hlen & Hws & Hn & Hf & Hcs)]];
      [by left|right; by left|].
    right. right. exists ws. split; [by apply Hext|].
    exists cs. repeat split; try done.
    eapply Forall_impl; [done|]. intros c. apply IH.
Qed.

(** Reading the voxel under any pointer, one level at a time. *)
Lemma voxel_at_O s p v :
  voxel_at cfg 0 s p v = get_voxel_bit (get_leaf_array cfg s p) (leaf_index v).
Proof.
  unfold voxel_at, get_leaf_array.
  destruct (p =? Null) eqn:E1; [by rewrite get_voxel_bit_zeros|].
  destruct (p =? Filled) eqn:E2; [|done].
  rewrite get_voxel_bit_ones; [done|apply leaf_index_lt].
Qed.

Lemma voxel_at_Null d s v : voxel_at cfg d s Null v = false.
Proof. by destruct d. Qed.

Lemma voxel_at_Filled d s v : voxel_at cfg d s Filled v = true.
Proof. by destruct d. Qed.

Lemma voxel_at_S d s p v :
  voxel_at cfg (S d) s p v
  = voxel_at cfg d s
      (default Null (get_unpacked_node_array cfg s p !! S (child_index d v))) v.
Proof.
  pose proof (child_index_lt d v) as Hlt.
  cbn [voxel_at]. unfold get_unpacked_node_array.
  destruct (p =? Null) eqn:E1.
  { rewrite lookup_cons_S. rewrite lookup_replicate_2 by done. simpl.
    by rewrite voxel_at_Null. }
  destruct (p =? Filled) eqn:E2; [|done].
  rewrite lookup_cons_S. rewrite lookup_replicate_2 by done. simpl.
  by rewrite voxel_at_Filled.
Qed.

(** The children of a valid pointer, as the edit code sees them. *)
Lemma valid_unpacked d s lv p :
  pool_ok cfg hasher s → valid cfg hasher (S d) s lv p →
  ∃ m cs, get_unpacked_node_array cfg s p = m :: cs
          ∧ length cs = 8%nat
          ∧ Forall (valid cfg hasher d s (S lv)) cs.
Proof.
  intros Hs [->|[->|(ws & Hst & cs & Hlen & -> & Hn & Hf & Hcs)]].
  - exists 0, (replicate 8 Null). split; [done|]. split; [done|].
    apply Forall_replicate, valid_Null.
  - exists 0xFF, (replicate 8 Filled). split; [done|]. split; [done|].
    apply Forall_replicate, valid_Filled.
  - exists (child_mask cs), cs. split; [|done].
    by eapply get_unpacked_node_array_stored.
Qed.

(** The words of a valid leaf pointer, as the edit code sees them. *)
Lemma valid_leaf_array s lv p :
  pool_ok cfg hasher s → valid cfg hasher 0 s lv p →
  ∃ w0 w1, get_leaf_array cfg s p = [w0; w1]
           ∧ 0 <= w0 < 2 ^ 32 ∧ 0 <= w1 < 2 ^ 32.
Proof.
  intros Hs [->|[->|(ws & Hst & w0 & w1 & -> & H0 & H1 & _)]].
  - exists 0, 0. split; [done|lia].
  - exists 0xFFFFFFFF, 0xFFFFFFFF. split; [done|lia].
  - exists w0, w1. split; [|done]. by eapply get_leaf_array_stored.
Qed.

(** Growing the pool does not change the voxels under a valid pointer. *)
Lemma voxel_at_mono d s s' lv p v :
  pool_ok cfg hasher s → pool_ok cfg hasher s' → pool_extends cfg hasher s s' →
  valid cfg hasher d s lv p →
  voxel_at cfg d s' p v = voxel_at cfg d s p v.
Proof.
  intros Hs Hs' Hext. revert lv p. induction d as [|d IH]; intros lv p Hv.
  - rewrite !voxel_at_O.
    destruct Hv as [->|[->|(ws & Hst & w0 & w1 & -> & _)]]; [done|done|].
    rewrite (get_leaf_array_stored cfg hasher Hcfg s lv p [w0; w1]) by done.
    rewrite (get_leaf_array_stored cfg hasher Hcfg s' lv p [w0; w1]);
      [done|done|done|by apply Hext].
  - rewrite !voxel_at_S.
    destruct Hv as [->|[->|(ws & Hst & cs & Hlen & -> & Hn & Hf & Hcs)]].
    + rewrite !get_unpacked_node_array_Null.
      rewrite lookup_cons_S.
      destruct (replicate 8 Null !! child_index d v) as [c|] eqn:E; simpl.
      * apply lookup_replicate in E as [-> _]. by rewrite !voxel_at_Null.
      * by rewrite !voxel_at_Null.
    + rewrite !get_unpacked_node_array_Filled.
      rewrite lookup_cons_S.
      destruct (replicate 8 Filled !! child_index d v) as [c|] eqn:E; simpl.
      * apply lookup_replicate in E as [-> _]. by rewrite !voxel_at_Filled.
      * by rewrite !voxel_at_Null.
    + rewrite (get_unpacked_node_array_stored cfg hasher Hcfg s lv p cs) by done.
      rewrite (get_unpacked_node_array_stored cfg hasher Hcfg s' lv p cs);
        [|done|done|by apply Hext].
      rewrite lookup_cons_S.
      destruct (cs !! child_index d v) as [c|] eqn:E; simpl.
      * eapply IH. eapply Forall_lookup_1 in Hcs; done.
      * by rewrite !voxel_at_Null.
Qed.

End voxels.
(** ** Leaf bits *)

Lemma word32_bits w :
  0 <= w < 2 ^ 32 ↔ 0 <= w ∧ ∀ n, 32 <= n → Z.testbit w n = false.
Proof.
  split.
  - intros Hw. split; [lia|]. intros n Hn.
    destruct (decide (w = 0)) as [->|Hne]; [apply Z.testbit_0_l|].
    apply Z.bits_above_log2; [lia|].
    assert (Z.log2 w < 32); [|lia]. apply Z.log2_lt_pow2; lia.
  - intros [Hw Hbits]. split; [done|].
    replace w with (w mod 2 ^ 32); [apply Z.mod_pos_bound; lia|].
    apply Z.bits_inj'. intros n Hn.
    destruct (decide (n < 32)).
    + by rewrite Z.mod_pow2_bits_low.
    + rewrite Z.mod_pow2_bits_high by lia. symmetry. apply Hbits. lia.
Qed.

Lemma setbit_word32 w k : 0 <= w < 2 ^ 32 → 0 <= k < 32 → 0 <= Z.setbit w k < 2 ^ 32.
Proof.
  intros Hw Hk. apply word32_bits in Hw as [Hw Hbits]. apply word32_bits. split.
  - unfold Z.setbit. apply Z.lor_nonneg. split; [done|]. apply Z.shiftl_nonneg. lia.
  - intros n Hn. rewrite Z.setbit_eqb by lia. rewrite Hbits by done.
    destruct (Z.eqb_spec k n); [lia|done].
Qed.

Lemma clearbit_word32 w k : 0 <= w < 2 ^ 32 → 0 <= k < 32 → 0 <= Z.clearbit w k < 2 ^ 32.
Proof.
  intros Hw Hk. apply word32_bits in Hw as [Hw Hbits]. apply word32_bits. split.
  - unfold Z.clearbit. apply Z.ldiff_nonneg. by left.
  - intros n Hn. rewrite Z.clearbit_eqb by lia. by rewrite Hbits.
Qed.

Lemma nat_div_mod_32 (i j : nat) :
  (i / 32 = j / 32)%nat → (i mod 32 = j mod 32)%nat → i = j.
Proof.
  intros Hd Hm. rewrite (Nat.div_mod_eq i 32) at 1.
  rewrite (Nat.div_mod_eq j 32) at 1. by rewrite Hd, Hm.
Qed.

Lemma get_set_voxel_bit w0 w1 (i j : nat) b :
  (i < 64)%nat →
  get_voxel_bit (set_voxel_bit [w0; w1] i b) j
  = if decide (i = j) then b else get_voxel_bit [w0; w1] j.
Proof.
  intros Hi. unfold get_voxel_bit, set_voxel_bit.
  assert (i / 32 < 2)%nat as Hq by (apply Nat.Div0.div_lt_upper_bound; lia).
  pose proof (Nat.mod_upper_bound i 32 ltac:(lia)) as Hmi.
  pose proof (Nat.mod_upper_bound j 32 ltac:(lia)) as Hmj.
  destruct (decide (i / 32 = j / 32)%nat) as [Heq|Hne].
  - rewrite <- Heq. rewrite list_lookup_insert_eq by (cbn [length]; lia).
    cbn [default from_option id].
    destruct ([w0; w1] !! (i / 32)%nat) as [w|] eqn:E;
      [|apply lookup_ge_None in E; cbn [length] in E; lia].
    cbn [default from_option id].
    case_decide as Hij.
    + subst j. destruct b; cbv iota.
      * rewrite Z.setbit_eqb by lia. by rewrite Z.eqb_refl.
      * rewrite Z.clearbit_eqb by lia. rewrite Z.eqb_refl. by rewrite andb_false_r.
    + assert (i mod 32 ≠ j mod 32)%nat as Hm.
      { intros Hm. apply Hij. by apply nat_div_mod_32. }
      destruct b; cbv iota.
      * rewrite Z.setbit_eqb by lia.
        rewrite (proj2 (Z.eqb_neq _ _)) by lia. done.
      * rewrite Z.clearbit_eqb by lia.
        rewrite (proj2 (Z.eqb_neq _ _)) by lia. by rewrite andb_true_r.
  - rewrite list_lookup_insert_ne by done.
    rewrite decide_False; [done|]. intros ->. done.
Qed.

Lemma set_voxel_bit_words w0 w1 (i : nat) b :
  (i < 64)%nat → 0 <= w0 < 2 ^ 32 → 0 <= w1 < 2 ^ 32 →
  ∃ w0' w1', set_voxel_bit [w0; w1] i b = [w0'; w1']
             ∧ 0 <= w0' < 2 ^ 32 ∧ 0 <= w1' < 2 ^ 32.
Proof.
  intros Hi H0 H1. unfold set_voxel_bit.
  assert (i / 32 < 2)%nat as Hq by (apply Nat.Div0.div_lt_upper_bound; lia).
  pose proof (Nat.mod_upper_bound i 32 ltac:(lia)) as Hmi.
  set (k := (i mod 32)%nat) in *.
  destruct (i / 32)%nat as [|[|]] eqn:E; [| |lia]; cbn.
  - eexists _, w1. split; [done|]. split; [|done].
    destruct b; [apply setbit_word32|apply clearbit_word32]; lia.
  - eexists w0, _. split; [done|]. split; [done|].
    destruct b; [apply setbit_word32|apply clearbit_word32]; lia.
Qed.

(** Two in-range leaves with the same 64 bits are the same words. *)
Lemma leaf_words_ext w0 w1 w0' w1' :
  0 <= w0 < 2 ^ 32 → 0 <= w1 < 2 ^ 32 → 0 <= w0' < 2 ^ 32 → 0 <= w1' < 2 ^ 32 →
  (∀ i, (i < 64)%nat → get_voxel_bit [w0; w1] i = get_voxel_bit [w0'; w1'] i) →
  [w0; w1] = [w0'; w1'].
Proof.
  intros H0 H1 H0' H1' Hbits.
  apply word32_bits in H0 as [? Hh0], H1 as [? Hh1], H0' as [? Hh0'], H1' as [? Hh1'].
  f_equal; [|f_equal].
  - apply Z.bits_inj'. intros n Hn. destruct (decide (n < 32)).
    + specialize (Hbits (Z.to_nat n) ltac:(lia)). unfold get_voxel_bit in Hbits.
      rewrite Nat.div_small, Nat.mod_small in Hbits by lia. simpl in Hbits.
      by rewrite Z2Nat.id in Hbits by lia.
    + rewrite Hh0, Hh0' by lia. done.
  - apply Z.bits_inj'. intros n Hn. destruct (decide (n < 32)).
    + specialize (Hbits (32 + Z.to_nat n)%nat ltac:(lia)). unfold get_voxel_bit in Hbits.
      replace ((32 + Z.to_nat n) / 32)%nat with 1%nat in Hbits.
      2:{ apply (Nat.div_unique _ 32 1 (Z.to_nat n)); lia. }
      replace ((32 + Z.to_nat n) mod 32)%nat with (Z.to_nat n) in Hbits.
      2:{ apply (Nat.mod_unique _ 32 1 (Z.to_nat n)); lia. }
      simpl in Hbits. by rewrite Z2Nat.id in Hbits by lia.
    + rewrite Hh1, Hh1' by lia. done.
Qed.

(** ** The loop of [edit_leaf] *)

Section leaf_loop.
Context (cfg : Config) (editor : Editor) (coord : NodeCoord).

Lemma edit_leaf_loop (n : nat) w0 w1 :
  (n <= 64)%nat → 0 <= w0 < 2 ^ 32 → 0 <= w1 < 2 ^ 32 →
  ∃ w0' w1' changed,
    foldl (edit_leaf_step editor coord) ([w0; w1], false) (seq 0 n)
    = ([w0'; w1'], changed)
    ∧ 0 <= w0' < 2 ^ 32 ∧ 0 <= w1' < 2 ^ 32
    ∧ (changed = false → [w0'; w1'] = [w0; w1])
    ∧ ∀ i, (i < 64)%nat →
           get_voxel_bit [w0'; w1'] i
           = if decide (i < n)%nat
             then EditVoxel editor (get_voxel_coord coord i)
                    (get_voxel_bit [w0; w1] i)
             else get_voxel_bit [w0; w1] i.
Proof.
  intros Hn H0 H1. induction n as [|n IH].
  { exists w0, w1, false. repeat split; try done; try lia. }
  destruct IH as (a0 & a1 & ch & Hfold & Ha0 & Ha1 & Hch & Hbits); [lia|].
  rewrite seq_S, foldl_app, Hfold. simpl.
  rewrite (Hbits n) by lia. rewrite decide_False by lia.
  destruct (eqb (get_voxel_bit [w0; w1] n)
              (EditVoxel editor (get_voxel_coord coord n)
                 (get_voxel_bit [w0; w1] n))) eqn:Heq.
  - apply eqb_prop in Heq.
    exists a0, a1, ch. repeat split; try done; try lia.
    intros i Hi. rewrite Hbits by done.
    destruct (decide (i = n)) as [->|Hne].
    + rewrite decide_False by lia. rewrite decide_True by lia. done.
    + destruct (decide (i < n)%nat); [by rewrite decide_True by lia|].
      by rewrite decide_False by lia.
  - destruct (set_voxel_bit_words a0 a1 n
                (EditVoxel editor (get_voxel_coord coord n)
                   (get_voxel_bit [w0; w1] n)) ltac:(lia) Ha0 Ha1)
      as (b0 & b1 & Hset & Hb0 & Hb1).
    exists b0, b1, true. rewrite Hset. repeat split; try done; try lia.
    intros i Hi. rewrite <- Hset. rewrite get_set_voxel_bit by lia.
    destruct (decide (n = i)) as [->|Hne].
    + by rewrite decide_True by lia.
    + rewrite Hbits by done.
      destruct (decide (i < n)%nat); [by rewrite decide_True by lia|].
      by rewrite decide_False by lia.
Qed.

End leaf_loop.
(** ** Cubes and coordinates *)

Lemma in_cube_voxel_coord coord v :
  in_cube 2 coord v →
  get_voxel_coord coord (leaf_index v) = mk_coord (S (S (level coord))) v.
Proof.
  destruct v as [x y z], coord as [lv [px py pz]].
  unfold in_cube, get_voxel_coord, leaf_index. simpl.
  change (2 ^ Z.of_nat 2) with 4. intros (Hx & Hy & Hz).
  rewrite Z2Nat.id by (Z.to_euclidean_division_equations; lia).
  f_equal. f_equal; Z.to_euclidean_division_equations; lia.
Qed.

Lemma in_cube_child_coord k coord v :
  in_cube (S (k + 2)) coord v →
  in_cube (k + 2) (get_child_coord coord (child_index k v)) v.
Proof.
  destruct v as [x y z], coord as [lv [px py pz]].
  unfold in_cube, get_child_coord, child_index. simpl vx; simpl vy; simpl vz.
  cbn [pos level].
  rewrite Nat2Z.inj_succ, Z.pow_succ_r by lia.
  set (K := 2 ^ Z.of_nat (k + 2)).
  assert (0 < K) as HK by (apply Z.pow_pos_nonneg; lia).
  intros (Hx & Hy & Hz).
  rewrite (Z.mul_comm 2 K) in Hx, Hy, Hz.
  rewrite <- !Z.div_div in Hx, Hy, Hz by lia.
  set (a := x / K) in *. set (b := y / K) in *. set (c := z / K) in *.
  clearbody a b c.
  rewrite Z2Nat.id by (Z.to_euclidean_division_equations; lia).
  repeat split; Z.to_euclidean_division_equations; lia.
Qed.

Lemma filter_length_eq {A} (P : A → Prop) `{∀ x, Decision (P x)} (l : list A) :
  length (filter P l) = length l → filter P l = l.
Proof.
  induction l as [|x l IH]; [done|]. rewrite filter_cons. case_decide.
  - simpl. intros [=]. f_equal. by apply IH.
  - intros Hlen. pose proof (length_filter P l). simpl in Hlen. lia.
Qed.

(** ** Soundness of the recursive edit *)

Section edit_sound.
Context (cfg : Config) (hasher : list Z → Z) (Hcfg : cfg_ok cfg).
Context (Hlevels : (0 < GetNodeLevels cfg)%nat).
Context (editor : Editor) (R : u32vec3 → bool → bool → Prop).
Context (HR : editor_respects cfg editor R).

Lemma pool_extends_refl s : pool_extends cfg hasher s s.
Proof. by intros lv a ws. Qed.

Lemma pool_extends_trans s1 s2 s3 :
  pool_extends cfg hasher s1 s2 → pool_extends cfg hasher s2 s3 →
  pool_extends cfg hasher s1 s3.
Proof. intros H12 H23 lv a ws H. by apply H23, H12. Qed.

Lemma edit_leaf_sound p coord s p' s' :
  level coord = GetLeafLevel cfg →
  pool_ok cfg hasher s → valid cfg hasher 0 s (level coord) p →
  edit_leaf cfg hasher editor p coord s = Ok (p', s') →
  edit_post cfg hasher R 0 coord s p s' p'.
Proof.
  intros Hlv Hs Hv. unfold edit_leaf.
  destruct (valid_leaf_array cfg hasher Hcfg s _ p Hs Hv)
    as (w0 & w1 & Harr & H0 & H1).
  rewrite Harr.
  destruct (edit_leaf_loop editor coord 64 w0 w1 ltac:(lia) H0 H1)
    as (a0 & a1 & ch & Hfold & Ha0 & Ha1 & Hch & Hbits).
  rewrite Hfold.
  assert (∀ v, in_cube 2 coord v →
               R v (voxel_at cfg 0 s p v) (get_voxel_bit [a0; a1] (leaf_index v)))
    as Hrel.
  { intros v Hin. rewrite voxel_at_O, Harr.
    rewrite Hbits by apply leaf_index_lt.
    rewrite decide_True by apply leaf_index_lt.
    rewrite (in_cube_voxel_coord coord v Hin).
    apply (er_voxel _ _ _ HR (mk_coord (S (S (level coord))) v)).
    simpl. rewrite Hlv. unfold GetVoxelLevel, GetLeafLevel. lia. }
  assert ((level coord < GetNodeLevels cfg)%nat) as Hlt.
  { rewrite Hlv. unfold GetLeafLevel. lia. }
  destruct ch; cbn [negb].
  - unfold upsert_leaf. case_decide as E0; [|case_decide as E1].
    + intros [= <- <-]. split; [done|]. split; [apply pool_extends_refl|].
      split; [apply valid_Null|].
      intros v Hin. rewrite voxel_at_Null.
      specialize (Hrel v Hin). rewrite E0, get_voxel_bit_zeros in Hrel. done.
    + intros [= <- <-]. split; [done|]. split; [apply pool_extends_refl|].
      split; [apply valid_Filled|].
      intros v Hin. rewrite voxel_at_Filled.
      specialize (Hrel v Hin).
      rewrite E1, get_voxel_bit_ones in Hrel by apply leaf_index_lt. done.
    + intros Hup.
      assert (wf_node cfg (level coord) [a0; a1]) as Hwf.
      { exists a0, [a1]. split; [done|]. unfold node_size.
        by rewrite decide_True. }
      destruct (upsert_node_spec cfg hasher Hcfg s _ _ p' s' Hs Hlt Hwf Hup)
        as (Hs' & Hst & Hiff).
      split; [done|]. split.
      { intros lv a ws H. apply Hiff. by left. }
      split.
      { right. right. exists [a0; a1]. split; [done|].
        exists a0, a1. done. }
      intros v Hin. rewrite (voxel_at_O cfg s' p' v).
      rewrite (get_leaf_array_stored cfg hasher Hcfg s' _ p' [a0; a1]) by done.
      by apply Hrel.
  - intros [= <- <-]. split; [done|]. split; [apply pool_extends_refl|].
    split; [done|].
    intros v Hin. specialize (Hrel v Hin). rewrite Hch in Hrel by done.
    rewrite voxel_at_O, Harr in Hrel. by rewrite voxel_at_O, Harr.
Qed.

Section inner.
Context (d : nat) (rec : NodePointer → NodeCoord → M NodePointer).
Context (Hrec : ∀ p coord s p' s',
            (level coord + d)%nat = GetLeafLevel cfg →
            pool_ok cfg hasher s → valid cfg hasher d s (level coord) p →
            rec p coord s = Ok (p', s') →
            edit_post cfg hasher R d coord s p s' p').

Lemma edit_child_sound cc c s c' ch s' :
  (level cc + d)%nat = GetLeafLevel cfg →
  pool_ok cfg hasher s → valid cfg hasher d s (level cc) c →
  edit_child rec editor cc c s = Ok ((c', ch), s') →
  edit_post cfg hasher R d cc s c s' c' ∧ (ch = false → c' = c).
Proof.
  intros Hlv Hs Hv. unfold edit_child.
  assert (GetVoxelLevel cfg - level cc = d + 2)%nat as Hk.
  { unfold GetVoxelLevel, GetLeafLevel in *. lia. }
  destruct (EditNode editor cc c) eqn:Hdec.
  - intros [= <- <- <-]. split; [|done].
    split; [done|]. split; [apply pool_extends_refl|]. split; [done|].
    intros v Hin. eapply (er_not_affected _ _ _ HR); [done|]. by rewrite Hk.
  - intros [= <- <- <-]. split; [|done].
    split; [done|]. split; [apply pool_extends_refl|]. split; [apply valid_Null|].
    intros v Hin. rewrite voxel_at_Null.
    eapply (er_clear _ _ _ HR); [done|]. by rewrite Hk.
  - intros [= <- <- <-]. split; [|done].
    split; [done|]. split; [apply pool_extends_refl|].
    split; [apply valid_Filled|].
    intros v Hin. unfold get_filled_node_pointer. rewrite voxel_at_Filled.
    eapply (er_fill _ _ _ HR); [done|]. by rewrite Hk.
  - unfold bindM, ret. destruct (rec c cc s) as [[q s1]|] eqn:Hr; [|done].
    intros [= <- <- <-]. split; [by eapply Hrec|].
    intros Hn. apply negb_false_iff, Z.eqb_eq in Hn. done.
Qed.

Lemma edit_children_sound coord cs i s ncs ch s1 :
  (S (level coord) + d)%nat = GetLeafLevel cfg →
  pool_ok cfg hasher s → Forall (valid cfg hasher d s (S (level coord))) cs →
  edit_children rec editor coord i cs s = Ok ((ncs, ch), s1) →
  pool_ok cfg hasher s1
  ∧ pool_extends cfg hasher s s1
  ∧ Forall (valid cfg hasher d s1 (S (level coord))) ncs
  ∧ length ncs = length cs
  ∧ (ch = false → ncs = cs)
  ∧ ∀ j c c', cs !! j = Some c → ncs !! j = Some c' →
      ∀ v, in_cube (d + 2) (get_child_coord coord (i + j)) v →
           R v (voxel_at cfg d s c v) (voxel_at cfg d s1 c' v).
Proof.
  intros Hlv. revert i s ncs ch s1.
  induction cs as [|c cs IH]; intros i s ncs ch s1 Hs Hvs.
  { intros [= <- <- <-]. split; [done|]. split; [apply pool_extends_refl|].
    split; [done|]. split; [done|]. split; [done|].
    intros j c c' Hj. by rewrite lookup_nil in Hj. }
  cbn [edit_children]. unfold bindM at 1.
  destruct (edit_child rec editor (get_child_coord coord i) c s)
    as [[[c' ch1] s2]|] eqn:Hc; [|done].
  apply Forall_cons in Hvs as [Hvc Hvs].
  destruct (edit_child_sound (get_child_coord coord i) c s c' ch1 s2
              Hlv Hs Hvc Hc) as [(Hs2 & Hext2 & Hv2 & Hrel2) Hch1].
  unfold bindM at 1.
  destruct (edit_children rec editor coord (S i) cs s2)
    as [[[ncs' ch2] s3]|] eqn:Hcs; [|done].
  unfold ret. cbn [fst snd]. intros [= <- <- <-].
  assert (Forall (valid cfg hasher d s2 (S (level coord))) cs) as Hvs2.
  { eapply Forall_impl; [done|]. intros x. by apply valid_mono. }
  destruct (IH (S i) s2 ncs' ch2 s3 Hs2 Hvs2 Hcs)
    as (Hs3 & Hext3 & Hv3 & Hlen3 & Hch2 & Hrel3).
  split; [done|]. split; [by eapply pool_extends_trans|].
  split.
  { constructor; [|done]. by eapply valid_mono. }
  split; [simpl; lia|].
  split.
  { intros [-> ->]%orb_false_iff. f_equal; [by apply Hch1|by apply Hch2]. }
  intros j x x' Hx Hx' v Hin. destruct j as [|j].
  - simpl in Hx, Hx'. injection Hx as <-. injection Hx' as <-.
    rewrite Nat.add_0_r in Hin.
    rewrite (voxel_at_mono cfg hasher Hcfg d s2 s3 (S (level coord)) c' v)
      by done.
    by apply Hrel2.
  - simpl in Hx, Hx'.
    replace (i + S j)%nat with (S i + j)%nat in Hin by lia.
    specialize (Hrel3 j x x' Hx Hx' v Hin).
    rewrite (voxel_at_mono cfg hasher Hcfg d s s2 (S (level coord)) x v)
      in Hrel3; try done.
    eapply Forall_lookup_1 in Hvs; done.
Qed.

Lemma edit_inner_node_sound p coord s p' s' :
  (level coord + S d)%nat = GetLeafLevel cfg →
  pool_ok cfg hasher s → valid cfg hasher (S d) s (level coord) p →
  edit_inner_node cfg hasher rec editor p coord s = Ok (p', s') →
  edit_post cfg hasher R (S d) coord s p s' p'.
Proof.
  intros Hlv Hs Hv. unfold edit_inner_node.
  destruct (valid_unpacked cfg hasher Hcfg d s _ p Hs Hv)
    as (m & cs & Harr & Hlen & Hcs).
  rewrite Harr. cbn [drop take app]. rewrite drop_0, take_0. cbn [app].
  unfold bindM at 1.
  destruct (edit_children rec editor coord 0 cs s) as [[[ncs ch] s1]|] eqn:Hloop;
    [|done].
  destruct (edit_children_sound coord cs 0 s ncs ch s1 ltac:(lia) Hs Hcs Hloop)
    as (Hs1 & Hext1 & Hv1 & Hlen1 & Hch & Hrel).
  assert (∀ v, in_cube (S d + 2) coord v →
            ∃ c', ncs !! child_index d v = Some c'
                  ∧ R v (voxel_at cfg (S d) s p v) (voxel_at cfg d s1 c' v))
    as Hrel'.
  { intros v Hin. pose proof (child_index_lt d v) as Hci.
    destruct (lookup_lt_is_Some_2 cs (child_index d v) ltac:(lia)) as [c Hc].
    destruct (lookup_lt_is_Some_2 ncs (child_index d v) ltac:(lia)) as [c' Hc'].
    exists c'. split; [done|].
    rewrite voxel_at_S, Harr, lookup_cons_S, Hc. cbn [default from_option id].
    eapply Hrel; [done|done|]. by apply in_cube_child_coord. }
  assert ((level coord < GetNodeLevels cfg)%nat) as Hlt.
  { unfold GetLeafLevel in Hlv. lia. }
  cbn [fst snd]. destruct ch; cbn [negb].
  - rewrite get_packed_node_inplace_cons.
    unfold upsert_inner_node. case_decide as E0; [|case_decide as E1].
    + intros [= <- <-]. split; [done|]. split; [done|].
      split; [apply valid_Null|].
      intros v Hin. destruct (Hrel' v Hin) as (c' & Hc' & HR').
      injection E0 as Hm Hf. apply child_mask_zero in Hm.
      eapply Forall_lookup_1 in Hm; [|done]. subst c'.
      by rewrite !voxel_at_Null in *.
    + intros [= <- <-]. split; [done|]. split; [done|].
      split; [apply valid_Filled|].
      intros v Hin. destruct (Hrel' v Hin) as (c' & Hc' & HR').
      injection E1 as Hm Hf.
      assert (ncs = replicate 8 Filled) as ->.
      { transitivity (filter (λ c, ptr_bool c = true) ncs); [|exact Hf].
        symmetry. apply filter_length_eq. rewrite Hf. simpl. lia. }
      apply lookup_replicate in Hc' as [-> _].
      by rewrite !voxel_at_Filled in *.
    + intros Hup.
      assert (wf_node cfg (level coord)
                (child_mask ncs :: filter (λ c, ptr_bool c = true) ncs)) as Hwf.
      { rewrite <- (get_packed_node_inplace_cons 0).
        apply get_packed_node_inplace_wf; lia. }
      destruct (upsert_node_spec cfg hasher Hcfg s1 _ _ p' s' Hs1 Hlt Hwf Hup)
        as (Hs' & Hst & Hiff).
      assert (pool_extends cfg hasher s1 s') as Hext'.
      { intros lv a ws H. apply Hiff. by left. }
      split; [done|]. split; [by eapply pool_extends_trans|].
      split.
      { right. right. eexists. split; [done|]. exists ncs.
        split; [lia|]. split; [done|]. split; [done|]. split; [done|].
        eapply Forall_impl; [done|]. intros x. by apply valid_mono. }
      intros v Hin. destruct (Hrel' v Hin) as (c' & Hc' & HR').
      rewrite (voxel_at_S cfg d s' p' v).
      rewrite (get_unpacked_node_array_stored cfg hasher Hcfg s' (level coord)
                 p' ncs);
        [|done|lia|done].
      rewrite lookup_cons_S, Hc'. cbn [default from_option id].
      rewrite (voxel_at_mono cfg hasher Hcfg d s1 s' (S (level coord)) c' v);
        try done.
      eapply Forall_lookup_1 in Hv1; done.
  - intros [= <- <-]. split; [done|]. split; [done|].
    split; [by eapply valid_mono|].
    intros v Hin. destruct (Hrel' v Hin) as (c' & Hc' & HR').
    rewrite (Hch eq_refl) in Hc'.
    rewrite (voxel_at_mono cfg hasher Hcfg (S d) s s1 (level coord) p v)
      by done.
    rewrite (voxel_at_mono cfg hasher Hcfg d s s1 (S (level coord)) c' v)
      in HR'; try done.
    2:{ eapply Forall_lookup_1 in Hcs; done. }
    rewrite voxel_at_S, Harr, lookup_cons_S, Hc' in HR' |- *. done.
Qed.

End inner.

(** The recursive edit is sound for every editor that respects [R]. *)
Theorem edit_node_at_sound d p coord s p' s' :
  (level coord + d)%nat = GetLeafLevel cfg →
  pool_ok cfg hasher s → valid cfg hasher d s (level coord) p →
  edit_node_at cfg hasher d editor p coord s = Ok (p', s') →
  edit_post cfg hasher R d coord s p s' p'.
Proof.
  revert p coord s p' s'. induction d as [|d IH]; intros p coord s p' s' Hlv Hs Hv.
  - cbn [edit_node_at]. apply edit_leaf_sound; [lia|done|done].
  - cbn [edit_node_at]. by apply edit_inner_node_sound.
Qed.

End edit_sound.
(** ** The decisions of the editor *)



(** ** Edits that change nothing *)

Section unchanged.
Context (cfg : Config) (hasher : list Z → Z) (editor : Editor).
Context (Hvoxel : ∀ coord b, EditVoxel editor coord b = b).
Context (Hnode : ∀ coord p, EditNode editor coord p = kNotAffected
                            ∨ EditNode editor coord p = kProceed).

Lemma edit_leaf_loop_unchanged coord leaf_data l :
  foldl (edit_leaf_step editor coord) (leaf_data, false) l = (leaf_data, false).
Proof.
  induction l as [|i l IH]; [done|]. simpl.
  rewrite Hvoxel, eqb_reflx. apply IH.
Qed.

Lemma edit_children_unchanged rec coord i cs s :
  (∀ p c s, rec p c s = Ok (p, s)) →
  edit_children rec editor coord i cs s = Ok ((cs, false), s).
Proof.
  intros Hrec. revert i. induction cs as [|c cs IH]; intros i; [done|].
  cbn [edit_children]. unfold bindM at 1.
  assert (edit_child rec editor (get_child_coord coord i) c s = Ok ((c, false), s))
    as ->.
  { unfold edit_child. destruct (Hnode (get_child_coord coord i) c) as [->| ->].
    - done.
    - unfold bindM, ret. rewrite Hrec. by rewrite Z.eqb_refl. }
  unfold bindM. by rewrite IH.
Qed.

(** Such an edit returns its input pointer and leaves the pool as it
    was. *)
Lemma edit_node_at_unchanged d p coord s :
  edit_node_at cfg hasher d editor p coord s = Ok (p, s).
Proof.
  revert p coord s. induction d as [|d IH]; intros p coord s.
  - cbn [edit_node_at]. unfold edit_leaf.
    by rewrite edit_leaf_loop_unchanged.
  - cbn [edit_node_at]. unfold edit_inner_node, bindM.
    by rewrite edit_children_unchanged.
Qed.

End unchanged.

(** ** SphereEditor *)

Lemma SphereEditor_EditNode_not_fill_dig cfg e coord p :
  SphereEditor_EditNode mDig cfg e coord p ≠ kFill.
Proof.
  unfold SphereEditor_EditNode.
  repeat (case_match; try discriminate).
Qed.

Lemma SphereEditor_EditNode_color_paint cfg e coord ptr c :
  (SphereEditor_EditNode_color mPaint cfg e coord ptr c).1 = kNotAffected
  ∨ (SphereEditor_EditNode_color mPaint cfg e coord ptr c).1 = kProceed.
Proof.
  unfold SphereEditor_EditNode_color.
  destruct (SphereEditor_EditNode mPaint cfg e coord Null) eqn:E.
  - repeat case_match; simplify_eq/=; by left.
  - exfalso. revert E. unfold SphereEditor_EditNode.
    repeat (case_match; try discriminate).
  - repeat case_match; simplify_eq/=; by left.
  - repeat case_match; simplify_eq/=; (by left) || (by right).
Qed.

(** C9: a SphereEditor in Paint mode never changes geometry.  Its
    [EditVoxel] returns the input bit (both overloads); its
    colour-threading [EditNode] never returns kClear or kFill, turns a
    would-be kFill into kNotAffected, and returns kNotAffected on a Null
    subtree; so the edit of any subtree returns the pointer it was given
    and leaves the node pool as it was, and every voxel keeps its
    occupancy. *)
Theorem C9_paint_preserves_geometry (cfg : Config) (hasher : list Z → Z)
    (e : SphereEditor) (coord : NodeCoord) (voxel : bool) (ptr : NodePointer)
    (color : VBRColor) (colors : NodeCoord → NodePointer → VBRColor)
    (voxel_colors : NodeCoord → VBRColor) (s : NodePool) (d : nat) (v : u32vec3) :
  SphereEditor_EditVoxel mPaint e coord voxel = voxel
  ∧ (SphereEditor_EditVoxel_color mPaint e coord voxel color).1 = voxel
  ∧ (SphereEditor_EditNode_color mPaint cfg e coord ptr color).1 ≠ kClear
  ∧ (SphereEditor_EditNode_color mPaint cfg e coord ptr color).1 ≠ kFill
  ∧ (SphereEditor_EditNode mPaint cfg e coord Null = kFill →
     (SphereEditor_EditNode_color mPaint cfg e coord ptr color).1 = kNotAffected)
  ∧ (SphereEditor_EditNode_color mPaint cfg e coord Null color).1 = kNotAffected
  ∧ (let editor := vbr_as_editor (sphere_vbr_editor mPaint cfg e) colors voxel_colors in
     edit_node_at cfg hasher d editor ptr coord s = Ok (ptr, s)
     ∧ edit_node cfg hasher editor ptr coord s = Ok (ptr, s)
     ∧ ∀ ptr' s', edit_node cfg hasher editor ptr coord s = Ok (ptr', s') →
                  voxel_at cfg d s' ptr' v = voxel_at cfg d s ptr v).
Proof.
  split; [done|]. split; [done|].
  pose proof (SphereEditor_EditNode_color_paint cfg e coord ptr color) as Hp.
  split; [destruct Hp as [-> | ->]; done|].
  split; [destruct Hp as [-> | ->]; done|].
  split.
  { intros E. unfold SphereEditor_EditNode_color. rewrite E.
    by destruct (ptr_bool ptr). }
  split.
  { unfold SphereEditor_EditNode_color.
    by destruct (SphereEditor_EditNode mPaint cfg e coord Null). }
  intros editor.
  assert (∀ d p c s, edit_node_at cfg hasher d editor p c s = Ok (p, s)) as Hsame.
  { intros d0 p0 c0 s0. apply edit_node_at_unchanged.
    - done.
    - intros c p. apply SphereEditor_EditNode_color_paint. }
  split; [apply Hsame|]. split; [apply Hsame|].
  intros ptr' s'. unfold edit_node. rewrite Hsame. by intros [= <- <-].
Qed.
(** ** Worlds produced by edits *)

Lemma any_editor_respects cfg editor : editor_respects cfg editor any_change.
Proof. by split. Qed.

Lemma edit_node_sound cfg hasher editor R root s root' s' :
  cfg_ok cfg → (0 < GetNodeLevels cfg)%nat → editor_respects cfg editor R →
  pool_ok cfg hasher s → valid cfg hasher (GetLeafLevel cfg) s 0 root →
  edit_node cfg hasher editor root root_coord s = Ok (root', s') →
  edit_post cfg hasher R (GetLeafLevel cfg) root_coord s root s' root'.
Proof.
  intros Hcfg Hlv HR Hs Hv. unfold edit_node. simpl level.
  rewrite Nat.sub_0_r. by apply edit_node_at_sound.
Qed.

(** Every world that edits can produce keeps the pool invariant, and its
    root is valid. *)
Lemma edited_world_ok cfg hasher s root :
  cfg_ok cfg → (0 < GetNodeLevels cfg)%nat →
  edited_world cfg hasher s root →
  pool_ok cfg hasher s ∧ valid cfg hasher (GetLeafLevel cfg) s 0 root.
Proof.
  intros Hcfg Hlv. induction 1 as [|s root editor root' s' _ [Hs Hv] Hedit].
  - split; [by apply pool_ok_empty|apply valid_Null].
  - destruct (edit_node_sound cfg hasher editor any_change root s root' s'
                Hcfg Hlv (any_editor_respects _ _) Hs Hv Hedit)
      as (Hs' & _ & Hv' & _).
    done.
Qed.

(** ** Normalization *)

Section normalization.
Context (cfg : Config) (hasher : list Z → Z) (Hcfg : cfg_ok cfg).

Lemma reachable_valid s d lv p d' q :
  pool_ok cfg hasher s → valid cfg hasher d s lv p →
  reachable cfg s d p d' q → ∃ lv', valid cfg hasher d' s lv' q.
Proof.
  intros Hs Hv Hr. revert lv Hv.
  induction Hr as [d p|d p i c d' q Hi Hc Hr IH]; intros lv Hv.
  - by exists lv.
  - destruct (valid_unpacked cfg hasher Hcfg d s lv p Hs Hv)
      as (m & cs & Harr & Hlen & Hcs).
    rewrite Harr, lookup_cons_S in Hc.
    eapply Forall_lookup_1 in Hcs; [|done]. by eapply IH.
Qed.

Lemma valid_normalized s d lv q :
  pool_ok cfg hasher s → valid cfg hasher d s lv q →
  q ≠ Null → q ≠ Filled →
  ¬ all_children cfg s d q Null ∧ ¬ all_children cfg s d q Filled.
Proof.
  intros Hs Hv Hn Hf. destruct d as [|d].
  - destruct Hv as [->|[->|(ws & Hst & w0 & w1 & -> & _ & _ & Hz & Ho)]];
      [done|done|].
    unfold all_children.
    rewrite (get_leaf_array_stored cfg hasher Hcfg s lv q [w0; w1]) by done.
    split; intros E; [by apply Hz|by apply Ho].
  - destruct Hv as [->|[->|(ws & Hst & cs & Hlen & -> & Hz & Ho & _)]];
      [done|done|].
    unfold all_children.
    rewrite (get_unpacked_node_array_stored cfg hasher Hcfg s lv q cs) by done.
    cbn [drop]. rewrite drop_0.
    split; intros ->; [by apply Hz|by apply Ho].
Qed.

End normalization.

(** C2 (normalization): before the upsert, a leaf whose 64 bits are all
    0 is replaced by Null and one whose bits are all 1 by Filled; an inner
    node whose children are all Null is replaced by Null and one whose
    children are all Filled by Filled (nothing is written to the pool).
    Consequently, in every world that edits can produce, no node reachable
    from the root has all children Null or all children Filled. *)
Theorem C2_normalization (cfg : Config) (hasher : list Z → Z) (lv : nat)
    (m : Z) (s : NodePool) (root : NodePointer) (d : nat) (q : NodePointer) :
  upsert_leaf cfg hasher lv [0; 0] s = Ok (Null, s)
  ∧ upsert_leaf cfg hasher lv [0xFFFFFFFF; 0xFFFFFFFF] s = Ok (Filled, s)
  ∧ upsert_inner_node cfg hasher lv
      (get_packed_node_inplace (m :: replicate 8 Null)) s = Ok (Null, s)
  ∧ upsert_inner_node cfg hasher lv
      (get_packed_node_inplace (m :: replicate 8 Filled)) s = Ok (Filled, s)
  ∧ (cfg_ok cfg → (0 < GetNodeLevels cfg)%nat →
     edited_world cfg hasher s root →
     reachable cfg s (GetLeafLevel cfg) root d q →
     q ≠ Null → q ≠ Filled →
     ¬ all_children cfg s d q Null ∧ ¬ all_children cfg s d q Filled).
Proof.
  split; [done|]. split; [done|]. split; [done|]. split; [done|].
  intros Hcfg Hlv Hw Hr Hn Hf.
  destruct (edited_world_ok cfg hasher s root Hcfg Hlv Hw) as [Hs Hv].
  destruct (reachable_valid cfg hasher Hcfg s _ _ _ _ _ Hs Hv Hr) as [lv' Hq].
  by eapply valid_normalized.
Qed.

(** ** Dig *)

Lemma sphere_dig_respects cfg e :
  editor_respects cfg (sphere_editor mDig cfg e) only_clears.
Proof.
  split; unfold only_clears; simpl.
  - intros coord b _. by intros [? _]%andb_true_iff.
  - done.
  - done.
  - intros coord p v b Hfill. by apply SphereEditor_EditNode_not_fill_dig in Hfill.
Qed.

(** C10: a SphereEditor in Dig mode only removes voxels.  [EditVoxel]
    returns [voxel && !VoxelInRange(coord)], so an unoccupied voxel stays
    unoccupied; [EditNode] never returns kFill, and returns kClear for a
    fully covered subtree; hence after a dig edit of any world, every
    voxel that is occupied was occupied before the edit. *)
Theorem C10_dig_only_removes (cfg : Config) (hasher : list Z → Z)
    (e : SphereEditor) (coord : NodeCoord) (voxel : bool) (ptr : NodePointer)
    (s : NodePool) (root : NodePointer) (s' : NodePool) (root' : NodePointer)
    (v : u32vec3) :
  SphereEditor_EditVoxel mDig e coord voxel
  = voxel && negb (SphereEditor_VoxelInRange e coord)
  ∧ SphereEditor_EditVoxel mDig e coord false = false
  ∧ SphereEditor_EditNode mDig cfg e coord ptr ≠ kFill
  ∧ (SphereEditor_max_n2 cfg e coord <= r2 e →
     SphereEditor_EditNode mDig cfg e coord ptr = kClear)
  ∧ (cfg_ok cfg → (0 < GetNodeLevels cfg)%nat →
     edited_world cfg hasher s root →
     edit_node cfg hasher (sphere_editor mDig cfg e) root root_coord s
     = Ok (root', s') →
     in_cube (GetLeafLevel cfg + 2) root_coord v →
     voxel_at cfg (GetLeafLevel cfg) s' root' v = true →
     voxel_at cfg (GetLeafLevel cfg) s root v = true).
Proof.
  split; [done|]. split; [done|].
  split; [apply SphereEditor_EditNode_not_fill_dig|].
  split.
  { intros Hmax. unfold SphereEditor_EditNode.
    fold (SphereEditor_max_n2 cfg e coord).
    by rewrite (proj2 (Z.leb_le _ _) Hmax). }
  intros Hcfg Hlv Hw Hedit Hin.
  destruct (edited_world_ok cfg hasher s root Hcfg Hlv Hw) as [Hs Hv].
  destruct (edit_node_sound cfg hasher _ only_clears root s root' s'
              Hcfg Hlv (sphere_dig_respects cfg e) Hs Hv Hedit)
    as (_ & _ & _ & Hrel).
  by apply Hrel.
Qed.
Lemma example_levels : (0 < GetNodeLevels example_config)%nat.
Proof. vm_compute. lia. Qed.

Lemma C2_normalization_witness :
  ∃ root s,
    edit_node example_config example_hasher
      (aabb_editor example_config example_aabb) Null root_coord
      (empty_pool example_config) = Ok (root, s)
    ∧ ¬ all_children example_config s 1 root Null
    ∧ ¬ all_children example_config s 1 root Filled.
Proof.
  destruct (edit_node example_config example_hasher
              (aabb_editor example_config example_aabb) Null root_coord
              (empty_pool example_config)) as [[root s]|] eqn:E;
    [|vm_compute in E; discriminate].
  exists root, s. split; [reflexivity|].
  apply (proj2 (proj2 (proj2 (proj2
           (C2_normalization example_config example_hasher 0 0 s root 1 root))))).
  - exact example_config_ok.
  - exact example_levels.
  - eapply edited_step; [apply edited_empty|exact E].
  - apply reachable_self.
  - vm_compute in E. injection E as <- _. discriminate.
  - vm_compute in E. injection E as <- _. discriminate.
Defined.

Lemma C9_paint_preserves_geometry_witness :
  ∃ root s,
    edit_node example_config example_hasher
      (aabb_editor example_config example_aabb) Null root_coord
      (empty_pool example_config) = Ok (root, s)
    ∧ edit_node example_config example_hasher
        (vbr_as_editor (sphere_vbr_editor mPaint example_config example_sphere)
           (λ _ _, 0) (λ _, 0)) root root_coord s = Ok (root, s).
Proof.
  destruct (edit_node example_config example_hasher
              (aabb_editor example_config example_aabb) Null root_coord
              (empty_pool example_config)) as [[root s]|] eqn:E;
    [|vm_compute in E; discriminate].
  exists root, s. split; [reflexivity|].
  apply (C9_paint_preserves_geometry example_config example_hasher example_sphere
           root_coord true root 0 (λ _ _, 0) (λ _, 0) s 1 (mk_vec3 3 0 0)).
Defined.

Lemma C10_dig_only_removes_witness :
  ∃ root s root' s',
    edit_node example_config example_hasher
      (aabb_editor example_config example_aabb) Null root_coord
      (empty_pool example_config) = Ok (root, s)
    ∧ edit_node example_config example_hasher
        (sphere_editor mDig example_config example_sphere) root root_coord s
      = Ok (root', s')
    ∧ (voxel_at example_config 1 s' root' (mk_vec3 4 0 0) = true →
       voxel_at example_config 1 s root (mk_vec3 4 0 0) = true).
Proof.
  destruct (edit_node example_config example_hasher
              (aabb_editor example_config example_aabb) Null root_coord
              (empty_pool example_config)) as [[root s]|] eqn:E;
    [|vm_compute in E; discriminate].
  destruct (edit_node example_config example_hasher
              (sphere_editor mDig example_config example_sphere) root root_coord s)
    as [[root' s']|] eqn:E'.
  2:{ exfalso. vm_compute in E. injection E as <- <-.
      vm_compute in E'. discriminate. }
  exists root, s, root', s'. split; [reflexivity|]. split; [exact E'|].
  apply (proj2 (proj2 (proj2 (proj2
           (C10_dig_only_removes example_config example_hasher example_sphere
              root_coord true root s root s' root' (mk_vec3 4 0 0)))))).
  - exact example_config_ok.
  - exact example_levels.
  - eapply edited_step; [apply edited_empty|exact E].
  - exact E'.
  - vm_compute. done.
Defined.
(** ** Canonical form: pointers with the same voxels are equal *)

Lemma leaf_voxel_index i : (i < 64)%nat → leaf_index (leaf_voxel i) = i.
Proof.
  intros Hi. unfold leaf_index, leaf_voxel. simpl.
  rewrite !Z.mod_mod by lia.
  assert (Z.of_nat i mod 4 + 4 * ((Z.of_nat i / 4) mod 4)
          + 16 * ((Z.of_nat i / 16) mod 4) = Z.of_nat i) as ->; [|lia].
  Z.to_euclidean_division_equations. lia.
Qed.

Lemma leaf_voxel_in_range i : in_range 0 (leaf_voxel i).
Proof.
  unfold in_range, leaf_voxel. change (2 ^ Z.of_nat (0 + 2)) with 4. simpl.
  repeat split; Z.to_euclidean_division_equations; lia.
Qed.

Lemma leaf_index_same_low_bits v v' :
  same_low_bits 0 v v' → leaf_index v = leaf_index v'.
Proof.
  unfold same_low_bits, leaf_index. change (2 ^ Z.of_nat (0 + 2)) with 4.
  by intros (-> & -> & ->).
Qed.

Lemma div_mod2_low k x y :
  0 <= k → x mod 2 ^ (k + 1) = y mod 2 ^ (k + 1) →
  (x / 2 ^ k) mod 2 = (y / 2 ^ k) mod 2.
Proof.
  intros Hk Heq.
  rewrite <- !Z.testbit_spec' by done. f_equal.
  rewrite <- (Z.mod_pow2_bits_low x (k + 1) k) by lia.
  rewrite <- (Z.mod_pow2_bits_low y (k + 1) k) by lia.
  by rewrite Heq.
Qed.

Lemma mod_pow2_low k x y :
  0 <= k → x mod 2 ^ (k + 1) = y mod 2 ^ (k + 1) → x mod 2 ^ k = y mod 2 ^ k.
Proof.
  intros Hk Heq.
  assert (0 < 2 ^ k) as Hpos by (apply Z.pow_pos_nonneg; lia).
  assert (∀ a, a mod 2 ^ k = (a mod 2 ^ (k + 1)) mod 2 ^ k) as Hmm.
  { intros a. symmetry. apply Z.mod_mod_divide.
    exists 2. rewrite Z.pow_add_r by lia. lia. }
  rewrite (Hmm x), (Hmm y). by rewrite Heq.
Qed.

Lemma same_low_bits_S d v v' :
  same_low_bits (S d) v v' →
  same_low_bits d v v' ∧ child_index d v = child_index d v'.
Proof.
  unfold same_low_bits, child_index.
  replace (Z.of_nat (S d + 2)) with (Z.of_nat (d + 2) + 1) by lia.
  intros (Hx & Hy & Hz). split.
  - repeat split; apply mod_pow2_low; (done || lia).
  - rewrite (div_mod2_low _ (vx v) (vx v')), (div_mod2_low _ (vy v) (vy v')),
      (div_mod2_low _ (vz v) (vz v')); (done || lia).
Qed.

Section voxel_ext.
Context (cfg : Config).

(** The voxel read under a pointer [d] levels above the leaf level only
    depends on the [d + 2] low bits of the coordinates. *)
Lemma voxel_at_ext d s p v v' :
  same_low_bits d v v' → voxel_at cfg d s p v = voxel_at cfg d s p v'.
Proof.
  revert p. induction d as [|d IH]; intros p Hvv.
  - rewrite !voxel_at_O. by rewrite (leaf_index_same_low_bits v v').
  - rewrite !voxel_at_S. apply same_low_bits_S in Hvv as [Hlow ->].
    by apply IH.
Qed.

End voxel_ext.

Lemma octant_voxel_spec d i v :
  (i < 8)%nat → in_range d v →
  in_range (S d) (octant_voxel d i v)
  ∧ child_index d (octant_voxel d i v) = i
  ∧ same_low_bits d (octant_voxel d i v) v.
Proof.
  intros Hi (Hx & Hy & Hz). unfold in_range, octant_voxel, child_index, same_low_bits.
  simpl vx; simpl vy; simpl vz.
  replace (Z.of_nat (S d + 2)) with (Z.succ (Z.of_nat (d + 2))) by lia.
  rewrite Z.pow_succ_r by lia.
  set (K := 2 ^ Z.of_nat (d + 2)) in *.
  assert (0 < K) as HK by (apply Z.pow_pos_nonneg; lia).
  set (bx := Z.of_nat i mod 2). set (by_ := (Z.of_nat i / 2) mod 2).
  set (bz := (Z.of_nat i / 4) mod 2).
  assert (0 <= bx < 2) by (apply Z.mod_pos_bound; lia).
  assert (0 <= by_ < 2) by (apply Z.mod_pos_bound; lia).
  assert (0 <= bz < 2) by (apply Z.mod_pos_bound; lia).
  assert (bx + 2 * by_ + 4 * bz = Z.of_nat i) as Hsum.
  { unfold bx, by_, bz. Z.to_euclidean_division_equations. lia. }
  assert (∀ a b, 0 <= a < K → 0 <= b < 2 →
                 (a + K * b) / K = b ∧ (a + K * b) mod K = a) as Hdm.
  { intros a b Ha Hb. split.
    - symmetry. apply (Z.div_unique _ K b a); lia.
    - symmetry. apply (Z.mod_unique _ K b a); lia. }
  destruct (Hdm (vx v) bx Hx ltac:(done)) as [Hdx Hmx].
  destruct (Hdm (vy v) by_ Hy ltac:(done)) as [Hdy Hmy].
  destruct (Hdm (vz v) bz Hz ltac:(done)) as [Hdz Hmz].
  split; [repeat split; nia|]. split.
  - rewrite Hdx, Hdy, Hdz. rewrite !Z.mod_small by lia. lia.
  - rewrite Hmx, Hmy, Hmz. rewrite !Z.mod_small by lia. done.
Qed.

Section canonical.
Context (cfg : Config) (hasher : list Z → Z) (Hcfg : cfg_ok cfg).

Lemma stored_leaf_bits s lv p w0 w1 v :
  pool_ok cfg hasher s → stored cfg hasher s lv p [w0; w1] →
  voxel_at cfg 0 s p v = get_voxel_bit [w0; w1] (leaf_index v).
Proof.
  intros Hs Hst. rewrite voxel_at_O.
  by rewrite (get_leaf_array_stored cfg hasher Hcfg s lv p [w0; w1]).
Qed.

Lemma stored_inner_child s lv p cs d v :
  pool_ok cfg hasher s → length cs = 8%nat →
  stored cfg hasher s lv p (get_packed_node_inplace (0 :: cs)) →
  voxel_at cfg (S d) s p v
  = voxel_at cfg d s (default Null (cs !! child_index d v)) v.
Proof.
  intros Hs Hlen Hst. rewrite voxel_at_S.
  by rewrite (get_unpacked_node_array_stored cfg hasher Hcfg s lv p cs).
Qed.

(** A valid pointer other than Null has an occupied voxel, and one other
    than Filled has a free voxel. *)
Lemma valid_has_voxel d s lv p :
  pool_ok cfg hasher s → valid cfg hasher d s lv p →
  (p ≠ Null → ∃ v, in_range d v ∧ voxel_at cfg d s p v = true)
  ∧ (p ≠ Filled → ∃ v, in_range d v ∧ voxel_at cfg d s p v = false).
Proof.
  intros Hs. revert lv p. induction d as [|d IH]; intros lv p Hv.
  - destruct Hv as [->|[->|(ws & Hst & w0 & w1 & -> & H0 & H1 & Hz & Ho)]].
    + split; [done|]. intros _. exists (leaf_voxel 0).
      split; [apply leaf_voxel_in_range|apply voxel_at_Null].
    + split; [|done]. intros _. exists (leaf_voxel 0).
      split; [apply leaf_voxel_in_range|apply voxel_at_Filled].
    + split; intros _.
      * destruct (decide (Exists (λ i, get_voxel_bit [w0; w1] i = true) (seq 0 64)))
          as [Hex|Hnex].
        -- apply Exists_exists in Hex as (i & Hi & Hbit).
           apply elem_of_seq in Hi. exists (leaf_voxel i).
           split; [apply leaf_voxel_in_range|].
           rewrite (stored_leaf_bits s lv p w0 w1) by done.
           rewrite leaf_voxel_index by lia. done.
        -- exfalso. apply Hz. apply leaf_words_ext; try done; try lia.
           intros i Hi. rewrite get_voxel_bit_zeros.
           apply not_true_is_false. intros Hbit. apply Hnex.
           apply Exists_exists. exists i. split; [|done]. apply elem_of_seq. lia.
      * destruct (decide (Exists (λ i, get_voxel_bit [w0; w1] i = false) (seq 0 64)))
          as [Hex|Hnex].
        -- apply Exists_exists in Hex as (i & Hi & Hbit).
           apply elem_of_seq in Hi. exists (leaf_voxel i).
           split; [apply leaf_voxel_in_range|].
           rewrite (stored_leaf_bits s lv p w0 w1) by done.
           rewrite leaf_voxel_index by lia. done.
        -- exfalso. apply Ho. apply leaf_words_ext; try done; try lia.
           intros i Hi. rewrite get_voxel_bit_ones by done.
           apply not_false_is_true. intros Hbit. apply Hnex.
           apply Exists_exists. exists i. split; [|done]. apply elem_of_seq. lia.
  - destruct Hv as [->|[->|(ws & Hst & cs & Hlen & -> & Hz & Ho & Hcs)]].
    + split; [done|]. intros _. exists (mk_vec3 0 0 0). split.
      * unfold in_range. simpl.
        assert (0 < 2 ^ Z.of_nat (S d + 2)) by (apply Z.pow_pos_nonneg; lia). lia.
      * apply voxel_at_Null.
    + split; [|done]. intros _. exists (mk_vec3 0 0 0). split.
      * unfold in_range. simpl.
        assert (0 < 2 ^ Z.of_nat (S d + 2)) by (apply Z.pow_pos_nonneg; lia). lia.
      * apply voxel_at_Filled.
    + assert (∀ (i : nat) c v, cs !! i = Some c → in_range d v →
                in_range (S d) (octant_voxel d i v)
                ∧ voxel_at cfg (S d) s p (octant_voxel d i v) = voxel_at cfg d s c v)
        as Hoct.
      { intros i c v Hc Hin.
        assert (i < 8)%nat as Hi by (apply lookup_lt_Some in Hc; lia).
        destruct (octant_voxel_spec d i v Hi Hin) as (Hr & Hci & Hlow).
        split; [done|].
        rewrite (stored_inner_child s lv p cs) by done.
        rewrite Hci, Hc. simpl. by apply voxel_at_ext. }
      split; intros _.
      * destruct (decide (Exists (λ c, c ≠ Null) cs)) as [Hex|Hnex].
        -- apply Exists_exists in Hex as (c & Hc & Hne).
           apply list_elem_of_lookup in Hc as [i Hc].
           eapply Forall_lookup_1 in Hcs as Hvc; [|done].
           destruct (IH _ _ Hvc) as [HN _].
           destruct (HN Hne) as (v & Hin & Hbit).
           destruct (Hoct i c v Hc Hin) as [Hr Heq].
           exists (octant_voxel d i v). split; [done|]. by rewrite Heq.
        -- exfalso. apply Hz. rewrite get_packed_node_inplace_cons.
           assert (Forall (λ c, c = Null) cs) as Hall.
           { apply Forall_forall. intros c Hc.
             destruct (decide (c = Null)) as [|Hne]; [done|].
             exfalso. apply Hnex. apply Exists_exists. by exists c. }
           by rewrite (child_mask_all_null cs), (filter_all_null cs).
      * destruct (decide (Exists (λ c, c ≠ Filled) cs)) as [Hex|Hnex].
        -- apply Exists_exists in Hex as (c & Hc & Hne).
           apply list_elem_of_lookup in Hc as [i Hc].
           eapply Forall_lookup_1 in Hcs as Hvc; [|done].
           destruct (IH _ _ Hvc) as [_ HF].
           destruct (HF Hne) as (v & Hin & Hbit).
           destruct (Hoct i c v Hc Hin) as [Hr Heq].
           exists (octant_voxel d i v). split; [done|]. by rewrite Heq.
        -- exfalso. apply Ho.
           assert (cs = replicate 8 Filled) as ->; [|by vm_compute].
           apply list_eq_same_length with 8%nat; [by rewrite length_replicate|done|].
           intros i x y Hi Hx Hy. apply lookup_replicate in Hy as [-> _].
           destruct (decide (x = Filled)) as [|Hne]; [done|].
           exfalso. apply Hnex. apply Exists_exists. exists x.
           split; [|done]. by eapply list_elem_of_lookup_2.
Qed.

(** Canonicity: two valid pointers of one level with the same voxels
    are the same pointer. *)
Theorem valid_canonical d s lv p q :
  pool_ok cfg hasher s →
  valid cfg hasher d s lv p → valid cfg hasher d s lv q →
  (∀ v, in_range d v → voxel_at cfg d s p v = voxel_at cfg d s q v) →
  p = q.
Proof.
  intros Hs. revert lv p q.
  assert (∀ d lv p q,
            valid cfg hasher d s lv p → valid cfg hasher d s lv q →
            (∀ v, in_range d v → voxel_at cfg d s p v = voxel_at cfg d s q v) →
            p = Null → p = q) as HNull.
  { intros d' lv p q Hp Hq Heq ->.
    destruct (decide (q = Null)) as [|Hne]; [done|].
    destruct (valid_has_voxel d' s lv q Hs Hq) as [HN _].
    destruct (HN Hne) as (v & Hin & Hbit).
    rewrite <- Heq, voxel_at_Null in Hbit by done. done. }
  assert (∀ d lv p q,
            valid cfg hasher d s lv p → valid cfg hasher d s lv q →
            (∀ v, in_range d v → voxel_at cfg d s p v = voxel_at cfg d s q v) →
            p = Filled → p = q) as HFilled.
  { intros d' lv p q Hp Hq Heq ->.
    destruct (decide (q = Filled)) as [|Hne]; [done|].
    destruct (valid_has_voxel d' s lv q Hs Hq) as [_ HF].
    destruct (HF Hne) as (v & Hin & Hbit).
    rewrite <- Heq, voxel_at_Filled in Hbit by done. done. }
  induction d as [|d IH]; intros lv p q Hp Hq Heq.
  - destruct (decide (p = Null)) as [|HpN]; [by eapply HNull|].
    destruct (decide (q = Null)) as [|HqN].
    { symmetry. eapply (HNull 0%nat); try done. intros v Hv. by rewrite Heq. }
    destruct (decide (p = Filled)) as [|HpF]; [by eapply HFilled|].
    destruct (decide (q = Filled)) as [|HqF].
    { symmetry. eapply (HFilled 0%nat); try done. intros v Hv. by rewrite Heq. }
    destruct Hp as [?|[?|(ws & Hst & w0 & w1 & -> & H0 & H1 & _)]]; [congruence..|].
    destruct Hq as [?|[?|(ws' & Hst' & w0' & w1' & -> & H0' & H1' & _)]]; [congruence..|].
    assert ([w0; w1] = [w0'; w1']) as Hws.
    { apply leaf_words_ext; try done. intros i Hi.
      specialize (Heq (leaf_voxel i) (leaf_voxel_in_range i)).
      rewrite (stored_leaf_bits s lv p w0 w1) in Heq by done.
      rewrite (stored_leaf_bits s lv q w0' w1') in Heq by done.
      by rewrite leaf_voxel_index in Heq by done. }
    rewrite <- Hws in Hst'. by eapply stored_unique.
  - destruct (decide (p = Null)) as [|HpN]; [by eapply HNull|].
    destruct (decide (q = Null)) as [|HqN].
    { symmetry. eapply (HNull (S d)); try done. intros v Hv. by rewrite Heq. }
    destruct (decide (p = Filled)) as [|HpF]; [by eapply HFilled|].
    destruct (decide (q = Filled)) as [|HqF].
    { symmetry. eapply (HFilled (S d)); try done. intros v Hv. by rewrite Heq. }
    destruct Hp as [?|[?|(ws & Hst & cs & Hlen & -> & _ & _ & Hcs)]]; [congruence..|].
    destruct Hq as [?|[?|(ws' & Hst' & cs' & Hlen' & -> & _ & _ & Hcs')]]; [congruence..|].
    assert (cs = cs') as <-.
    { apply list_eq_same_length with 8%nat; [done|done|].
      intros i c c' Hi Hc Hc'.
      eapply Forall_lookup_1 in Hcs as Hvc; [|done].
      eapply Forall_lookup_1 in Hcs' as Hvc'; [|done].
      apply (IH (S lv)); [done|done|]. intros v Hv.
      destruct (octant_voxel_spec d i v Hi Hv) as (Hr & Hci & Hlow).
      specialize (Heq _ Hr).
      rewrite (stored_inner_child s lv p cs) in Heq by done.
      rewrite (stored_inner_child s lv q cs') in Heq by done.
      rewrite Hci, Hc, Hc' in Heq. simpl in Heq.
      by rewrite !(voxel_at_ext cfg d s _ _ v Hlow) in Heq. }
    by eapply stored_unique.
Qed.

End canonical.
(** ** AABBEditor *)

Lemma in_cube_root d v : in_range d v → in_cube (d + 2) root_coord v.
Proof.
  intros (Hx & Hy & Hz). unfold in_cube. simpl.
  rewrite !Z.div_small by done. done.
Qed.

(** The bounds of a node's cube, along one axis, for a voxel of the
    world inside the cube: no wrap-around occurs below 32 levels. *)
Lemma shl32_bounds (L k : nat) x p :
  (k <= L)%nat → (L <= 31)%nat → 0 <= x < 2 ^ Z.of_nat L →
  x / 2 ^ Z.of_nat k = p →
  shl32 p k <= x < shl32 (p + 1) k.
Proof.
  intros Hk HL Hx Hp. unfold shl32, wrap32.
  set (K := 2 ^ Z.of_nat k) in *.
  assert (0 < K) as HK by (apply Z.pow_pos_nonneg; lia).
  assert (2 ^ Z.of_nat L = 2 ^ Z.of_nat (L - k) * K) as HLK.
  { unfold K. rewrite <- Z.pow_add_r by lia. f_equal. lia. }
  assert (0 < 2 ^ Z.of_nat (L - k)) as HLk by (apply Z.pow_pos_nonneg; lia).
  assert (2 ^ Z.of_nat L <= 2 ^ 31) as HL31 by (apply Z.pow_le_mono_r; lia).
  pose proof (Z.div_mod x K ltac:(lia)) as Hdm.
  pose proof (Z.mod_pos_bound x K HK) as Hmod.
  rewrite Hp in Hdm.
  assert (0 <= p) as Hp0 by (subst p; apply Z.div_pos; lia).
  assert (p + 1 <= 2 ^ Z.of_nat (L - k)) as Hp1 by nia.
  assert ((p + 1) * K <= 2 ^ Z.of_nat L) as Hub by nia.
  rewrite !Z.mod_small by nia. nia.
Qed.

Section aabb.
Context (cfg : Config) (e : AABBEditor).
Context (Hlevels : (0 < GetNodeLevels cfg)%nat).
Context (Hfit : (GetVoxelLevel cfg <= 31)%nat).

Lemma aabb_cube_bounds coord v :
  in_cube (GetVoxelLevel cfg - level coord) coord v → in_world cfg v →
  let lb := GetLowerBoundAtLevel coord (GetVoxelLevel cfg) in
  let ub := GetUpperBoundAtLevel coord (GetVoxelLevel cfg) in
  (vx lb <= vx v < vx ub) ∧ (vy lb <= vy v < vy ub) ∧ (vz lb <= vz v < vz ub).
Proof.
  intros (Hx & Hy & Hz) (Wx & Wy & Wz). simpl.
  assert (GetLeafLevel cfg + 2 = GetVoxelLevel cfg)%nat as HL.
  { unfold GetLeafLevel, GetVoxelLevel. lia. }
  rewrite HL in Wx, Wy, Wz.
  repeat split;
    eapply (shl32_bounds (GetVoxelLevel cfg)); (done || lia).
Qed.

Lemma AABBEditor_not_affected_outside coord p v :
  AABBEditor_EditNode cfg e coord p = kNotAffected →
  in_cube (GetVoxelLevel cfg - level coord) coord v → in_world cfg v →
  in_box cfg e v = false.
Proof.
  intros Hdec Hin Hw.
  destruct (aabb_cube_bounds coord v Hin Hw) as (Bx & By & Bz).
  unfold AABBEditor_EditNode in Hdec.
  destruct (any_lessThanEqual _ _ || any_greaterThanEqual _ _) eqn:E.
  2:{ by destruct (all_greaterThanEqual _ _ && all_lessThanEqual _ _). }
  unfold in_box, AABBEditor_VoxelInRange, all_greaterThanEqual, lessThan, vec_all.
  unfold any_lessThanEqual, any_greaterThanEqual, vec_any in E. simpl.
  apply not_true_is_false. intros Hbox.
  repeat (apply andb_true_iff in Hbox as [Hbox ?]).
  repeat (apply orb_true_iff in E as [E|E]); lia.
Qed.

Lemma AABBEditor_fill_inside coord p v :
  AABBEditor_EditNode cfg e coord p = kFill →
  in_cube (GetVoxelLevel cfg - level coord) coord v → in_world cfg v →
  in_box cfg e v = true.
Proof.
  intros Hdec Hin Hw.
  destruct (aabb_cube_bounds coord v Hin Hw) as (Bx & By & Bz).
  unfold AABBEditor_EditNode in Hdec.
  destruct (any_lessThanEqual _ _ || any_greaterThanEqual _ _) eqn:E; [done|].
  destruct (all_greaterThanEqual _ _ && all_lessThanEqual _ _) eqn:E'; [|done].
  unfold in_box, AABBEditor_VoxelInRange, all_greaterThanEqual, lessThan, vec_all.
  unfold all_greaterThanEqual, all_lessThanEqual, vec_all in E'. simpl.
  repeat (apply andb_true_iff in E' as [E' ?]).
  repeat (apply andb_true_iff; split); lia.
Qed.

Lemma AABBEditor_never_clears coord p : AABBEditor_EditNode cfg e coord p ≠ kClear.
Proof.
  unfold AABBEditor_EditNode. repeat case_match; done.
Qed.

Lemma aabb_respects : editor_respects cfg (aabb_editor cfg e) (aabb_fills cfg e).
Proof.
  split; unfold aabb_fills; simpl.
  - intros coord b Hlv Hw. unfold AABBEditor_EditVoxel, in_box.
    by destruct coord.
  - intros coord p v b Hdec Hin Hw.
    rewrite (AABBEditor_not_affected_outside coord p v) by done.
    by rewrite orb_false_r.
  - intros coord p v b Hdec. by apply AABBEditor_never_clears in Hdec.
  - intros coord p v b Hdec Hin Hw.
    rewrite (AABBEditor_fill_inside coord p v) by done.
    by rewrite orb_true_r.
Qed.

End aabb.

(** After an AABB fill of any world, a voxel of the world is occupied
    exactly when it was occupied before or lies in the box. *)
Lemma aabb_edit_voxels cfg hasher e s root s' root' :
  cfg_ok cfg → (0 < GetNodeLevels cfg)%nat → (GetVoxelLevel cfg <= 31)%nat →
  pool_ok cfg hasher s → valid cfg hasher (GetLeafLevel cfg) s 0 root →
  edit_node cfg hasher (aabb_editor cfg e) root root_coord s = Ok (root', s') →
  pool_ok cfg hasher s'
  ∧ pool_extends cfg hasher s s'
  ∧ valid cfg hasher (GetLeafLevel cfg) s' 0 root'
  ∧ ∀ v, in_world cfg v →
         voxel_at cfg (GetLeafLevel cfg) s' root' v
         = voxel_at cfg (GetLeafLevel cfg) s root v || in_box cfg e v.
Proof.
  intros Hcfg Hlv Hfit Hs Hv Hedit.
  destruct (edit_node_sound cfg hasher _ (aabb_fills cfg e) root s root' s'
              Hcfg Hlv (aabb_respects cfg e Hlv Hfit) Hs Hv Hedit)
    as (Hs' & Hext & Hv' & Hrel).
  split; [done|]. split; [done|]. split; [done|].
  intros v Hw. apply Hrel; [|done]. by apply in_cube_root.
Qed.
(** ** Fill order *)

Lemma example_fit : (GetVoxelLevel example_config <= 31)%nat.
Proof. vm_compute. lia. Qed.

(** C8, as stated, fails: two disjoint boxes with the same colour, filled
    in the two orders into two fresh worlds, give different root
    pointers (the roots are appended at different offsets of the level-0
    bucket). *)
Lemma C8_separate_worlds_differ :
  aabb_disjoint example_aabb example_aabb2 = true
  ∧ aabb_color example_aabb = aabb_color example_aabb2
  ∧ ∃ r1 s1 r2 s2,
      edit_twice example_config example_hasher
        (aabb_editor example_config example_aabb)
        (aabb_editor example_config example_aabb2)
        Null (empty_pool example_config) = Ok (r1, s1)
      ∧ edit_twice example_config example_hasher
          (aabb_editor example_config example_aabb2)
          (aabb_editor example_config example_aabb)
          Null (empty_pool example_config) = Ok (r2, s2)
      ∧ r1 ≠ r2.
Proof.
  split; [reflexivity|]. split; [reflexivity|].
  eexists _, _, _, _.
  split; [vm_compute; reflexivity|]. split; [vm_compute; reflexivity|].
  discriminate.
Qed.

Lemma edit_twice_aabb_voxels cfg hasher a b s root s' root' :
  cfg_ok cfg → (0 < GetNodeLevels cfg)%nat → (GetVoxelLevel cfg <= 31)%nat →
  pool_ok cfg hasher s → valid cfg hasher (GetLeafLevel cfg) s 0 root →
  edit_twice cfg hasher (aabb_editor cfg a) (aabb_editor cfg b) root s
  = Ok (root', s') →
  pool_ok cfg hasher s'
  ∧ pool_extends cfg hasher s s'
  ∧ valid cfg hasher (GetLeafLevel cfg) s' 0 root'
  ∧ ∀ v, in_world cfg v →
         voxel_at cfg (GetLeafLevel cfg) s' root' v
         = voxel_at cfg (GetLeafLevel cfg) s root v
           || in_box cfg a v || in_box cfg b v.
Proof.
  intros Hcfg Hlv Hfit Hs Hv. unfold edit_twice, bindM.
  destruct (edit_node cfg hasher (aabb_editor cfg a) root root_coord s)
    as [[r1 s1]|] eqn:E1; [|done].
  intros E2.
  destruct (aabb_edit_voxels cfg hasher a s root s1 r1 Hcfg Hlv Hfit Hs Hv E1)
    as (Hs1 & Hext1 & Hv1 & Hvox1).
  destruct (aabb_edit_voxels cfg hasher b s1 r1 s' root' Hcfg Hlv Hfit Hs1 Hv1 E2)
    as (Hs2 & Hext2 & Hv2 & Hvox2).
  split; [done|]. split; [by eapply pool_extends_trans|]. split; [done|].
  intros v Hw. by rewrite Hvox2, Hvox1.
Qed.

(** C8 (amended): for two AABB fills A and B (disjoint or not, of any
    colours), applying A then B to a world, and then, in the same node
    pool, B then A to the same starting root, yields identical root
    pointers; when instead the two orders are run from the same state in
    separate pools, the two roots hold the same voxels (their addresses
    may differ). *)
Theorem C8_fill_order (cfg : Config) (hasher : list Z → Z) (a b : AABBEditor)
    (s : NodePool) (root : NodePointer)
    (r1 r2 r3 : NodePointer) (s1 s2 s3 : NodePool) :
  cfg_ok cfg → (0 < GetNodeLevels cfg)%nat → (GetVoxelLevel cfg <= 31)%nat →
  edited_world cfg hasher s root →
  edit_twice cfg hasher (aabb_editor cfg a) (aabb_editor cfg b) root s
  = Ok (r1, s1) →
  (edit_twice cfg hasher (aabb_editor cfg b) (aabb_editor cfg a) root s1
   = Ok (r2, s2) → r1 = r2)
  ∧ (edit_twice cfg hasher (aabb_editor cfg b) (aabb_editor cfg a) root s
     = Ok (r3, s3) →
     ∀ v, in_world cfg v →
          voxel_at cfg (GetLeafLevel cfg) s1 r1 v
          = voxel_at cfg (GetLeafLevel cfg) s3 r3 v).
Proof.
  intros Hcfg Hlv Hfit Hw E1.
  destruct (edited_world_ok cfg hasher s root Hcfg Hlv Hw) as [Hs Hv].
  destruct (edit_twice_aabb_voxels cfg hasher a b s root s1 r1
              Hcfg Hlv Hfit Hs Hv E1) as (Hs1 & Hext1 & Hv1 & Hvox1).
  split.
  - intros E2.
    assert (valid cfg hasher (GetLeafLevel cfg) s1 0 root) as Hv'
      by (by eapply valid_mono).
    destruct (edit_twice_aabb_voxels cfg hasher b a s1 root s2 r2
                Hcfg Hlv Hfit Hs1 Hv' E2) as (Hs2 & Hext2 & Hv2 & Hvox2).
    apply (valid_canonical cfg hasher Hcfg (GetLeafLevel cfg) s2 0); try done.
    { by eapply valid_mono. }
    intros v Hin.
    rewrite (voxel_at_mono cfg hasher Hcfg _ s1 s2 0 r1 v) by done.
    rewrite Hvox1, Hvox2 by done.
    rewrite (voxel_at_mono cfg hasher Hcfg _ s s1 0 root v) by done.
    destruct (voxel_at cfg (GetLeafLevel cfg) s root v),
      (in_box cfg a v), (in_box cfg b v); done.
  - intros E3 v Hin.
    destruct (edit_twice_aabb_voxels cfg hasher b a s root s3 r3
                Hcfg Hlv Hfit Hs Hv E3) as (_ & _ & _ & Hvox3).
    rewrite Hvox1, Hvox3 by done.
    destruct (voxel_at cfg (GetLeafLevel cfg) s root v),
      (in_box cfg a v), (in_box cfg b v); done.
Qed.

Lemma C8_fill_order_witness :
  ∃ r1 s1 r2 s2,
    edit_twice example_config example_hasher
      (aabb_editor example_config example_aabb)
      (aabb_editor example_config example_aabb2)
      Null (empty_pool example_config) = Ok (r1, s1)
    ∧ edit_twice example_config example_hasher
        (aabb_editor example_config example_aabb2)
        (aabb_editor example_config example_aabb) Null s1 = Ok (r2, s2)
    ∧ r1 = r2.
Proof.
  destruct (edit_twice example_config example_hasher
              (aabb_editor example_config example_aabb)
              (aabb_editor example_config example_aabb2)
              Null (empty_pool example_config)) as [[r1 s1]|] eqn:E1;
    [|vm_compute in E1; discriminate].
  destruct (edit_twice example_config example_hasher
              (aabb_editor example_config example_aabb2)
              (aabb_editor example_config example_aabb) Null s1)
    as [[r2 s2]|] eqn:E2.
  2:{ exfalso. vm_compute in E1. injection E1 as <- <-.
      vm_compute in E2. discriminate. }
  exists r1, s1, r2, s2. split; [reflexivity|]. split; [exact E2|].
  apply (proj1 (C8_fill_order example_config example_hasher
                  example_aabb example_aabb2 (empty_pool example_config) Null
                  r1 r2 r2 s1 s2 s2
                  example_config_ok example_levels example_fit
                  (edited_empty _ _) E1)).
  exact E2.
Defined.
(** ** Morton order *)








(** ** The colour of an AABB fill *)





Section aabb_color.
Context (cfg : Config) (e : AABBEditor).
Context (Hlevels : (0 < GetNodeLevels cfg)%nat).
Context (Hfit : (GetVoxelLevel cfg <= 31)%nat).
Context (m : nat) (Hm : (2 <= m)%nat).
Context (s s' : NodePool).


End aabb_color.


(** ** SphereEditor: the decisions are sound for the sphere *)

(** The bounds of a node's cube do not wrap, and stay within the world. *)
Lemma shl32_world (L k : nat) x p :
  (k <= L)%nat → (L <= 31)%nat → 0 <= x < 2 ^ Z.of_nat L →
  x / 2 ^ Z.of_nat k = p →
  0 <= shl32 p k ∧ shl32 p k <= x < shl32 (p + 1) k
  ∧ shl32 (p + 1) k <= 2 ^ 31.
Proof.
  intros Hk HL Hx Hp. unfold shl32, wrap32.
  set (K := 2 ^ Z.of_nat k) in *.
  assert (0 < K) as HK by (apply Z.pow_pos_nonneg; lia).
  assert (2 ^ Z.of_nat L = 2 ^ Z.of_nat (L - k) * K) as HLK.
  { unfold K. rewrite <- Z.pow_add_r by lia. f_equal. lia. }
  assert (0 < 2 ^ Z.of_nat (L - k)) as HLk by (apply Z.pow_pos_nonneg; lia).
  assert (2 ^ Z.of_nat L <= 2 ^ 31) as HL31 by (apply Z.pow_le_mono_r; lia).
  pose proof (Z.div_mod x K ltac:(lia)) as Hdm.
  pose proof (Z.mod_pos_bound x K HK) as Hmod.
  rewrite Hp in Hdm.
  assert (0 <= p) as Hp0 by (subst p; apply Z.div_pos; lia).
  assert (p + 1 <= 2 ^ Z.of_nat (L - k)) as Hp1 by nia.
  assert ((p + 1) * K <= 2 ^ Z.of_nat L) as Hub by nia.
  rewrite !Z.mod_small by nia. nia.
Qed.

Lemma cube_bounds_world cfg coord v :
  (0 < GetNodeLevels cfg)%nat → (GetVoxelLevel cfg <= 31)%nat →
  in_cube (GetVoxelLevel cfg - level coord) coord v → in_world cfg v →
  let lb := GetLowerBoundAtLevel coord (GetVoxelLevel cfg) in
  let ub := GetUpperBoundAtLevel coord (GetVoxelLevel cfg) in
  (0 <= vx lb ∧ vx lb <= vx v < vx ub ∧ vx ub <= 2 ^ 31)
  ∧ (0 <= vy lb ∧ vy lb <= vy v < vy ub ∧ vy ub <= 2 ^ 31)
  ∧ (0 <= vz lb ∧ vz lb <= vz v < vz ub ∧ vz ub <= 2 ^ 31).
Proof.
  intros Hlv Hfit (Hx & Hy & Hz) (Wx & Wy & Wz). simpl.
  assert (GetLeafLevel cfg + 2 = GetVoxelLevel cfg)%nat as HL.
  { unfold GetLeafLevel, GetVoxelLevel. lia. }
  rewrite HL in Wx, Wy, Wz.
  split; [|split]; eapply (shl32_world (GetVoxelLevel cfg)); (done || lia).
Qed.

Lemma wrap64_small x : 0 <= x < 2 ^ 64 → wrap64 x = x.
Proof. intros. unfold wrap64. by apply Z.mod_small. Qed.

Lemma square_le a b : Z.abs a <= Z.abs b → a * a <= b * b.
Proof.
  intros H. rewrite <- (Z.abs_square a), <- (Z.abs_square b).
  apply Z.mul_le_mono_nonneg; lia.
Qed.

(** One axis of the distance computation: the squared distances to the
    two faces fit 64 bits, the larger bounds the squared distance of every
    coordinate in between, and a face on the far side bounds it from
    below. *)
Lemma sphere_axis lb ub c x :
  0 <= c <= 2 ^ 31 → 0 <= lb → lb <= x < ub → ub <= 2 ^ 31 →
  0 <= dist_2 (lb - c) <= 2 ^ 62
  ∧ 0 <= dist_2 (ub - c) <= 2 ^ 62
  ∧ 0 <= (x - c) * (x - c) <= Z.max (dist_2 (lb - c)) (dist_2 (ub - c))
  ∧ (lb - c > 0 → dist_2 (lb - c) <= (x - c) * (x - c))
  ∧ (ub - c < 0 → dist_2 (ub - c) <= (x - c) * (x - c))
  ∧ ¬ (lb - c > 0 ∧ ub - c < 0).
Proof.
  intros Hc Hlb Hx Hub.
  change (2 ^ 31) with 2147483648 in *.
  change (2 ^ 62) with 4611686018427387904.
  assert (∀ d, -2147483648 <= d <= 2147483648 →
               dist_2 d = d * d ∧ 0 <= d * d <= 4611686018427387904) as Hsq.
  { intros d Hd.
    assert (0 <= d * d <= 4611686018427387904).
    { split; [apply Z.square_nonneg|].
      change 4611686018427387904 with (2147483648 * 2147483648).
      apply square_le. lia. }
    split; [|done]. unfold dist_2. apply wrap64_small.
    change (2 ^ 64) with 18446744073709551616. lia. }
  destruct (Hsq (lb - c) ltac:(lia)) as [-> Hl2].
  destruct (Hsq (ub - c) ltac:(lia)) as [-> Hu2].
  split; [done|]. split; [done|]. split.
  { split; [apply Z.square_nonneg|].
    destruct (Z_le_gt_dec c x).
    - etrans; [|apply Z.le_max_r]. apply square_le. lia.
    - etrans; [|apply Z.le_max_l]. apply square_le. lia. }
  split; [intros; apply square_le; lia|].
  split; [intros; apply square_le; lia|]. lia.
Qed.

Section sphere.
Context (cfg : Config) (e : SphereEditor).
Context (Hlevels : (0 < GetNodeLevels cfg)%nat).
Context (Hfit : (GetVoxelLevel cfg <= 31)%nat).
Context (Hcenter : center_fits e).

Lemma in_sphere_eq v :
  in_world cfg v →
  in_sphere cfg e v
  = ((vx v - vx (center e)) * (vx v - vx (center e))
     + (vy v - vy (center e)) * (vy v - vy (center e))
     + (vz v - vz (center e)) * (vz v - vz (center e)) <=? r2 e).
Proof.
  intros (Wx & Wy & Wz). destruct Hcenter as (Cx & Cy & Cz).
  assert (GetLeafLevel cfg + 2 = GetVoxelLevel cfg)%nat as HL.
  { unfold GetLeafLevel, GetVoxelLevel. lia. }
  rewrite HL in Wx, Wy, Wz.
  assert (2 ^ Z.of_nat (GetVoxelLevel cfg) <= 2 ^ 31) as HL31
    by (apply Z.pow_le_mono_r; lia).
  unfold in_sphere, SphereEditor_VoxelInRange. cbn [pos].
  change (2 ^ 31) with 2147483648 in *.
  assert (∀ d, -2147483648 <= d <= 2147483648 →
               0 <= d * d <= 4611686018427387904) as Hsq.
  { intros d Hd. split; [apply Z.square_nonneg|].
    change 4611686018427387904 with (2147483648 * 2147483648).
    apply square_le. lia. }
  pose proof (Hsq (vx v - vx (center e)) ltac:(lia)).
  pose proof (Hsq (vy v - vy (center e)) ltac:(lia)).
  pose proof (Hsq (vz v - vz (center e)) ltac:(lia)).
  rewrite wrap64_small; [done|].
  change (2 ^ 64) with 18446744073709551616. lia.
Qed.

(** A node the editor covers wholesale lies in the sphere, and a node
    it leaves alone lies outside. *)
Lemma SphereEditor_decisions mode coord p v :
  in_cube (GetVoxelLevel cfg - level coord) coord v → in_world cfg v →
  match SphereEditor_EditNode mode cfg e coord p with
  | kNotAffected => in_sphere cfg e v = false
  | kProceed => True
  | _ => in_sphere cfg e v = true
  end.
Proof.
  intros Hin Hw. rewrite (in_sphere_eq v Hw).
  destruct (cube_bounds_world cfg coord v Hlevels Hfit Hin Hw)
    as ((Lx & Bx & Ux) & (Ly & By & Uy) & (Lz & Bz & Uz)).
  destruct Hcenter as (Cx & Cy & Cz).
  unfold SphereEditor_EditNode.
  set (lb := GetLowerBoundAtLevel coord (GetVoxelLevel cfg)) in *.
  set (ub := GetUpperBoundAtLevel coord (GetVoxelLevel cfg)) in *.
  cbv zeta.
  destruct (sphere_axis (vx lb) (vx ub) (vx (center e)) (vx v) Cx Lx Bx Ux)
    as (Ax & Bx' & Px & Mx1 & Mx2 & Ex).
  destruct (sphere_axis (vy lb) (vy ub) (vy (center e)) (vy v) Cy Ly By Uy)
    as (Ay & By' & Py & My1 & My2 & Ey).
  destruct (sphere_axis (vz lb) (vz ub) (vz (center e)) (vz v) Cz Lz Bz Uz)
    as (Az & Bz' & Pz & Mz1 & Mz2 & Ez).
  set (ax := dist_2 (vx lb - vx (center e))) in *.
  set (bx := dist_2 (vx ub - vx (center e))) in *.
  set (ay := dist_2 (vy lb - vy (center e))) in *.
  set (by' := dist_2 (vy ub - vy (center e))) in *.
  set (az := dist_2 (vz lb - vz (center e))) in *.
  set (bz := dist_2 (vz ub - vz (center e))) in *.
  set (px := (vx v - vx (center e)) * (vx v - vx (center e))) in *.
  set (py := (vy v - vy (center e)) * (vy v - vy (center e))) in *.
  set (pz := (vz v - vz (center e)) * (vz v - vz (center e))) in *.
  set (dlx := vx lb - vx (center e)) in *.
  set (dux := vx ub - vx (center e)) in *.
  set (dly := vy lb - vy (center e)) in *.
  set (duy := vy ub - vy (center e)) in *.
  set (dlz := vz lb - vz (center e)) in *.
  set (duz := vz ub - vz (center e)) in *.
  clearbody ax bx ay by' az bz px py pz dlx dux dly duy dlz duz.
  change (2 ^ 62) with 4611686018427387904 in *.
  rewrite (wrap64_small (Z.max ax bx + Z.max ay by' + Z.max az bz))
    by (change (2 ^ 64) with 18446744073709551616; lia).
  destruct (Z.max ax bx + Z.max ay by' + Z.max az bz <=? r2 e) eqn:Emax.
  { apply Z.leb_le in Emax.
    assert ((px + py + pz <=? r2 e) = true) as -> by (apply Z.leb_le; lia).
    by destruct mode. }
  change (2 ^ 64) with 18446744073709551616 in *.
  destruct (Z.gtb_spec dlx 0) as [E1|E1]; destruct (Z.ltb_spec dux 0) as [E2|E2];
    destruct (Z.gtb_spec dly 0) as [E3|E3]; destruct (Z.ltb_spec duy 0) as [E4|E4];
    destruct (Z.gtb_spec dlz 0) as [E5|E5]; destruct (Z.ltb_spec duz 0) as [E6|E6];
    try (exfalso; lia);
    rewrite ?Z.add_0_l;
    repeat match goal with
           | |- context [wrap64 ?a] =>
               lazymatch a with
               | context [wrap64 _] => fail
               | _ => rewrite (wrap64_small a)
                        by (change (2 ^ 64) with 18446744073709551616; lia)
               end
           end;
    match goal with
    | |- context [?a >? r2 e] => destruct (Z.gtb_spec a (r2 e)) as [Emin|Emin]
    end; try done; apply Z.leb_gt; lia.
Qed.

Lemma sphere_fill_respects :
  editor_respects cfg (sphere_editor mFill cfg e) (sphere_fills cfg e).
Proof.
  split; unfold sphere_fills; simpl.
  - intros coord b Hl Hw. unfold in_sphere, SphereEditor_VoxelInRange.
    by destruct coord.
  - intros coord p v b Hdec Hin Hw.
    pose proof (SphereEditor_decisions mFill coord p v Hin Hw) as H.
    rewrite Hdec in H. by rewrite H, orb_false_r.
  - intros coord p v b Hdec. exfalso. revert Hdec.
    unfold SphereEditor_EditNode. repeat (case_match; try discriminate).
  - intros coord p v b Hdec Hin Hw.
    pose proof (SphereEditor_decisions mFill coord p v Hin Hw) as H.
    rewrite Hdec in H. by rewrite H, orb_true_r.
Qed.

Lemma sphere_dig_removes :
  editor_respects cfg (sphere_editor mDig cfg e) (sphere_digs cfg e).
Proof.
  split; unfold sphere_digs; simpl.
  - intros coord b Hl Hw. unfold in_sphere, SphereEditor_VoxelInRange.
    by destruct coord.
  - intros coord p v b Hdec Hin Hw.
    pose proof (SphereEditor_decisions mDig coord p v Hin Hw) as H.
    rewrite Hdec in H. by rewrite H, andb_true_r.
  - intros coord p v b Hdec Hin Hw.
    pose proof (SphereEditor_decisions mDig coord p v Hin Hw) as H.
    rewrite Hdec in H. by rewrite H, andb_false_r.
  - intros coord p v b Hdec. by apply SphereEditor_EditNode_not_fill_dig in Hdec.
Qed.

End sphere.

(** X1: a sphere fill adds exactly the sphere.  In a world of at most
    31 voxel levels, with the centre within [2^31] on every axis, after
    the edit of any world with [SphereEditor<kFill>] a voxel of the world
    is occupied exactly when it was occupied before or lies within
    squared distance [r2] of the centre. *)
Theorem sphere_fill_voxels (cfg : Config) (hasher : list Z → Z)
    (e : SphereEditor) (s : NodePool) (root : NodePointer)
    (s' : NodePool) (root' : NodePointer) :
  cfg_ok cfg → (0 < GetNodeLevels cfg)%nat → (GetVoxelLevel cfg <= 31)%nat →
  center_fits e →
  edited_world cfg hasher s root →
  edit_node cfg hasher (sphere_editor mFill cfg e) root root_coord s
  = Ok (root', s') →
  ∀ v, in_world cfg v →
       voxel_at cfg (GetLeafLevel cfg) s' root' v
       = voxel_at cfg (GetLeafLevel cfg) s root v || in_sphere cfg e v.
Proof.
  intros Hcfg Hlv Hfit Hc Hworld Hedit v Hw.
  destruct (edited_world_ok cfg hasher s root Hcfg Hlv Hworld) as [Hs Hv].
  destruct (edit_node_sound cfg hasher _ (sphere_fills cfg e) root s root' s'
              Hcfg Hlv (sphere_fill_respects cfg e Hlv Hfit Hc) Hs Hv Hedit)
    as (_ & _ & _ & Hrel).
  apply Hrel; [|done]. by apply in_cube_root.
Qed.

Lemma center_fits_example : center_fits example_sphere.
Proof. vm_compute. repeat split; congruence. Qed.

Lemma sphere_fill_voxels_witness :
  ∃ root' s',
    edit_node example_config example_hasher
      (sphere_editor mFill example_config example_sphere) Null root_coord
      (empty_pool example_config) = Ok (root', s')
    ∧ voxel_at example_config (GetLeafLevel example_config) s' root'
        (mk_vec3 3 0 0) = true
    ∧ voxel_at example_config (GetLeafLevel example_config) s' root'
        (mk_vec3 4 0 0) = false.
Proof.
  destruct (edit_node example_config example_hasher
              (sphere_editor mFill example_config example_sphere) Null root_coord
              (empty_pool example_config)) as [[root' s']|] eqn:E;
    [|vm_compute in E; discriminate].
  exists root', s'. split; [reflexivity|].
  pose proof (sphere_fill_voxels example_config example_hasher example_sphere
                (empty_pool example_config) Null s' root'
                example_config_ok example_levels example_fit
                center_fits_example (edited_empty _ _) E) as H.
  split.
  - rewrite (H (mk_vec3 3 0 0)); [reflexivity|].
    vm_compute. repeat split; congruence.
  - rewrite (H (mk_vec3 4 0 0)); [reflexivity|].
    vm_compute. repeat split; congruence.
Defined.

(** X2: a sphere dig removes exactly the sphere.  Under the same
    bounds, after the edit of any world with [SphereEditor<kDig>] a voxel
    of the world is occupied exactly when it was occupied before and lies
    farther than squared distance [r2] from the centre. *)
Theorem sphere_dig_voxels (cfg : Config) (hasher : list Z → Z)
    (e : SphereEditor) (s : NodePool) (root : NodePointer)
    (s' : NodePool) (root' : NodePointer) :
  cfg_ok cfg → (0 < GetNodeLevels cfg)%nat → (GetVoxelLevel cfg <= 31)%nat →
  center_fits e →
  edited_world cfg hasher s root →
  edit_node cfg hasher (sphere_editor mDig cfg e) root root_coord s
  = Ok (root', s') →
  ∀ v, in_world cfg v →
       voxel_at cfg (GetLeafLevel cfg) s' root' v
       = voxel_at cfg (GetLeafLevel cfg) s root v && negb (in_sphere cfg e v).
Proof.
  intros Hcfg Hlv Hfit Hc Hworld Hedit v Hw.
  destruct (edited_world_ok cfg hasher s root Hcfg Hlv Hworld) as [Hs Hv].
  destruct (edit_node_sound cfg hasher _ (sphere_digs cfg e) root s root' s'
              Hcfg Hlv (sphere_dig_removes cfg e Hlv Hfit Hc) Hs Hv Hedit)
    as (_ & _ & _ & Hrel).
  apply Hrel; [|done]. by apply in_cube_root.
Qed.

Lemma sphere_dig_voxels_witness :
  ∃ root s root' s',
    edit_node example_config example_hasher
      (aabb_editor example_config example_aabb) Null root_coord
      (empty_pool example_config) = Ok (root, s)
    ∧ edit_node example_config example_hasher
        (sphere_editor mDig example_config example_sphere) root root_coord s
      = Ok (root', s')
    ∧ voxel_at example_config (GetLeafLevel example_config) s' root'
        (mk_vec3 3 0 0) = false.
Proof.
  destruct (edit_node example_config example_hasher
              (aabb_editor example_config example_aabb) Null root_coord
              (empty_pool example_config)) as [[root s]|] eqn:E1;
    [|vm_compute in E1; discriminate].
  destruct (edit_node example_config example_hasher
              (sphere_editor mDig example_config example_sphere) root root_coord s)
    as [[root' s']|] eqn:E2.
  2:{ exfalso. vm_compute in E1. injection E1 as <- <-.
      vm_compute in E2. discriminate. }
  exists root, s, root', s'. split; [reflexivity|]. split; [exact E2|].
  rewrite (sphere_dig_voxels example_config example_hasher example_sphere
             s root s' root'
             example_config_ok example_levels example_fit
             center_fits_example
             (edited_step _ _ _ _ _ _ _ (edited_empty _ _) E1) E2
             (mk_vec3 3 0 0));
    [|vm_compute; repeat split; congruence].
  apply andb_false_intro2. reflexivity.
Defined.

(** ** AABB fills of arbitrary worlds *)

(** X3: an AABB fill adds exactly the box.  After the edit of any world
    of at most 31 voxel levels with [AABBEditor], a voxel of the world is
    occupied exactly when it was occupied before or lies in
    [[aabb_min, aabb_max)]. *)
Theorem aabb_fill_voxels (cfg : Config) (hasher : list Z → Z)
    (e : AABBEditor) (s : NodePool) (root : NodePointer)
    (s' : NodePool) (root' : NodePointer) :
  cfg_ok cfg → (0 < GetNodeLevels cfg)%nat → (GetVoxelLevel cfg <= 31)%nat →
  edited_world cfg hasher s root →
  edit_node cfg hasher (aabb_editor cfg e) root root_coord s = Ok (root', s') →
  ∀ v, in_world cfg v →
       voxel_at cfg (GetLeafLevel cfg) s' root' v
       = voxel_at cfg (GetLeafLevel cfg) s root v || in_box cfg e v.
Proof.
  intros Hcfg Hlv Hfit Hworld Hedit.
  destruct (edited_world_ok cfg hasher s root Hcfg Hlv Hworld) as [Hs Hv].
  by destruct (aabb_edit_voxels cfg hasher e s root s' root'
                 Hcfg Hlv Hfit Hs Hv Hedit) as (_ & _ & _ & H).
Qed.

Lemma aabb_fill_voxels_witness :
  ∃ root s root' s',
    edit_node example_config example_hasher
      (aabb_editor example_config example_aabb) Null root_coord
      (empty_pool example_config) = Ok (root, s)
    ∧ edit_node example_config example_hasher
        (aabb_editor example_config example_aabb2) root root_coord s
      = Ok (root', s')
    ∧ voxel_at example_config (GetLeafLevel example_config) s' root'
        (mk_vec3 3 0 0) = true
    ∧ voxel_at example_config (GetLeafLevel example_config) s' root'
        (mk_vec3 0 4 0) = true.
Proof.
  destruct (edit_node example_config example_hasher
              (aabb_editor example_config example_aabb) Null root_coord
              (empty_pool example_config)) as [[root s]|] eqn:E1;
    [|vm_compute in E1; discriminate].
  destruct (edit_node example_config example_hasher
              (aabb_editor example_config example_aabb2) root root_coord s)
    as [[root' s']|] eqn:E2.
  2:{ exfalso. vm_compute in E1. injection E1 as <- <-.
      vm_compute in E2. discriminate. }
  exists root, s, root', s'. split; [reflexivity|]. split; [exact E2|].
  pose proof (aabb_fill_voxels example_config example_hasher example_aabb2
                s root s' root'
                example_config_ok example_levels example_fit
                (edited_step _ _ _ _ _ _ _ (edited_empty _ _) E1) E2) as H.
  split.
  - rewrite (H (mk_vec3 3 0 0)) by (vm_compute; repeat split; congruence).
    apply orb_true_iff. left.
    vm_compute in E1. injection E1 as <- <-. reflexivity.
  - rewrite (H (mk_vec3 0 4 0)) by (vm_compute; repeat split; congruence).
    apply orb_true_iff. right. reflexivity.
Defined.

(** Two valid roots of one pool that hold the same voxels are the same
    pointer. *)
Lemma same_voxels_same_root cfg hasher s p q :
  cfg_ok cfg → pool_ok cfg hasher s →
  valid cfg hasher (GetLeafLevel cfg) s 0 p →
  valid cfg hasher (GetLeafLevel cfg) s 0 q →
  (∀ v, in_world cfg v →
        voxel_at cfg (GetLeafLevel cfg) s p v
        = voxel_at cfg (GetLeafLevel cfg) s q v) →
  p = q.
Proof. intros Hcfg Hs Hp Hq Hv. by eapply (valid_canonical cfg hasher Hcfg). Qed.

(** X4: refilling a box changes nothing.  Applying the same AABB fill a
    second time, to the root the first fill returned, returns that root
    pointer again. *)
Theorem aabb_fill_idempotent (cfg : Config) (hasher : list Z → Z)
    (e : AABBEditor) (s : NodePool) (root : NodePointer)
    (r1 r2 : NodePointer) (s1 s2 : NodePool) :
  cfg_ok cfg → (0 < GetNodeLevels cfg)%nat → (GetVoxelLevel cfg <= 31)%nat →
  edited_world cfg hasher s root →
  edit_node cfg hasher (aabb_editor cfg e) root root_coord s = Ok (r1, s1) →
  edit_node cfg hasher (aabb_editor cfg e) r1 root_coord s1 = Ok (r2, s2) →
  r2 = r1.
Proof.
  intros Hcfg Hlv Hfit Hworld E1 E2.
  destruct (edited_world_ok cfg hasher s root Hcfg Hlv Hworld) as [Hs Hv].
  destruct (aabb_edit_voxels cfg hasher e s root s1 r1
              Hcfg Hlv Hfit Hs Hv E1) as (Hs1 & _ & Hv1 & H1).
  destruct (aabb_edit_voxels cfg hasher e s1 r1 s2 r2
              Hcfg Hlv Hfit Hs1 Hv1 E2) as (Hs2 & Hext & Hv2 & H2).
  apply (same_voxels_same_root cfg hasher s2); [done|done|done| |].
  { by eapply valid_mono. }
  intros v Hw.
  rewrite (voxel_at_mono cfg hasher Hcfg _ s1 s2 0 r1 v) by done.
  rewrite (H2 v Hw), (H1 v Hw). by destruct (voxel_at _ _ s root v), (in_box cfg e v).
Qed.

Lemma aabb_fill_idempotent_witness :
  ∃ r1 s1 r2 s2,
    edit_node example_config example_hasher
      (aabb_editor example_config example_aabb) Null root_coord
      (empty_pool example_config) = Ok (r1, s1)
    ∧ edit_node example_config example_hasher
        (aabb_editor example_config example_aabb) r1 root_coord s1 = Ok (r2, s2)
    ∧ r2 = r1.
Proof.
  destruct (edit_node example_config example_hasher
              (aabb_editor example_config example_aabb) Null root_coord
              (empty_pool example_config)) as [[r1 s1]|] eqn:E1;
    [|vm_compute in E1; discriminate].
  destruct (edit_node example_config example_hasher
              (aabb_editor example_config example_aabb) r1 root_coord s1)
    as [[r2 s2]|] eqn:E2.
  2:{ exfalso. vm_compute in E1. injection E1 as <- <-.
      vm_compute in E2. discriminate. }
  exists r1, s1, r2, s2. split; [reflexivity|]. split; [exact E2|].
  exact (aabb_fill_idempotent example_config example_hasher example_aabb
           (empty_pool example_config) Null r1 r2 s1 s2
           example_config_ok example_levels example_fit
           (edited_empty _ _) E1 E2).
Defined.

(** X5: an empty box changes nothing.  When [aabb_max] is not above
    [aabb_min] on some axis, the AABB fill of any world returns the root
    pointer it was given. *)
Theorem aabb_empty_box_noop (cfg : Config) (hasher : list Z → Z)
    (e : AABBEditor) (s : NodePool) (root : NodePointer)
    (s' : NodePool) (root' : NodePointer) :
  cfg_ok cfg → (0 < GetNodeLevels cfg)%nat → (GetVoxelLevel cfg <= 31)%nat →
  any_lessThanEqual (aabb_max e) (aabb_min e) = true →
  edited_world cfg hasher s root →
  edit_node cfg hasher (aabb_editor cfg e) root root_coord s = Ok (root', s') →
  root' = root.
Proof.
  intros Hcfg Hlv Hfit Hempty Hworld Hedit.
  destruct (edited_world_ok cfg hasher s root Hcfg Hlv Hworld) as [Hs Hv].
  destruct (aabb_edit_voxels cfg hasher e s root s' root'
              Hcfg Hlv Hfit Hs Hv Hedit) as (Hs' & Hext & Hv' & H).
  apply (same_voxels_same_root cfg hasher s'); [done|done|done| |].
  { by eapply valid_mono. }
  intros v Hw.
  rewrite (voxel_at_mono cfg hasher Hcfg _ s s' 0 root v) by done.
  rewrite (H v Hw).
  assert (in_box cfg e v = false) as ->; [|by rewrite orb_false_r].
  unfold in_box, AABBEditor_VoxelInRange, all_greaterThanEqual, lessThan, vec_all.
  unfold any_lessThanEqual, vec_any in Hempty. cbn [pos].
  apply not_true_is_false. intros Hbox.
  repeat (apply andb_true_iff in Hbox as [Hbox ?]).
  repeat (apply orb_true_iff in Hempty as [Hempty|Hempty]); lia.
Qed.

Lemma aabb_empty_box_noop_witness :
  ∃ root s root' s',
    edit_node example_config example_hasher
      (aabb_editor example_config example_aabb) Null root_coord
      (empty_pool example_config) = Ok (root, s)
    ∧ edit_node example_config example_hasher
        (aabb_editor example_config (mk_aabb (mk_vec3 5 0 0) (mk_vec3 3 8 8) 7))
        root root_coord s = Ok (root', s')
    ∧ root' = root.
Proof.
  destruct (edit_node example_config example_hasher
              (aabb_editor example_config example_aabb) Null root_coord
              (empty_pool example_config)) as [[root s]|] eqn:E1;
    [|vm_compute in E1; discriminate].
  destruct (edit_node example_config example_hasher
              (aabb_editor example_config (mk_aabb (mk_vec3 5 0 0) (mk_vec3 3 8 8) 7))
              root root_coord s) as [[root' s']|] eqn:E2.
  2:{ exfalso. vm_compute in E1. injection E1 as <- <-.
      vm_compute in E2. discriminate. }
  exists root, s, root', s'. split; [reflexivity|]. split; [exact E2|].
  exact (aabb_empty_box_noop example_config example_hasher
           (mk_aabb (mk_vec3 5 0 0) (mk_vec3 3 8 8) 7) s root s' root'
           example_config_ok example_levels example_fit eq_refl
           (edited_step _ _ _ _ _ _ _ (edited_empty _ _) E1) E2).
Defined.

(** ** What every edit keeps *)

(** X13: old roots stay readable.  An edit, with any editor, never
    disturbs the nodes of the world it starts from: after it the old root
    pointer still reads every voxel as before. *)
Theorem edit_keeps_old_root (cfg : Config) (hasher : list Z → Z)
    (editor : Editor) (s : NodePool) (root : NodePointer)
    (s' : NodePool) (root' : NodePointer) (v : u32vec3) :
  cfg_ok cfg → (0 < GetNodeLevels cfg)%nat →
  edited_world cfg hasher s root →
  edit_node cfg hasher editor root root_coord s = Ok (root', s') →
  voxel_at cfg (GetLeafLevel cfg) s' root v
  = voxel_at cfg (GetLeafLevel cfg) s root v.
Proof.
  intros Hcfg Hlv Hworld Hedit.
  destruct (edited_world_ok cfg hasher s root Hcfg Hlv Hworld) as [Hs Hv].
  destruct (edit_node_sound cfg hasher editor any_change root s root' s'
              Hcfg Hlv (any_editor_respects _ _) Hs Hv Hedit)
    as (Hs' & Hext & _ & _).
  by apply (voxel_at_mono cfg hasher Hcfg _ s s' 0 root v).
Qed.

Lemma edit_keeps_old_root_witness :
  ∃ root s root' s',
    edit_node example_config example_hasher
      (aabb_editor example_config example_aabb) Null root_coord
      (empty_pool example_config) = Ok (root, s)
    ∧ edit_node example_config example_hasher
        (sphere_editor mDig example_config example_sphere) root root_coord s
      = Ok (root', s')
    ∧ voxel_at example_config (GetLeafLevel example_config) s' root'
        (mk_vec3 3 0 0) = false
    ∧ voxel_at example_config (GetLeafLevel example_config) s' root
        (mk_vec3 3 0 0) = true.
Proof.
  destruct (edit_node example_config example_hasher
              (aabb_editor example_config example_aabb) Null root_coord
              (empty_pool example_config)) as [[root s]|] eqn:E1;
    [|vm_compute in E1; discriminate].
  destruct (edit_node example_config example_hasher
              (sphere_editor mDig example_config example_sphere) root root_coord s)
    as [[root' s']|] eqn:E2.
  2:{ exfalso. vm_compute in E1. injection E1 as <- <-.
      vm_compute in E2. discriminate. }
  exists root, s, root', s'. split; [reflexivity|]. split; [exact E2|].
  split.
  - vm_compute in E1. injection E1 as <- <-.
    vm_compute in E2. injection E2 as <- <-. reflexivity.
  - rewrite (edit_keeps_old_root example_config example_hasher _ s root s' root'
               (mk_vec3 3 0 0) example_config_ok example_levels
               (edited_step _ _ _ _ _ _ _ (edited_empty _ _) E1) E2).
    vm_compute in E1. injection E1 as <- <-. reflexivity.
Defined.

(** X14: an edit that asks for no change allocates nothing.  When the
    editor never answers Clear or Fill and its [EditVoxel] returns every
    bit as it was, [edit_node] returns the pointer it was given and
    leaves the pool untouched ([edit_leaf] and [edit_inner_node] return
    early when nothing changed). *)
Theorem edit_without_change (cfg : Config) (hasher : list Z → Z)
    (editor : Editor) (node : NodePointer) (coord : NodeCoord) (s : NodePool) :
  (∀ coord b, EditVoxel editor coord b = b) →
  (∀ coord p, EditNode editor coord p = kNotAffected
              ∨ EditNode editor coord p = kProceed) →
  edit_node cfg hasher editor node coord s = Ok (node, s).
Proof.
  intros Hvoxel Hnode. unfold edit_node.
  by apply edit_node_at_unchanged.
Qed.

Lemma edit_without_change_witness :
  edit_node example_config example_hasher
    (mk_editor (λ _ _, kProceed) (λ _ b, b)) Null root_coord
    (empty_pool example_config)
  = Ok (Null, empty_pool example_config).
Proof.
  apply (edit_without_change example_config example_hasher
           (mk_editor (λ _ _, kProceed) (λ _ b, b))).
  - reflexivity.
  - intros. right. reflexivity.
Defined.

(** X15: one world, one root.  Within one pool, two edits of the same
    root, with any editors, that leave the same voxels return the same
    root pointer. *)
Theorem equal_worlds_share_root (cfg : Config) (hasher : list Z → Z)
    (editor1 editor2 : Editor) (s : NodePool) (root : NodePointer)
    (r1 r2 : NodePointer) (s1 s2 : NodePool) :
  cfg_ok cfg → (0 < GetNodeLevels cfg)%nat →
  edited_world cfg hasher s root →
  edit_node cfg hasher editor1 root root_coord s = Ok (r1, s1) →
  edit_node cfg hasher editor2 root root_coord s1 = Ok (r2, s2) →
  (∀ v, in_world cfg v →
        voxel_at cfg (GetLeafLevel cfg) s1 r1 v
        = voxel_at cfg (GetLeafLevel cfg) s2 r2 v) →
  r1 = r2.
Proof.
  intros Hcfg Hlv Hworld E1 E2 Hsame.
  destruct (edited_world_ok cfg hasher s root Hcfg Hlv Hworld) as [Hs Hv].
  destruct (edit_node_sound cfg hasher editor1 any_change root s r1 s1
              Hcfg Hlv (any_editor_respects _ _) Hs Hv E1)
    as (Hs1 & Hext1 & Hv1 & _).
  destruct (edit_node_sound cfg hasher editor2 any_change root s1 r2 s2
              Hcfg Hlv (any_editor_respects _ _) Hs1
              (valid_mono cfg hasher _ s s1 0 root Hext1 Hv) E2)
    as (Hs2 & Hext2 & Hv2 & _).
  apply (same_voxels_same_root cfg hasher s2); [done|done| |done|].
  { by eapply valid_mono. }
  intros v Hw.
  rewrite (voxel_at_mono cfg hasher Hcfg _ s1 s2 0 r1 v) by done.
  by apply Hsame.
Qed.

Lemma equal_worlds_share_root_witness :
  ∃ r1 s1 r2 s2,
    edit_node example_config example_hasher
      (aabb_editor example_config example_aabb) Null root_coord
      (empty_pool example_config) = Ok (r1, s1)
    ∧ edit_node example_config example_hasher
        (aabb_editor example_config example_aabb) Null root_coord s1 = Ok (r2, s2)
    ∧ r1 = r2.
Proof.
  destruct (edit_node example_config example_hasher
              (aabb_editor example_config example_aabb) Null root_coord
              (empty_pool example_config)) as [[r1 s1]|] eqn:E1;
    [|vm_compute in E1; discriminate].
  destruct (edit_node example_config example_hasher
              (aabb_editor example_config example_aabb) Null root_coord s1)
    as [[r2 s2]|] eqn:E2.
  2:{ exfalso. vm_compute in E1. injection E1 as <- <-.
      vm_compute in E2. discriminate. }
  exists r1, s1, r2, s2. split; [reflexivity|]. split; [exact E2|].
  apply (equal_worlds_share_root example_config example_hasher _ _
           (empty_pool example_config) Null r1 r2 s1 s2
           example_config_ok example_levels (edited_empty _ _) E1 E2).
  intros v Hw.
  destruct (aabb_edit_voxels example_config example_hasher example_aabb
              (empty_pool example_config) Null s1 r1
              example_config_ok example_levels example_fit
              (pool_ok_empty _ _ example_config_ok) (valid_Null _ _ _ _ _) E1)
    as (Hs1 & _ & _ & H1).
  destruct (aabb_edit_voxels example_config example_hasher example_aabb
              s1 Null s2 r2
              example_config_ok example_levels example_fit
              Hs1 (valid_Null _ _ _ _ _) E2) as (_ & _ & _ & H2).
  rewrite (H1 v Hw), (H2 v Hw). by rewrite !voxel_at_Null.
Defined.

(** ** VoxImporter *)

Lemma vec_eqb_eq a b : vec_eqb a b = true ↔ a = b.
Proof.
  destruct a as [x y z], b as [x' y' z']. unfold vec_eqb. simpl.
  rewrite !andb_true_iff, !Z.eqb_eq. split.
  - by intros [[-> ->] ->].
  - by intros [= -> -> ->].
Qed.






(** X7: the first voxel of the model at a position gives the colour.
    [VoxImporter::EditVoxel] at the position of model voxel [d], with no
    earlier model voxel at that position, sets the voxel and returns the
    palette entry of [d]'s colour index; at a position the model does not
    cover it returns bit and colour as they were. *)
Theorem VoxImporter_EditVoxel_color (rgba : Z → Z) (imp : VoxImporter)
    (coord : NodeCoord) (voxel : bool) (color : Z) :
  (∀ pre d post,
     voxels imp = pre ++ d :: post →
     vox_pos imp d = pos coord →
     Forall (λ d', vox_pos imp d' ≠ pos coord) pre →
     VoxImporter_EditVoxel rgba imp coord voxel color
     = (true, rgba (default 0 (palette imp !! Z.to_nat (color_index d)))))
  ∧ (vox_at imp (pos coord) = false →
     VoxImporter_EditVoxel rgba imp coord voxel color = (voxel, color)).
Proof.
  unfold VoxImporter_EditVoxel, vox_at. split.
  - intros pre d post -> Hd Hpre.
    induction Hpre as [|d' pre Hd' _ IH]; cbn [app VoxImporter_EditVoxel_loop].
    + rewrite Hd. by rewrite (proj2 (vec_eqb_eq _ _) eq_refl).
    + destruct (vec_eqb (pos coord) (vox_pos imp d')) eqn:E; [|done].
      apply vec_eqb_eq in E. congruence.
  - generalize (voxels imp). intros vs.
    induction vs as [|d vs IH]; [done|]. cbn [existsb VoxImporter_EditVoxel_loop].
    intros [E1 E2]%orb_false_iff. rewrite E1. by apply IH.
Qed.

Lemma VoxImporter_EditVoxel_color_witness :
  VoxImporter_EditVoxel (λ c, c) example_vox (mk_coord 3 (mk_vec3 4 4 4)) false 5
  = (true, 101)
  ∧ VoxImporter_EditVoxel (λ c, c) example_vox (mk_coord 3 (mk_vec3 0 0 0)) false 5
    = (false, 5).
Proof.
  destruct (VoxImporter_EditVoxel_color (λ c, c) example_vox
              (mk_coord 3 (mk_vec3 4 4 4)) false 5) as [H1 _].
  destruct (VoxImporter_EditVoxel_color (λ c, c) example_vox
              (mk_coord 3 (mk_vec3 0 0 0)) false 5) as [_ H2].
  split.
  - apply (H1 [] (mk_voxel 0 0 0 1) [mk_voxel 1 0 0 2; mk_voxel 0 0 0 3]);
      [reflexivity|reflexivity|constructor].
  - apply H2. reflexivity.
Defined.

(** ** [PagedVector::ForeachPage] *)

Lemma ForeachPage_loop_covers pv start count fuel cur :
  page_geometry_ok pv →
  0 <= start → 0 <= count < 2 ^ 32 → start + count < 2 ^ 64 →
  start <= cur <= start + count →
  (Z.to_nat (start + count - cur) <= fuel)%nat →
  ∃ calls, ForeachPage_loop fuel pv start count cur = Some calls
           ∧ calls_cover calls cur (start + count)
           ∧ Forall (call_in_page pv) calls.
Proof.
  intros (Hbits & Hsize & Hmask) Hstart Hcount Hend.
  assert (0 < pv_page_size pv < 2 ^ 32) as Hsz.
  { rewrite Hsize. split; [apply Z.pow_pos_nonneg; lia|].
    apply Z.pow_lt_mono_r; lia. }
  revert cur. induction fuel as [|fuel IH]; intros cur Hcur Hfuel.
  - assert (cur = start + count) as -> by lia.
    exists []. cbn [ForeachPage_loop]. unfold wrap64.
    rewrite (Z.mod_small (start + count)) by lia.
    rewrite Z.ltb_irrefl. by split.
  - cbn [ForeachPage_loop]. unfold wrap64 at 1.
    rewrite (Z.mod_small (start + count)) by lia.
    destruct (Z.ltb_spec cur (start + count)) as [Hlt|Hge].
    2:{ exists []. split; [done|]. split; [cbn; lia|done]. }
    set (off := wrap32 (Z.land cur (pv_page_mask pv))).
    assert (off = cur mod pv_page_size pv) as Hoff.
    { unfold off. rewrite Hmask, Hsize, Z.sub_1_r, <- Z.ones_equiv.
      rewrite Z.land_ones by lia. unfold wrap32. apply Z.mod_small.
      pose proof (Z.mod_pos_bound cur (2 ^ pv_page_bits pv)
                    ltac:(apply Z.pow_pos_nonneg; lia)).
      rewrite <- Hsize in *. lia. }
    pose proof (Z.mod_pos_bound cur (pv_page_size pv) ltac:(lia)) as Hmod.
    set (n := Z.min (wrap32 (pv_page_size pv - off))
                    (wrap32 (wrap64 (start + count - cur)))).
    assert (n = Z.min (pv_page_size pv - off) (start + count - cur)) as Hn.
    { unfold n, wrap32, wrap64.
      rewrite (Z.mod_small (start + count - cur) (2 ^ 64)) by lia.
      rewrite (Z.mod_small (start + count - cur)) by lia.
      rewrite (Z.mod_small (pv_page_size pv - off)) by lia. done. }
    assert (0 < n) as Hnpos by lia.
    assert (wrap64 (cur + n) = cur + n) as Hnext.
    { unfold wrap64. apply Z.mod_small. lia. }
    rewrite Hnext.
    destruct (IH (cur + n) ltac:(lia) ltac:(lia)) as (calls & -> & Hcov & Hall).
    eexists. split; [done|]. split.
    + cbn [calls_cover call_idx call_inpage_count]. done.
    + constructor; [|done].
      unfold call_in_page.
      cbn [call_idx call_page_id call_page_offset call_inpage_count].
      split; [done|]. split; [lia|].
      by rewrite Z.shiftr_div_pow2, Hsize by lia.
Qed.

(** X10: [ForeachPage] cuts the range into page-sized pieces.  For a
    power-of-two page size and fewer than [2^32] elements, the loop ends
    within [count] iterations; its calls are consecutive, non-empty, cover
    exactly [[start_idx, start_idx + count)], and each stays within the
    page it names. *)
Theorem ForeachPage_covers (pv : PagedVector) (start_idx count : Z) (fuel : nat) :
  page_geometry_ok pv →
  0 <= start_idx → 0 <= count < 2 ^ 32 → start_idx + count < 2 ^ 64 →
  (Z.to_nat count <= fuel)%nat →
  ∃ calls, ForeachPage fuel pv start_idx count = Some calls
           ∧ calls_cover calls start_idx (start_idx + count)
           ∧ Forall (call_in_page pv) calls.
Proof.
  intros Hpv Hstart Hcount Hend Hfuel. unfold ForeachPage.
  apply ForeachPage_loop_covers; try done; [lia|].
  by replace (start_idx + count - start_idx) with count by lia.
Qed.

Lemma ForeachPage_covers_witness :
  ForeachPage 20 (mk_paged_vector 3 7 8) 5 14
  = Some [mk_page_call 5 0 5 3; mk_page_call 8 1 0 8; mk_page_call 16 2 0 3].
Proof.
  destruct (ForeachPage_covers (mk_paged_vector 3 7 8) 5 14 20)
    as (calls & E & _); [ |lia|lia|lia|lia| ].
  - unfold page_geometry_ok. simpl. lia.
  - rewrite E. vm_compute in E. by injection E as <-.
Defined.

(** X11: when exactly [2^32] elements remain, [ForeachPage] makes no
    progress: the remaining count is cast to 32 bits and becomes 0, so
    the piece is empty and the index stays where it is, however many
    iterations are allowed. *)
Theorem ForeachPage_stuck (pv : PagedVector) (start_idx : Z) (fuel : nat) :
  page_geometry_ok pv →
  0 <= start_idx → start_idx + 2 ^ 32 < 2 ^ 64 →
  ForeachPage fuel pv start_idx (2 ^ 32) = None.
Proof.
  intros (Hbits & Hsize & Hmask) Hstart Hend. unfold ForeachPage.
  assert (0 < pv_page_size pv < 2 ^ 32) as Hsz.
  { rewrite Hsize. split; [apply Z.pow_pos_nonneg; lia|].
    apply Z.pow_lt_mono_r; lia. }
  induction fuel as [|fuel IH]; cbn [ForeachPage_loop]; unfold wrap64 at 1;
    rewrite (Z.mod_small (start_idx + 2 ^ 32)) by lia;
    (destruct (Z.ltb_spec start_idx (start_idx + 2 ^ 32)) as [_|Hge]; [|lia]);
    [done|].
  set (off := wrap32 (Z.land start_idx (pv_page_mask pv))).
  assert (off = start_idx mod pv_page_size pv) as Hoff.
  { unfold off. rewrite Hmask, Hsize, Z.sub_1_r, <- Z.ones_equiv.
    rewrite Z.land_ones by lia. unfold wrap32. apply Z.mod_small.
    pose proof (Z.mod_pos_bound start_idx (2 ^ pv_page_bits pv)
                  ltac:(apply Z.pow_pos_nonneg; lia)).
    rewrite <- Hsize in *. lia. }
  pose proof (Z.mod_pos_bound start_idx (pv_page_size pv) ltac:(lia)) as Hmod.
  replace (start_idx + 2 ^ 32 - start_idx) with (2 ^ 32) by lia.
  assert (wrap32 (wrap64 (2 ^ 32)) = 0) as -> by reflexivity.
  assert (wrap32 (pv_page_size pv - off) = pv_page_size pv - off) as ->.
  { unfold wrap32. apply Z.mod_small. lia. }
  rewrite Z.min_r by lia. rewrite Z.add_0_r.
  unfold wrap64 at 1. rewrite (Z.mod_small start_idx) by lia.
  by rewrite IH.
Qed.

Lemma ForeachPage_stuck_witness :
  ForeachPage 1000 (mk_paged_vector 3 7 8) 0 (2 ^ 32) = None.
Proof.
  apply ForeachPage_stuck.
  - unfold page_geometry_ok. simpl. lia.
  - lia.
  - lia.
Defined.

(** ** Lookup and insertion *)

(** X12: [find_node] finds a node exactly when it is in the bucket.  In
    a pool built by upserts, a non-Null result is the address of a node of
    the bucket whose words, read back from the pages, are the words
    searched for; a Null result means that no node of the bucket has these
    words. *)
Theorem find_node_spec (cfg : Config) (hasher : list Z → Z) (s : NodePool)
    (lv : nat) (node : list Z) :
  cfg_ok cfg → upsert_steps cfg hasher (empty_pool cfg) s →
  (lv < GetNodeLevels cfg)%nat →
  let b := calculate_bucket cfg hasher lv node in
  let p := find_node cfg s lv b node in
  (p ≠ Null →
   (p, node) ∈ bucket_nodes cfg s lv b
   ∧ ∀ i : nat, (i < length node)%nat →
                node !! i = Some (read_word cfg s (p + Z.of_nat i)))
  ∧ (p = Null → ∀ a, (a, node) ∉ bucket_nodes cfg s lv b).
Proof.
  intros Hcfg Hsteps Hlv b p.
  destruct (upsert_steps_ok cfg hasher Hcfg _ _ Hsteps
              (pool_ok_empty cfg hasher Hcfg)) as [Hs _].
  split.
  - intros Hp.
    assert (stored cfg hasher s lv p node) as Hst.
    { apply (find_node_found cfg hasher Hcfg); [done|done|].
      by apply ptr_bool_true. }
    split; [apply Hst|].
    by destruct (stored_read cfg hasher Hcfg s lv p node Hs Hst) as (_ & _ & _ & H).
  - intros Hp a Ha.
    apply (find_node_missing cfg hasher Hcfg s lv node Hs Hlv) with a.
    + fold b. fold p. by rewrite Hp.
    + by split.
Qed.

Lemma example_levels1 : (1 < GetNodeLevels example_config)%nat.
Proof. vm_compute. lia. Qed.

Lemma find_node_spec_witness :
  ∃ p s1,
    upsert_node example_config example_hasher 1 [1; 0] (empty_pool example_config)
    = Ok (p, s1)
    ∧ find_node example_config s1 1
        (calculate_bucket example_config example_hasher 1 [1; 0]) [1; 0] = p
    ∧ [1; 0] !! 1%nat = Some (read_word example_config s1 (p + 1)).
Proof.
  destruct (upsert_node example_config example_hasher 1 [1; 0]
              (empty_pool example_config)) as [[p s1]|] eqn:E;
    [|vm_compute in E; discriminate].
  exists p, s1. split; [reflexivity|].
  assert (find_node example_config s1 1
            (calculate_bucket example_config example_hasher 1 [1; 0]) [1; 0] = p)
    as Hp.
  { vm_compute in E. injection E as <- <-. reflexivity. }
  split; [exact Hp|].
  destruct (find_node_spec example_config example_hasher s1 1 [1; 0]
              example_config_ok
              (upsert_steps_step example_config example_hasher
                 (empty_pool example_config) 1%nat [1; 0] p s1 s1
                 example_levels1 example_leaf_wf E
                 (upsert_steps_refl _ _ _))
              example_levels1) as [H _].
  rewrite Hp in H.
  destruct H as [_ H].
  - vm_compute in E. injection E as <- <-. discriminate.
  - apply (H 1%nat). simpl. lia.
Defined.

(** X16: [upsert_node] only appends.  In a pool built by upserts, a
    successful upsert returns a real address (never a sentinel) at which
    the node's words read back, and every node stored before is still
    stored at its address with its words. *)
Theorem upsert_node_keeps_nodes (cfg : Config) (hasher : list Z → Z)
    (s : NodePool) (lv : nat) (node : list Z) (p : NodePointer) (s' : NodePool) :
  cfg_ok cfg → upsert_steps cfg hasher (empty_pool cfg) s →
  (lv < GetNodeLevels cfg)%nat → wf_node cfg lv node →
  upsert_node cfg hasher lv node s = Ok (p, s') →
  p ≠ Null ∧ p ≠ Filled
  ∧ (∀ i : nat, (i < length node)%nat →
                node !! i = Some (read_word cfg s' (p + Z.of_nat i)))
  ∧ ∀ lv' a ws,
      stored cfg hasher s lv' a ws →
      stored cfg hasher s' lv' a ws
      ∧ ∀ i : nat, (i < length ws)%nat →
                   read_word cfg s' (a + Z.of_nat i)
                   = read_word cfg s (a + Z.of_nat i).
Proof.
  intros Hcfg Hsteps Hlv Hwf Hup.
  destruct (upsert_steps_ok cfg hasher Hcfg _ _ Hsteps
              (pool_ok_empty cfg hasher Hcfg)) as [Hs _].
  destruct (upsert_node_spec cfg hasher Hcfg s lv node p s' Hs Hlv Hwf Hup)
    as (Hs' & Hst & Hiff).
  destruct (stored_not_sentinel cfg hasher Hcfg s' lv p node Hs' Hst)
    as (_ & _ & Hn & Hf & _).
  split; [done|]. split; [done|]. split.
  { by destruct (stored_read cfg hasher Hcfg s' lv p node Hs' Hst)
      as (_ & _ & _ & H). }
  intros lv' a ws Hold.
  assert (stored cfg hasher s' lv' a ws) as Hnew by (apply Hiff; by left).
  split; [done|]. intros i Hi.
  destruct (stored_read cfg hasher Hcfg s lv' a ws Hs Hold) as (_ & _ & _ & H1).
  destruct (stored_read cfg hasher Hcfg s' lv' a ws Hs' Hnew) as (_ & _ & _ & H2).
  specialize (H1 i Hi). specialize (H2 i Hi). congruence.
Qed.

Lemma upsert_node_keeps_nodes_witness :
  ∃ p s1 q s2,
    upsert_node example_config example_hasher 1 [1; 0] (empty_pool example_config)
    = Ok (p, s1)
    ∧ upsert_node example_config example_hasher 1 [2; 0] s1 = Ok (q, s2)
    ∧ stored example_config example_hasher s2 1 p [1; 0].
Proof.
  destruct (upsert_node example_config example_hasher 1 [1; 0]
              (empty_pool example_config)) as [[p s1]|] eqn:E1;
    [|vm_compute in E1; discriminate].
  destruct (upsert_node example_config example_hasher 1 [2; 0] s1)
    as [[q s2]|] eqn:E2.
  2:{ exfalso. vm_compute in E1. injection E1 as <- <-.
      vm_compute in E2. discriminate. }
  exists p, s1, q, s2. split; [reflexivity|]. split; [exact E2|].
  assert (upsert_steps example_config example_hasher
            (empty_pool example_config) s1) as Hsteps.
  { apply (upsert_steps_step _ _ _ 1%nat [1; 0] p s1 s1);
      [exact example_levels1|exact example_leaf_wf|exact E1|constructor]. }
  assert (wf_node example_config 1 [2; 0]) as Hwf.
  { exists 2, [0]. split; [reflexivity|]. vm_compute. reflexivity. }
  destruct (upsert_node_keeps_nodes example_config example_hasher s1 1 [2; 0]
              q s2 example_config_ok Hsteps example_levels1 Hwf E2)
    as (_ & _ & _ & H).
  destruct (upsert_node_spec example_config example_hasher example_config_ok
              (empty_pool example_config) 1 [1; 0] p s1
              (pool_ok_empty _ _ example_config_ok) example_levels1
              example_leaf_wf E1) as (_ & Hst & _).
  exact (proj1 (H 1%nat p [1; 0] Hst)).
Defined.

(** X17: buckets are partitioned by level.  The bucket of a node lies
    within the table of all buckets, and nodes of different levels never
    share a bucket. *)
Theorem calculate_bucket_range (cfg : Config) (hasher : list Z → Z)
    (lv lv' : nat) (node node' : list Z) :
  cfg_ok cfg → (lv < GetNodeLevels cfg)%nat → (lv' < GetNodeLevels cfg)%nat →
  0 <= calculate_bucket cfg hasher lv node < GetTotalBuckets cfg
  ∧ (lv ≠ lv' →
     calculate_bucket cfg hasher lv node ≠ calculate_bucket cfg hasher lv' node').
Proof.
  intros Hcfg Hlv Hlv'.
  pose proof (calculate_bucket_level cfg hasher lv node Hcfg Hlv) as H.
  pose proof (calculate_bucket_level cfg hasher lv' node' Hcfg Hlv') as H'.
  split; [by eapply bucket_level_range|].
  intros Hne Heq. apply Hne. rewrite Heq in H.
  by eapply bucket_level_inj.
Qed.

Lemma calculate_bucket_range_witness :
  0 <= calculate_bucket example_config example_hasher 0 [3; 32; 34]
     < GetTotalBuckets example_config
  ∧ calculate_bucket example_config example_hasher 0 [3; 32; 34]
    ≠ calculate_bucket example_config example_hasher 1 [1; 0].
Proof.
  destruct (calculate_bucket_range example_config example_hasher 0 1
              [3; 32; 34] [1; 0] example_config_ok
              example_levels example_levels1) as [H1 H2].
  split; [exact H1|]. apply H2. discriminate.
Defined.

(** ** The colour pool's allocator *)

(** X18: what [Append] hands out is enough.  For a positive page size
    and a count whose rounding does not leave 64 bits, a successful
    [Append] returns the first word after the pages used so far, the pages
    it takes hold [count] words, and the pages used never exceed the pages
    there are. *)
Theorem Append_room (v : SafePagedVector) (count : Z)
    (init : (Z → Z) → (Z → Z)) (idx : Z) (v' : SafePagedVector) :
  0 < m_page_size v → 0 <= count → count + m_page_size v - 1 < 2 ^ 64 →
  Append v count init = Some (idx, v') →
  idx = used_words v
  ∧ idx + count <= used_words v'
  ∧ m_used_pages v' <= m_total_pages v'.
Proof.
  intros Hsize Hcount Hfit Happ.
  destruct (Append_Some v count init idx v' Happ)
    as (Hidx & Hused & Hle & Hps & Htot & _).
  split; [done|]. split; [|by rewrite Htot].
  subst idx. unfold used_words. rewrite Hused, Hps.
  unfold required_pages, wrap64. rewrite (Z.mod_small _ (2 ^ 64)) by lia.
  set (P := m_page_size v) in *. set (U := m_used_pages v).
  clearbody P U.
  pose proof (Z.div_mod (count + P - 1) P ltac:(lia)) as Hdm.
  pose proof (Z.mod_pos_bound (count + P - 1) P Hsize) as Hmod.
  nia.
Qed.

Lemma Append_room_witness :
  ∃ idx v',
    Append example_leaves 20 (λ d, d) = Some (idx, v')
    ∧ idx = 0 ∧ 20 <= used_words v'.
Proof.
  destruct (Append example_leaves 20 (λ d, d)) as [[idx v']|] eqn:E;
    [|vm_compute in E; discriminate].
  exists idx, v'. split; [reflexivity|].
  destruct (Append_room example_leaves 20 (λ d, d) idx v'
              ltac:(reflexivity) ltac:(lia) ltac:(vm_compute; reflexivity) E)
    as (H1 & H2 & _).
  split; [exact H1|]. rewrite H1 in H2. exact H2.
Defined.

(** ** [VoxImporter::LoadFromFile] *)

Lemma le32_le32_bytes x : word_ok x → le32 (le32_bytes x) = x.
Proof.
  unfold word_ok, le32, le32_bytes. change (2 ^ 32) with 4294967296. intros Hx.
  Z.to_euclidean_division_equations. lia.
Qed.

Lemma voxels_of_voxel_bytes vs : voxels_of_bytes (voxel_bytes vs) = vs.
Proof.
  induction vs as [|[x y z c] vs IH]; [done|].
  unfold voxel_bytes in *. cbn [mbind list_bind app voxels_of_bytes]. simpl.
  by rewrite IH.
Qed.

Lemma length_voxel_bytes vs : length (voxel_bytes vs) = (4 * length vs)%nat.
Proof.
  induction vs as [|d vs IH]; [done|].
  unfold voxel_bytes in *. cbn [mbind list_bind]. rewrite length_app, IH.
  cbn [length]. lia.
Qed.

Lemma words_of_words_bytes ws : Forall word_ok ws → words_of_bytes (words_bytes ws) = ws.
Proof.
  induction 1 as [|w ws Hw _ IH]; [done|].
  unfold words_bytes in *. cbn [mbind list_bind].
  change (le32_bytes w ++ ?l) with
    (w mod 256 :: (w / 256) mod 256 :: (w / 65536) mod 256
     :: (w / 16777216) mod 256 :: l).
  cbn [words_of_bytes]. rewrite IH. f_equal.
  by apply (le32_le32_bytes w).
Qed.

Lemma length_words_bytes ws : length (words_bytes ws) = (4 * length ws)%nat.
Proof.
  induction ws as [|w ws IH]; [done|].
  unfold words_bytes in *. cbn [mbind list_bind]. rewrite length_app, IH.
  cbn [length le32_bytes]. lia.
Qed.

Lemma length_resize_voxels n vs : length (resize_voxels n vs) = n.
Proof.
  unfold resize_voxels. rewrite length_app, length_take, length_replicate. lia.
Qed.

(** Reading exactly the bytes that come next. *)
Lemma fread_app n bs rest eof :
  length bs = n →
  fread n (mk_file (bs ++ rest) eof) = (bs, mk_file rest eof).
Proof.
  intros <-. unfold fread. cbn [f_rest f_eof].
  rewrite take_app_length, drop_app_length. f_equal. f_equal.
  rewrite length_app.
  destruct (Nat.ltb_spec (length bs + length rest) (length bs)); [lia|].
  by rewrite orb_false_r.
Qed.

Lemma overlay_full bs buf : length buf = length bs → overlay bs buf = bs.
Proof.
  intros H. unfold overlay. rewrite drop_ge by lia. by rewrite app_nil_r.
Qed.

Lemma fread_u32_app old x rest eof :
  word_ok x →
  fread_u32 old (mk_file (le32_bytes x ++ rest) eof) = (x, mk_file rest eof).
Proof.
  intros Hx. unfold fread_u32. rewrite fread_app by done.
  rewrite overlay_full by done. by rewrite le32_le32_bytes.
Qed.

(** One iteration of the loop reads one well-formed chunk. *)
Lemma LoadFromFile_loop_chunk fuel imp c rest :
  chunk_ok c → length (palette imp) = 256%nat →
  LoadFromFile_loop (S fuel) imp (mk_file (chunk_bytes c ++ rest) false)
  = LoadFromFile_loop fuel (apply_chunk imp c) (mk_file rest false).
Proof.
  intros Hc Hpal. cbn [LoadFromFile_loop f_eof].
  destruct c as [size|vs|pal|id child_size content]; cbn [chunk_bytes apply_chunk].
  - destruct Hc as (Hx & Hy & Hz).
    rewrite <- !app_assoc.
    rewrite (fread_app 4 tag_SIZE) by done. cbn [length Nat.eqb negb].
    rewrite (fread_app 4 (le32_bytes 12)) by done. cbn [length Nat.eqb negb le32_bytes].
    rewrite (fread_app 4 (le32_bytes 0)) by done. cbn [length Nat.eqb negb le32_bytes].
    rewrite bool_decide_eq_true_2 by done.
    rewrite !fread_u32_app by done. by destruct size.
  - rewrite <- !app_assoc.
    rewrite (fread_app 4 tag_XYZI) by done. cbn [length Nat.eqb negb].
    rewrite (fread_app 4 (le32_bytes _)) by done. cbn [length Nat.eqb negb le32_bytes].
    rewrite (fread_app 4 (le32_bytes 0)) by done. cbn [length Nat.eqb negb le32_bytes].
    rewrite bool_decide_eq_false_2 by done.
    rewrite bool_decide_eq_true_2 by done.
    rewrite (fread_app 4 (le32_bytes _)) by done. cbn [length Nat.eqb negb].
    change [?a; ?b; ?c; ?d] with (le32_bytes (Z.of_nat (length vs))).
    rewrite le32_le32_bytes by done. rewrite Nat2Z.id.
    rewrite (fread_app (4 * length vs) (voxel_bytes vs))
      by apply length_voxel_bytes.
    rewrite overlay_full
      by (by rewrite !length_voxel_bytes, length_resize_voxels).
    by rewrite voxels_of_voxel_bytes.
  - destruct Hc as (Hlen & Hws).
    rewrite <- !app_assoc.
    rewrite (fread_app 4 tag_RGBA) by done. cbn [length Nat.eqb negb].
    rewrite (fread_app 4 (le32_bytes _)) by done. cbn [length Nat.eqb negb le32_bytes].
    rewrite (fread_app 4 (le32_bytes 0)) by done. cbn [length Nat.eqb negb le32_bytes].
    rewrite bool_decide_eq_false_2 by done.
    rewrite bool_decide_eq_false_2 by done.
    rewrite bool_decide_eq_true_2 by done.
    rewrite (fread_app (4 * 256) (words_bytes pal))
      by (rewrite length_words_bytes; lia).
    rewrite overlay_full by (rewrite !length_words_bytes; lia).
    by rewrite words_of_words_bytes.
  - destruct Hc as (Hlen & Hn1 & Hn2 & Hn3 & Hsz).
    rewrite <- !app_assoc.
    rewrite (fread_app 4 id) by done. rewrite Hlen. cbn [Nat.eqb negb].
    rewrite (fread_app 4 (le32_bytes _)) by done. cbn [length Nat.eqb negb].
    rewrite (fread_app 4 (le32_bytes _)) by done. cbn [length Nat.eqb negb].
    rewrite !bool_decide_eq_false_2 by done.
    rewrite le32_le32_bytes by done.
    unfold fseek_cur. cbn [f_rest]. rewrite Nat2Z.id.
    by rewrite drop_app_length.
Qed.

Lemma apply_chunk_palette imp c :
  chunk_ok c → length (palette imp) = 256%nat →
  length (palette (apply_chunk imp c)) = 256%nat.
Proof. destruct c; cbn; intros Hc H; try done. by destruct Hc. Qed.

(** The loop over the chunks of a well-formed file. *)
Lemma LoadFromFile_loop_chunks fuel imp chunks :
  Forall chunk_ok chunks → length (palette imp) = 256%nat →
  (length chunks < fuel)%nat →
  LoadFromFile_loop fuel imp (mk_file (chunks ≫= chunk_bytes) false)
  = Some (LoadFromFile_end (foldl apply_chunk imp chunks)).
Proof.
  intros Hcs. revert fuel imp.
  induction Hcs as [|c chunks Hc _ IH]; intros fuel imp Hpal Hfuel.
  - destruct fuel as [|fuel]; [cbn in Hfuel; lia|]. done.
  - destruct fuel as [|fuel]; [cbn in Hfuel; lia|].
    cbn [mbind list_bind foldl].
    change (mbind chunk_bytes chunks) with (chunks ≫= chunk_bytes).
    rewrite LoadFromFile_loop_chunk by done.
    apply IH; [by apply apply_chunk_palette|]. cbn [length] in Hfuel. lia.
Qed.

Lemma length_chunk_bytes c : chunk_ok c → (1 <= length (chunk_bytes c))%nat.
Proof.
  destruct c; cbn [chunk_bytes]; intros Hc; rewrite !length_app; cbn [length tag_SIZE tag_XYZI tag_RGBA]; try lia.
  destruct Hc as (-> & _). lia.
Qed.

Lemma length_bind_chunks chunks :
  Forall chunk_ok chunks → (length chunks <= length (chunks ≫= chunk_bytes))%nat.
Proof.
  induction 1 as [|c chunks Hc _ IH]; [done|].
  cbn [mbind list_bind length]. rewrite length_app.
  pose proof (length_chunk_bytes c Hc).
  change (mbind chunk_bytes chunks) with (chunks ≫= chunk_bytes). lia.
Qed.

(** The header of a well-formed file is accepted, and the loop starts
    with the default palette on the first chunk. *)
Lemma LoadFromFile_header version chunks imp :
  LoadFromFile (Some (vox_file version chunks)) imp
  = LoadFromFile_loop (S (length (vox_file version chunks)))
      (InitDefaultPalette imp) (mk_file (chunks ≫= chunk_bytes) false).
Proof.
  unfold LoadFromFile. unfold vox_file at 1.
  rewrite (fread_app 4 tag_VOX) by done. cbn [length Nat.eqb negb orb].
  rewrite bool_decide_eq_true_2 by done. cbn [negb].
  by rewrite (fread_app 4 (le32_bytes version)) by done.
Qed.

(** X8: loading a VOX file reads back what the file holds.  For a file
    made of the magic, a version and any sequence of well-formed chunks,
    [LoadFromFile] resets the palette to the default one, then takes the
    size from every SIZE chunk, the voxels from every XYZI chunk and the
    palette from every RGBA chunk, skips every other chunk by its content
    size, and returns whether voxels are held at the end. *)
Theorem LoadFromFile_reads_chunks (version : Z) (chunks : list VoxChunk)
    (imp : VoxImporter) :
  Forall chunk_ok chunks →
  let imp' := foldl apply_chunk (InitDefaultPalette imp) chunks in
  LoadFromFile (Some (vox_file version chunks)) imp
  = Some (Loaded (negb (bool_decide (voxels imp' = []))) imp').
Proof.
  intros Hcs imp'. rewrite LoadFromFile_header.
  rewrite (LoadFromFile_loop_chunks _ (InitDefaultPalette imp) chunks Hcs eq_refl).
  - done.
  - unfold vox_file. rewrite !length_app.
    pose proof (length_bind_chunks chunks Hcs). lia.
Qed.

Lemma LoadFromFile_reads_chunks_witness :
  LoadFromFile
    (Some (vox_file 150
             [ChOther [77; 65; 73; 78] 40 [];
              ChSize (mk_vec3 2 2 2);
              ChXYZI [mk_voxel 0 0 0 1; mk_voxel 1 0 0 2]]))
    (mk_vox (mk_vec3 0 0 0) [] [] (mk_vec3 0 0 0))
  = Some (Loaded true
            (mk_vox (mk_vec3 2 2 2) [mk_voxel 0 0 0 1; mk_voxel 1 0 0 2]
                    default_palette (mk_vec3 0 0 0))).
Proof.
  apply (LoadFromFile_reads_chunks 150
           [ChOther [77; 65; 73; 78] 40 [];
            ChSize (mk_vec3 2 2 2);
            ChXYZI [mk_voxel 0 0 0 1; mk_voxel 1 0 0 2]]).
  repeat constructor; (done || (unfold word_ok; simpl; lia)).
Defined.

(** X9: a file without voxels keeps the voxels of the last load.  For a
    well-formed file with no XYZI chunk, [LoadFromFile] leaves the
    importer's voxels as they were and reports success exactly when the
    importer already held some. *)
Theorem LoadFromFile_keeps_old_voxels (version : Z) (chunks : list VoxChunk)
    (imp : VoxImporter) :
  Forall chunk_ok chunks →
  (∀ vs, ChXYZI vs ∉ chunks) →
  ∃ imp',
    LoadFromFile (Some (vox_file version chunks)) imp
    = Some (Loaded (negb (bool_decide (voxels imp = []))) imp')
    ∧ voxels imp' = voxels imp.
Proof.
  intros Hcs Hno. rewrite LoadFromFile_header.
  rewrite (LoadFromFile_loop_chunks _ (InitDefaultPalette imp) chunks Hcs eq_refl).
  2:{ unfold vox_file. rewrite !length_app.
      pose proof (length_bind_chunks chunks Hcs). lia. }
  assert (voxels (foldl apply_chunk (InitDefaultPalette imp) chunks) = voxels imp)
    as Hv.
  { change (voxels imp) with (voxels (InitDefaultPalette imp)).
    generalize (InitDefaultPalette imp). clear Hcs.
    induction chunks as [|c chunks IH]; intros imp0; [done|].
    cbn [foldl]. rewrite IH.
    - destruct c as [| vs | |]; try done.
      exfalso. apply (Hno vs). by left.
    - intros vs Hin. apply (Hno vs). by right. }
  eexists. unfold LoadFromFile_end. rewrite Hv. done.
Qed.

Lemma LoadFromFile_keeps_old_voxels_witness :
  ∃ imp',
    LoadFromFile (Some (vox_file 150 [ChSize (mk_vec3 2 2 2)])) example_vox
    = Some (Loaded true imp')
    ∧ voxels imp' = voxels example_vox.
Proof.
  apply (LoadFromFile_keeps_old_voxels 150 [ChSize (mk_vec3 2 2 2)] example_vox).
  - repeat constructor; unfold word_ok; simpl; lia.
  - intros vs Hin. apply list_elem_of_singleton in Hin. discriminate.
Defined.

(** X19: what is not a VOX file is refused and changes nothing.  When
    the file cannot be opened, does not start with the magic ["VOX "], or
    ends before the version is complete, [LoadFromFile] returns false and
    leaves the importer as it was (the palette included). *)
Theorem LoadFromFile_rejects (imp : VoxImporter) (bytes : list Z) :
  LoadFromFile None imp = Some (Loaded false imp)
  ∧ (take 4 bytes ≠ tag_VOX →
     LoadFromFile (Some bytes) imp = Some (Loaded false imp))
  ∧ ((length bytes < 8)%nat →
     LoadFromFile (Some bytes) imp = Some (Loaded false imp)).
Proof.
  split; [done|]. unfold LoadFromFile, fread. cbn [f_rest f_eof]. split.
  - intros Hmagic. rewrite (bool_decide_eq_false_2 _ Hmagic).
    by rewrite orb_true_r.
  - intros Hlen.
    destruct (negb (length (take 4 bytes) =? 4)%nat
              || negb (bool_decide (take 4 bytes = tag_VOX))); [done|].
    rewrite length_take, length_drop.
    assert ((4 `min` (length bytes - 4) =? 4)%nat = false) as ->
      by (apply Nat.eqb_neq; lia).
    done.
Qed.

Lemma LoadFromFile_rejects_witness :
  LoadFromFile (Some [86; 79; 88; 33; 150; 0; 0; 0]) example_vox
  = Some (Loaded false example_vox)
  ∧ LoadFromFile (Some [86; 79; 88; 32; 150; 0]) example_vox
    = Some (Loaded false example_vox).
Proof.
  split.
  - apply (proj1 (proj2 (LoadFromFile_rejects example_vox
                           [86; 79; 88; 33; 150; 0; 0; 0]))).
    discriminate.
  - apply (proj2 (proj2 (LoadFromFile_rejects example_vox
                           [86; 79; 88; 32; 150; 0]))).
    simpl. lia.
Defined.



(** ** Page writes *)

(** X21: [WritePage] touches only the words it is given.  A write that
    stays within its page leaves every word of a resident page outside
    the written range as it was (on the page written and on every other
    page), and does not touch the bucket counters. *)
Theorem WritePage_frame (cfg : Config) (s : NodePool) (page_id offset : Z)
    (data : list Z) (a : Z) :
  cfg_ok cfg → pages_ok cfg s →
  0 <= page_id < GetTotalPages cfg →
  0 <= offset → offset + Z.of_nat (length data) <= GetWordsPerPage cfg →
  0 <= a →
  is_Some (ReadPage s (a / GetWordsPerPage cfg)) →
  ¬ (a / GetWordsPerPage cfg = page_id
     ∧ offset <= a mod GetWordsPerPage cfg < offset + Z.of_nat (length data)) →
  read_word cfg (WritePage cfg s page_id offset data) a = read_word cfg s a
  ∧ m_bucket_words (WritePage cfg s page_id offset data) = m_bucket_words s.
Proof.
  intros Hcfg Hpages Hpage Hoff Hfit Ha _ Hout. split; [|done].
  rewrite read_word_WritePage by done. by rewrite decide_False.
Qed.

Lemma WritePage_frame_witness :
  let s := WritePage example_config (empty_pool example_config) 0 0 [1; 2] in
  read_word example_config (WritePage example_config s 0 2 [7; 8]) 1 = 2.
Proof.
  intros s.
  destruct (WritePage_frame example_config s 0 2 [7; 8] 1) as [H _].
  - exact example_config_ok.
  - apply pages_ok_WritePage.
    apply (pool_pages _ _ _ (pool_ok_empty _ example_hasher example_config_ok)).
  - vm_compute. split; congruence.
  - lia.
  - vm_compute. congruence.
  - lia.
  - vm_compute. eauto.
  - vm_compute. intros [_ [H _]]. by apply H.
  - rewrite H. reflexivity.
Defined.

(** ** Sphere fills through the colour-threading overloads *)

Lemma SphereEditor_EditNode_color_fill cfg e coord p c :
  (SphereEditor_EditNode_color mFill cfg e coord p c).1
  = SphereEditor_EditNode mFill cfg e coord p.
Proof.
  unfold SphereEditor_EditNode_color.
  change (SphereEditor_EditNode mFill cfg e coord Null)
    with (SphereEditor_EditNode mFill cfg e coord p).
  destruct (SphereEditor_EditNode mFill cfg e coord p); try done;
    by destruct (negb (ptr_bool p) || (c =? sphere_color e)).
Qed.

Lemma sphere_vbr_fill_respects cfg e colors voxel_colors :
  (0 < GetNodeLevels cfg)%nat → (GetVoxelLevel cfg <= 31)%nat → center_fits e →
  editor_respects cfg
    (vbr_as_editor (sphere_vbr_editor mFill cfg e) colors voxel_colors)
    (sphere_fills cfg e).
Proof.
  intros Hlv Hfit Hc.
  destruct (sphere_fill_respects cfg e Hlv Hfit Hc) as [Hv Hn Hcl Hf].
  split; simpl.
  - intros coord b Hl. apply (Hv coord b Hl).
  - intros coord p v b. rewrite SphereEditor_EditNode_color_fill.
    apply (Hn coord p).
  - intros coord p v b. rewrite SphereEditor_EditNode_color_fill.
    apply (Hcl coord p).
  - intros coord p v b. rewrite SphereEditor_EditNode_color_fill.
    apply (Hf coord p).
Qed.

(** X22: the colour-threading sphere fill adds exactly the sphere.  Run
    through the overloads that thread a colour (as the application does),
    whatever colours are passed in, [SphereEditor<kFill>] takes the same
    decisions: afterwards a voxel of the world is occupied exactly when it
    was occupied before or lies within squared distance [r2] of the
    centre. *)
Theorem sphere_vbr_fill_voxels (cfg : Config) (hasher : list Z → Z)
    (e : SphereEditor) (colors : NodeCoord → NodePointer → Z)
    (voxel_colors : NodeCoord → Z)
    (s : NodePool) (root : NodePointer) (s' : NodePool) (root' : NodePointer) :
  cfg_ok cfg → (0 < GetNodeLevels cfg)%nat → (GetVoxelLevel cfg <= 31)%nat →
  center_fits e →
  edited_world cfg hasher s root →
  edit_node cfg hasher
    (vbr_as_editor (sphere_vbr_editor mFill cfg e) colors voxel_colors)
    root root_coord s = Ok (root', s') →
  ∀ v, in_world cfg v →
       voxel_at cfg (GetLeafLevel cfg) s' root' v
       = voxel_at cfg (GetLeafLevel cfg) s root v || in_sphere cfg e v.
Proof.
  intros Hcfg Hlv Hfit Hc Hworld Hedit v Hw.
  destruct (edited_world_ok cfg hasher s root Hcfg Hlv Hworld) as [Hs Hv].
  destruct (edit_node_sound cfg hasher _ (sphere_fills cfg e) root s root' s'
              Hcfg Hlv
              (sphere_vbr_fill_respects cfg e colors voxel_colors Hlv Hfit Hc)
              Hs Hv Hedit) as (_ & _ & _ & Hrel).
  apply Hrel; [|done]. by apply in_cube_root.
Qed.

Lemma sphere_vbr_fill_voxels_witness :
  ∃ root' s',
    edit_node example_config example_hasher
      (vbr_as_editor (sphere_vbr_editor mFill example_config example_sphere)
         (λ _ _, 0) (λ _, 0))
      Null root_coord (empty_pool example_config) = Ok (root', s')
    ∧ voxel_at example_config (GetLeafLevel example_config) s' root'
        (mk_vec3 3 0 0) = true.
Proof.
  destruct (edit_node example_config example_hasher
              (vbr_as_editor (sphere_vbr_editor mFill example_config example_sphere)
                 (λ _ _, 0) (λ _, 0))
              Null root_coord (empty_pool example_config))
    as [[root' s']|] eqn:E; [|vm_compute in E; discriminate].
  exists root', s'. split; [reflexivity|].
  rewrite (sphere_vbr_fill_voxels example_config example_hasher example_sphere
             (λ _ _, 0) (λ _, 0) (empty_pool example_config) Null s' root'
             example_config_ok example_levels example_fit
             center_fits_example (edited_empty _ _) E (mk_vec3 3 0 0));
    [reflexivity|].
  vm_compute. repeat split; congruence.
Defined.
